(** * UF2 script injection for web-druid

    A shallow embedding of the UF2 script-injection routines documented in
    [src/druid.js] (section "UF2 Script Injection (for Web-Druid)"):
    [parseUf2], [deriveScriptName], [buildUserFlashImage], [createUf2Block],
    [makeUserScriptUf2Blocks], [inUserRange], [filterOutUserRegion],
    [serializeAndRenumber] and [injectScriptIntoBaseUf2].

    Conventions of the embedding:
    - a [Uint8Array] is a [list byte]; indices and lengths are [nat];
    - JavaScript numbers that hold 32-bit fields are [Z], with the
      wrap-around of [DataView.setUint32] and of the bitwise operators
      written out;
    - a JavaScript string is the list of its UTF-16 code units;
    - [throw] is the [Throw] constructor of the [result] monad. *)

From Stdlib Require Import ZArith Lia List Bool.
From Stdlib Require Import Strings.Byte Strings.Ascii Strings.String.
From stdpp Require Import base list.

Import ListNotations.
Local Open Scope Z_scope.

(** ** Errors and the error monad *)

(** One constructor per [throw] site of the source, plus the [RangeError]
    raised by [DataView] and [TypedArray.prototype.set] on an out-of-bounds
    access, and [OutOfFuel], which only the embedding of [for] loops can
    produce. *)
Inductive JsError : Type :=
  | LengthNotMultipleOf512              (* "UF2 length must be a multiple of 512" *)
  | BadMagic (off : nat)                (* "Bad UF2 magic at block offset ${off}" *)
  | InvalidPayloadSize (payloadSize : Z) (* "Invalid payloadSize ${payloadSize}" *)
  | ScriptTooLarge (len max : nat)      (* "Script too large: ${len} > ${max}" *)
  | PayloadNot256                       (* "payload must be 256 bytes" *)
  | Expected16KB                        (* "expected 16KB image" *)
  | RangeError
  | OutOfFuel.

Inductive result (A : Type) : Type :=
  | Ok (a : A)
  | Throw (e : JsError).

Arguments Ok {A} a.
Arguments Throw {A} e.

#[global] Instance result_ret : MRet result := fun A a => Ok a.
#[global] Instance result_bind : MBind result := fun A B f m =>
  match m with
  | Ok a => f a
  | Throw e => Throw e
  end.

(** The spec's [MalformedContainer] family: the three ways [parseUf2] throws. *)
Definition is_MalformedContainer (e : JsError) : bool :=
  match e with
  | LengthNotMultipleOf512 | BadMagic _ | InvalidPayloadSize _ => true
  | _ => false
  end.

(** ** Bytes and little-endian words *)

Definition byte_to_Z (b : byte) : Z := Z.of_N (Byte.to_N b).

Definition byte_of_Z (z : Z) : byte :=
  match Byte.of_N (Z.to_N (z mod 256)) with
  | Some b => b
  | None => x00
  end.

Definition le32 (b0 b1 b2 b3 : byte) : Z :=
  byte_to_Z b0 + 2^8 * byte_to_Z b1 + 2^16 * byte_to_Z b2 + 2^24 * byte_to_Z b3.

(** The four bytes [setUint32(_, v, true)] stores: [v] modulo 2^32, least
    significant byte first. *)
Definition u32_bytes (v : Z) : list byte :=
  [byte_of_Z v; byte_of_Z (v / 2^8); byte_of_Z (v / 2^16); byte_of_Z (v / 2^24)].

(** The little-endian word stored at [off] (bytes past the end read as 0;
    [getUint32] below throws there instead). *)
Definition u32_at (buf : list byte) (off : nat) : Z :=
  le32 (nth off buf x00) (nth (off + 1) buf x00)
       (nth (off + 2) buf x00) (nth (off + 3) buf x00).

(** ** Typed arrays and DataView *)

(** [buf.slice(a, b)] for [0 <= a <= b]: a copy, clamped to the length. *)
Definition slice (buf : list byte) (a b : nat) : list byte :=
  take (b - a) (drop a buf).

(** [buf.set(src, off)]: throws when [src] does not fit. *)
Definition set_bytes (buf src : list byte) (off : nat) : result (list byte) :=
  if (off + length src <=? length buf)%nat
  then Ok (list_inserts off src buf)
  else Throw RangeError.

(** [dv.getUint32(off, true)] *)
Definition getUint32 (buf : list byte) (off : nat) : result Z :=
  if (off + 4 <=? length buf)%nat then Ok (u32_at buf off) else Throw RangeError.

(** [dv.setUint32(off, v, true)] *)
Definition setUint32 (buf : list byte) (off : nat) (v : Z) : result (list byte) :=
  if (off + 4 <=? length buf)%nat
  then Ok (list_inserts off (u32_bytes v) buf)
  else Throw RangeError.

(** ** 32-bit operators of JavaScript *)

Definition ToUint32 (z : Z) : Z := z mod 2^32.
Definition ToInt32 (z : Z) : Z :=
  let m := z mod 2^32 in if m <? 2^31 then m else m - 2^32.

Definition js_and (a b : Z) : Z := ToInt32 (Z.land (ToInt32 a) (ToInt32 b)).
Definition js_or (a b : Z) : Z := ToInt32 (Z.lor (ToInt32 a) (ToInt32 b)).
Definition js_shl (a n : Z) : Z := ToInt32 (Z.shiftl (ToInt32 a) (ToUint32 n mod 32)).
Definition js_ushr (a n : Z) : Z := Z.shiftr (ToUint32 a) (ToUint32 n mod 32).

(** ** [for] loops

    [for (let i = start; i < stop; i += step) body] threading a state [s].
    The loop test is the source's; [fuel] bounds the number of iterations
    and running out of it is the error [OutOfFuel]. *)
Fixpoint for_lt {St : Type} (fuel : nat) (i stop step : nat)
    (body : nat -> St -> result St) (s : St) : result St :=
  if (i <? stop)%nat then
    match fuel with
    | O => Throw OutOfFuel
    | S fuel' =>
        s' ← body i s;
        for_lt fuel' (i + step) stop step body s'
    end
  else Ok s.

(** With [step >= 1] at most [stop - start] iterations run. *)
Definition for_loop {St : Type} (start stop step : nat)
    (body : nat -> St -> result St) (s : St) : result St :=
  for_lt (stop - start) start stop step body s.

(** ** Strings and [TextEncoder] *)

(** A JavaScript string: its UTF-16 code units, each in [0, 0xFFFF]. *)
Definition jsstring : Type := list Z.

Fixpoint js (s : string) : jsstring :=
  match s with
  | EmptyString => []
  | String a s' => Z.of_nat (nat_of_ascii a) :: js s'
  end.

Definition is_high_surrogate (u : Z) : bool := (0xD800 <=? u) && (u <=? 0xDBFF).
Definition is_low_surrogate (u : Z) : bool := (0xDC00 <=? u) && (u <=? 0xDFFF).

(** Code units to scalar values; an unpaired surrogate becomes U+FFFD, as
    [TextEncoder] does. *)
Fixpoint utf16_decode (s : jsstring) : list Z :=
  match s with
  | [] => []
  | u :: rest =>
      if is_high_surrogate u then
        match rest with
        | lo :: rest' =>
            if is_low_surrogate lo
            then (0x10000 + (u - 0xD800) * 0x400 + (lo - 0xDC00)) :: utf16_decode rest'
            else 0xFFFD :: utf16_decode rest
        | [] => [0xFFFD]
        end
      else if is_low_surrogate u then 0xFFFD :: utf16_decode rest
      else u :: utf16_decode rest
  end.

(** UTF-8 of one scalar value. *)
Definition utf8_encode_cp (c : Z) : list byte :=
  if c <? 0x80 then [byte_of_Z c]
  else if c <? 0x800 then
    [byte_of_Z (Z.lor 0xC0 (Z.shiftr c 6));
     byte_of_Z (Z.lor 0x80 (Z.land c 0x3F))]
  else if c <? 0x10000 then
    [byte_of_Z (Z.lor 0xE0 (Z.shiftr c 12));
     byte_of_Z (Z.lor 0x80 (Z.land (Z.shiftr c 6) 0x3F));
     byte_of_Z (Z.lor 0x80 (Z.land c 0x3F))]
  else
    [byte_of_Z (Z.lor 0xF0 (Z.shiftr c 18));
     byte_of_Z (Z.lor 0x80 (Z.land (Z.shiftr c 12) 0x3F));
     byte_of_Z (Z.lor 0x80 (Z.land (Z.shiftr c 6) 0x3F));
     byte_of_Z (Z.lor 0x80 (Z.land c 0x3F))].

Definition utf8_encode (cps : list Z) : list byte := flat_map utf8_encode_cp cps.

(** [new TextEncoder().encode(s)] *)
Definition TextEncoder_encode (s : jsstring) : list byte :=
  utf8_encode (utf16_decode s).

(** White space and line terminators removed by [String.prototype.trim]. *)
Definition is_js_space (u : Z) : bool :=
  (u =? 0x09) || (u =? 0x0A) || (u =? 0x0B) || (u =? 0x0C) || (u =? 0x0D)
  || (u =? 0x20) || (u =? 0xA0) || (u =? 0x1680)
  || ((0x2000 <=? u) && (u <=? 0x200A))
  || (u =? 0x2028) || (u =? 0x2029) || (u =? 0x202F) || (u =? 0x205F)
  || (u =? 0x3000) || (u =? 0xFEFF).

Fixpoint trim_start (s : jsstring) : jsstring :=
  match s with
  | [] => []
  | u :: rest => if is_js_space u then trim_start rest else s
  end.

Definition js_trim (s : jsstring) : jsstring :=
  rev (trim_start (rev (trim_start s))).

(** [s.split(/\r?\n/, 1)[0]]: the text before the first match of the
    separator, which is a line feed or a carriage return directly followed
    by a line feed; the whole string when there is none. *)
Fixpoint first_line (s : jsstring) : jsstring :=
  match s with
  | [] => []
  | u :: rest =>
      if u =? 0x0A then []
      else if (u =? 0x0D) && (match rest with v :: _ => v =? 0x0A | [] => false end)
      then []
      else u :: first_line rest
  end.

(** [s.startsWith("---")] *)
Definition startsWith_dashes (s : jsstring) : bool :=
  match s with
  | a :: b :: c :: _ => (a =? 0x2D) && (b =? 0x2D) && (c =? 0x2D)
  | _ => false
  end.

Definition deriveScriptName (scriptText : jsstring) : jsstring :=
  let firstLine := first_line scriptText in
  if negb (startsWith_dashes firstLine) then []
  else js_trim (drop 3 firstLine).

(** ** UF2 containers *)

Definition UF2_MAGIC_START0 : Z := 0x0a324655.
Definition UF2_MAGIC_START1 : Z := 0x9e5d5157.
Definition UF2_MAGIC_END : Z := 0x0ab16f30.
Definition RP2040_FAMILY_ID : Z := 0xe48bff56.
Definition UF2_FLAG_FAMILY_ID_PRESENT : Z := 0x2000.

Record Uf2Block : Type := mkUf2Block {
  magicStart0 : Z;
  magicStart1 : Z;
  flags : Z;
  targetAddr : Z;
  payloadSize : Z;
  blockNo : Z;
  numBlocks : Z;
  familyId : Z;
  payload : list byte
}.

(** One iteration of the loop of [parseUf2], at block offset [off]. *)
Definition parseUf2_body (fileBytes : list byte) (off : nat)
    (blocks : list Uf2Block) : result (list Uf2Block) :=
  magic0 ← getUint32 fileBytes (off + 0);
  magic1 ← getUint32 fileBytes (off + 4);
  magicEnd ← getUint32 fileBytes (off + 512 - 4);
  if negb (magic0 =? 0x0a324655) || negb (magic1 =? 0x9e5d5157)
     || negb (magicEnd =? 0x0ab16f30)
  then Throw (BadMagic off)
  else
    flags ← getUint32 fileBytes (off + 8);
    targetAddr ← getUint32 fileBytes (off + 12);
    payloadSize ← getUint32 fileBytes (off + 16);
    blockNo ← getUint32 fileBytes (off + 20);
    numBlocks ← getUint32 fileBytes (off + 24);
    familyId ← getUint32 fileBytes (off + 28);
    if 476 <? payloadSize then Throw (InvalidPayloadSize payloadSize)
    else
      let payload := slice fileBytes (off + 32) (off + 32 + Z.to_nat payloadSize) in
      Ok (blocks ++ [mkUf2Block magic0 magic1 flags targetAddr payloadSize
                                blockNo numBlocks familyId payload]).

Definition parseUf2 (fileBytes : list byte) : result (list Uf2Block) :=
  if negb (length fileBytes mod 512 =? 0)%nat then Throw LengthNotMultipleOf512
  else for_loop 0 (length fileBytes) 512 (parseUf2_body fileBytes) [].

(** ** The user-script flash image *)

Definition USER_FLASH_START : Z := 0x101fc000.
Definition USER_FLASH_SIZE : nat := 16 * 1024.
Definition USER_BLOCK_SIZE : nat := 256.
Definition MAX_SCRIPT_LEN : nat := USER_FLASH_SIZE - 4 - 32.

Definition buildUserFlashImage (scriptUtf8 : list byte) (name : jsstring)
    (versionWord : Z) : result (list byte) :=
  if (MAX_SCRIPT_LEN <? length scriptUtf8)%nat
  then Throw (ScriptTooLarge (length scriptUtf8) MAX_SCRIPT_LEN)
  else
    let image := replicate USER_FLASH_SIZE xff in
    let statusWord :=
      js_or (js_or 0x0a (js_shl (js_and versionWord 0x0fff) 4))
            (js_shl (js_and (Z.of_nat (length scriptUtf8)) 0xffff) 16) in
    image ← setUint32 image 0 (js_ushr statusWord 0);
    let nameBytes := TextEncoder_encode name in
    let n := Nat.min (length nameBytes) 31 in
    image ← set_bytes image (slice nameBytes 0 n) 4;
    let image := <[(4 + n)%nat := x00]> image in
    set_bytes image scriptUtf8 (4 + 32).

(** The default value of the parameter [versionWord]. *)
Definition DEFAULT_VERSION_WORD : Z := 0x040.

(** ** Blocks of the script image *)

Definition createUf2Block (targetAddr : Z) (payload : list byte)
    : result (list byte) :=
  if negb (length payload =? 256)%nat then Throw PayloadNot256
  else
    let block := replicate 512 x00 in
    block ← setUint32 block 0 0x0a324655;
    block ← setUint32 block 4 0x9e5d5157;
    block ← setUint32 block 8 0x2000;
    block ← setUint32 block 12 (js_ushr targetAddr 0);
    block ← setUint32 block 16 256;
    block ← setUint32 block 28 0xe48bff56;
    block ← set_bytes block payload 32;
    setUint32 block (512 - 4) 0x0ab16f30.

Definition makeUserScriptUf2Blocks_body (userFlashImage16k : list byte)
    (i : nat) (blocks : list (list byte)) : result (list (list byte)) :=
  let payload := slice userFlashImage16k (i * 256) (i * 256 + 256) in
  block ← createUf2Block (USER_FLASH_START + Z.of_nat i * 256) payload;
  Ok (blocks ++ [block]).

Definition makeUserScriptUf2Blocks (userFlashImage16k : list byte)
    : result (list (list byte)) :=
  if negb (length userFlashImage16k =? USER_FLASH_SIZE)%nat then Throw Expected16KB
  else for_loop 0 (USER_FLASH_SIZE / USER_BLOCK_SIZE) 1
         (makeUserScriptUf2Blocks_body userFlashImage16k) [].

(** ** Filtering, renumbering and the whole transform *)

Definition inUserRange (addr : Z) : bool :=
  (0x101fc000 <=? addr) && (addr <=? 0x101fffff).

Definition filterOutUserRegion (blocks : list Uf2Block) : list Uf2Block :=
  List.filter (fun b => negb (inUserRange (targetAddr b))) blocks.

(** One iteration of the loop of [serializeAndRenumber].  The block is
    updated in place in the source; only the copy into [out] is observed
    by the caller of the transform.  [allBlocks512[i]] is defined for every
    [i < total], so the [None] branch is never taken by the loop. *)
Definition serializeAndRenumber_body (allBlocks512 : list (list byte))
    (total : nat) (i : nat) (out : list byte) : result (list byte) :=
  match allBlocks512 !! i with
  | None => Throw RangeError
  | Some block =>
      block ← setUint32 block 20 (Z.of_nat i);
      block ← setUint32 block 24 (Z.of_nat total);
      set_bytes out block (i * 512)
  end.

Definition serializeAndRenumber (allBlocks512 : list (list byte))
    : result (list byte) :=
  let total := length allBlocks512 in
  let out := replicate (total * 512) x00 in
  for_loop 0 total 1 (serializeAndRenumber_body allBlocks512 total) out.

Definition injectScriptIntoBaseUf2_body (baseUf2Bytes : list byte)
    (i : nat) (baseBlocks512 : list (list byte)) : result (list (list byte)) :=
  let chunk := slice baseUf2Bytes i (i + 512) in
  targetAddr ← getUint32 chunk 12;
  if negb (inUserRange targetAddr) then Ok (baseBlocks512 ++ [chunk])
  else Ok baseBlocks512.

Definition injectScriptIntoBaseUf2 (baseUf2Bytes : list byte)
    (scriptText : jsstring) : result (list byte) :=
  let scriptUtf8 := TextEncoder_encode scriptText in
  let name := deriveScriptName scriptText in
  image16k ← buildUserFlashImage scriptUtf8 name DEFAULT_VERSION_WORD;
  scriptBlocks512 ← makeUserScriptUf2Blocks image16k;
  parsed ← parseUf2 baseUf2Bytes;
  let baseBlocks := filterOutUserRegion parsed in (* not used afterwards *)
  baseBlocks512 ← for_loop 0 (length baseUf2Bytes) 512
                    (injectScriptIntoBaseUf2_body baseUf2Bytes) [];
  serializeAndRenumber (baseBlocks512 ++ scriptBlocks512).

(** ** Vocabulary of the statements *)

(** *** Loops *)

(** [n] iterations of a loop body at [i], [i + step], ...: what [for_lt]
    computes when the fuel suffices. *)
Fixpoint iter_steps {St : Type} (n : nat) (i step : nat)
    (body : nat -> St -> result St) (s : St) : result St :=
  match n with
  | O => Ok s
  | S n' => s' ← body i s; iter_steps n' (i + step) step body s'
  end.

(** *** Well-formed containers and decoded blocks *)

(** The 512-byte slice of [fileBytes] at offset [off] has a leading or
    trailing magic word other than the fixed constants. *)
Definition has_bad_magic (fileBytes : list byte) (off : nat) : Prop :=
  u32_at fileBytes off <> UF2_MAGIC_START0
  \/ u32_at fileBytes (off + 4) <> UF2_MAGIC_START1
  \/ u32_at fileBytes (off + 508) <> UF2_MAGIC_END.

(** Its [payloadSize] field exceeds the 476 bytes of the data area. *)
Definition has_payload_overflow (fileBytes : list byte) (off : nat) : Prop :=
  476 < u32_at fileBytes (off + 16).

Definition malformed (fileBytes : list byte) : Prop :=
  (length fileBytes mod 512 <> 0)%nat
  \/ exists k : nat, (k < length fileBytes / 512)%nat
       /\ (has_bad_magic fileBytes (512 * k)
           \/ has_payload_overflow fileBytes (512 * k)).

(** The block the slice at [off] decodes to, field by field. *)
Definition decode_block (fileBytes : list byte) (off : nat) : Uf2Block :=
  {| magicStart0 := u32_at fileBytes off;
     magicStart1 := u32_at fileBytes (off + 4);
     flags := u32_at fileBytes (off + 8);
     targetAddr := u32_at fileBytes (off + 12);
     payloadSize := u32_at fileBytes (off + 16);
     blockNo := u32_at fileBytes (off + 20);
     numBlocks := u32_at fileBytes (off + 24);
     familyId := u32_at fileBytes (off + 28);
     payload := take (Z.to_nat (u32_at fileBytes (off + 16)))
                     (drop (off + 32) fileBytes) |}.

(** The error, if any, that one loop iteration of [parseUf2] raises. *)
Definition block_error (fileBytes : list byte) (off : nat) : option JsError :=
  if negb (u32_at fileBytes off =? UF2_MAGIC_START0)
     || negb (u32_at fileBytes (off + 4) =? UF2_MAGIC_START1)
     || negb (u32_at fileBytes (off + 508) =? UF2_MAGIC_END)
  then Some (BadMagic off)
  else if 476 <? u32_at fileBytes (off + 16)
  then Some (InvalidPayloadSize (u32_at fileBytes (off + 16)))
  else None.

(** The error of the first offending block among the [n] blocks from
    block index [k] on. *)
Fixpoint first_error (fileBytes : list byte) (k n : nat) : option JsError :=
  match n with
  | O => None
  | S n' =>
      match block_error fileBytes (512 * k) with
      | Some e => Some e
      | None => first_error fileBytes (S k) n'
      end
  end.

(** A decision procedure for well-formed containers. *)
Definition well_formedb (fileBytes : list byte) : bool :=
  (length fileBytes mod 512 =? 0)%nat
  && match first_error fileBytes 0 (length fileBytes / 512) with
     | None => true
     | Some _ => false
     end.

(** The value of a computation that does not throw. *)
Definition result_get {A : Type} (d : A) (r : result A) : A :=
  match r with
  | Ok a => a
  | Throw _ => d
  end.

(** *** The user region *)

(** The reserved user-script region, as an interval of target addresses. *)
Definition in_user_region (addr : Z) : Prop :=
  0x101fc000 <= addr <= 0x101fffff.

(** [survivors blocks kept]: [kept] is [blocks] with every block that
    targets the user region left out, and every other block kept as it is
    and in place. *)
Inductive survivors : list Uf2Block -> list Uf2Block -> Prop :=
  | survivors_nil : survivors [] []
  | survivors_drop b blocks kept :
      in_user_region (targetAddr b) ->
      survivors blocks kept -> survivors (b :: blocks) kept
  | survivors_keep b blocks kept :
      ~ in_user_region (targetAddr b) ->
      survivors blocks kept -> survivors (b :: blocks) (b :: kept).

(** [surviving_slices chunks kept]: [kept] is [chunks] with every raw
    512-byte slice whose [targetAddr], the little-endian word at its
    offset 12, lies in the user region left out, and every other slice
    kept as it is and in place. *)
Inductive surviving_slices : list (list byte) -> list (list byte) -> Prop :=
  | surviving_slices_nil : surviving_slices [] []
  | surviving_slices_drop chunk chunks kept :
      in_user_region (u32_at chunk 12) ->
      surviving_slices chunks kept -> surviving_slices (chunk :: chunks) kept
  | surviving_slices_keep chunk chunks kept :
      ~ in_user_region (u32_at chunk 12) ->
      surviving_slices chunks kept ->
      surviving_slices (chunk :: chunks) (chunk :: kept).

(** *** Script blocks and renumbered blocks *)

(** The bytes [createUf2Block] lays out for a 256-byte payload. *)
Definition script_block_bytes (targetAddr : Z) (payload : list byte) : list byte :=
  u32_bytes UF2_MAGIC_START0 ++ u32_bytes UF2_MAGIC_START1
  ++ u32_bytes UF2_FLAG_FAMILY_ID_PRESENT ++ u32_bytes (targetAddr mod 2^32)
  ++ u32_bytes 256 ++ replicate 8 x00 ++ u32_bytes RP2040_FAMILY_ID
  ++ payload ++ replicate 220 x00 ++ u32_bytes UF2_MAGIC_END.

(** The [i]-th block of the script image, as [makeUserScriptUf2Blocks]
    emits it. *)
Definition script_block (image : list byte) (i : nat) : list byte :=
  script_block_bytes (USER_FLASH_START + Z.of_nat i * 256)
                     (slice image (i * 256) (i * 256 + 256)).

(** A block after the two [setUint32] calls of [serializeAndRenumber]. *)
Definition renumber (i total : nat) (block : list byte) : list byte :=
  list_inserts 24 (u32_bytes (Z.of_nat total))
    (list_inserts 20 (u32_bytes (Z.of_nat i)) block).

Definition renumber_all (blocks : list (list byte)) : list (list byte) :=
  imap (fun i block => renumber i (length blocks) block) blocks.

(** *** Raw slices of the base image *)

(** The [k]-th raw 512-byte slice of the base image. *)
Definition base_chunk (baseUf2Bytes : list byte) (k : nat) : list byte :=
  slice baseUf2Bytes (512 * k) (512 * k + 512).

Definition chunk_survives (chunk : list byte) : bool :=
  negb (inUserRange (u32_at chunk 12)).

(** The raw slices of the base image whose [targetAddr] lies outside the
    user region, in order. *)
Definition surviving_chunks (baseUf2Bytes : list byte) : list (list byte) :=
  List.filter chunk_survives
    (map (base_chunk baseUf2Bytes) (seq 0 (length baseUf2Bytes / 512))).

(** *** Concrete inputs *)

(** A well-formed 512-byte block with the given header fields and an
    all-zero data area, for concrete inputs. *)
Definition sample_block (flags targetAddr blockNo numBlocks familyId : Z)
    : list byte :=
  u32_bytes UF2_MAGIC_START0 ++ u32_bytes UF2_MAGIC_START1
  ++ u32_bytes flags ++ u32_bytes targetAddr ++ u32_bytes 256
  ++ u32_bytes blockNo ++ u32_bytes numBlocks ++ u32_bytes familyId
  ++ replicate 476 x00 ++ u32_bytes UF2_MAGIC_END.

(** A two-block base container: one block below the user region and one
    stale block inside it. *)
Definition small_base : list byte :=
  sample_block 0x2000 0x10000000 0 2 RP2040_FAMILY_ID
  ++ sample_block 0x2000 0x101fc000 1 2 RP2040_FAMILY_ID.

(** A base container of 128 well-formed blocks at flash addresses
    0x10000000, 0x10000100, ..., all below the user region. *)
Definition demo_base : list byte :=
  mjoin (map (fun k : nat =>
                sample_block 0x2000 (0x10000000 + Z.of_nat k * 256)
                             (Z.of_nat k) 128 RP2040_FAMILY_ID)
             (seq 0 128)).

(** The script of the end-to-end scenario: the line [---demo], a line
    feed, the line [print(1)], a line feed. *)
Definition demo_script : jsstring :=
  js "---demo" ++ [0x0A] ++ js "print(1)" ++ [0x0A].

(** Thirty ASCII letters followed by U+00E9, whose UTF-8 encoding has two
    bytes (0xC3 0xA9): 32 bytes in all. *)
Definition name_30a_eacute : jsstring := replicate 30 0x61 ++ [0xE9].

(** *** Readings of the specification *)

(** The reading of "family id only if flagged" that makes the decoded
    [familyId] zero whenever bit 13 of [flags] is clear. *)
Definition familyId_zero_when_unflagged : Prop :=
  forall (block : list byte) (b : Uf2Block),
    length block = 512%nat ->
    parseUf2 block = Ok [b] ->
    Z.testbit (flags b) 13 = false ->
    familyId b = 0.

(** The reading that makes it independent of the four bytes at offset 28. *)
Definition familyId_ignores_offset_28 : Prop :=
  forall (block1 block2 : list byte) (b1 b2 : Uf2Block),
    length block1 = 512%nat -> length block2 = 512%nat ->
    (forall i : nat, (i < 28 \/ 32 <= i)%nat -> block1 !! i = block2 !! i) ->
    parseUf2 block1 = Ok [b1] ->
    parseUf2 block2 = Ok [b2] ->
    Z.testbit (flags b1) 13 = false ->
    familyId b1 = familyId b2.

(** The reading of the region filter with the range as a parameter:
    whatever the inclusive range [regionStart, regionEnd] is, the blocks
    kept are exactly the blocks whose [targetAddr] lies outside it. *)
Definition filter_by_any_range : Prop :=
  forall (blocks : list Uf2Block) (regionStart regionEnd : Z) (b : Uf2Block),
    regionStart <= regionEnd ->
    (In b (filterOutUserRegion blocks)
     <-> In b blocks /\ ~ regionStart <= targetAddr b <= regionEnd).

(** The name field of the image built for [name] holds the UTF-8 encoding
    of a whole number of characters of [name], at most 31 bytes long,
    followed by a NUL byte: the cut falls between two characters. *)
Definition name_cut_at_char_boundary (name : jsstring) : Prop :=
  forall image : list byte,
    buildUserFlashImage [] name DEFAULT_VERSION_WORD = Ok image ->
    exists k : nat,
      (length (utf8_encode (take k (utf16_decode name))) <= 31)%nat
      /\ slice image 4 (4 + length (utf8_encode (take k (utf16_decode name))))
         = utf8_encode (take k (utf16_decode name))
      /\ image !! (4 + length (utf8_encode (take k (utf16_decode name))))%nat
         = Some x00.

(** What the end-to-end scenario expects of the transform of [base] and
    [demo_script], with [len_field] the expected script length in the
    status word: the image has the name field "demo", NUL, 0xFF padding,
    status nibble 0xA and that length; the output has 192 blocks numbered
    0..191, the last 64 of which carry the image. *)
Definition demo_scenario (len_field : Z) (base : list byte) : Prop :=
  exists image out : list byte,
    buildUserFlashImage (TextEncoder_encode demo_script)
      (deriveScriptName demo_script) DEFAULT_VERSION_WORD = Ok image
    /\ injectScriptIntoBaseUf2 base demo_script = Ok out
    /\ slice image 4 36 = [x64; x65; x6d; x6f] ++ [x00] ++ replicate 27 xff
    /\ Z.land (u32_at image 0) 0xF = 0xA
    /\ Z.shiftr (u32_at image 0) 16 = len_field
    /\ length out = (192 * 512)%nat
    /\ (forall i : nat, (i < 192)%nat ->
          u32_at out (512 * i + 20) = Z.of_nat i
          /\ u32_at out (512 * i + 24) = 192)
    /\ (forall i : nat, (i < 64)%nat ->
          slice out (512 * (128 + i) + 32) (512 * (128 + i) + 32 + 256)
          = slice image (i * 256) (i * 256 + 256)).


(** ** Vocabulary of the further properties *)

(** A single well-formed 512-byte UF2 block. *)
Definition well_formed_block (block : list byte) : Prop :=
  length block = 512%nat
  /\ ~ has_bad_magic block 0
  /\ ~ has_payload_overflow block 0.

(** A decoded block with its sequence fields replaced. *)
Definition with_numbering (i total : nat) (b : Uf2Block) : Uf2Block :=
  {| magicStart0 := magicStart0 b;
     magicStart1 := magicStart1 b;
     flags := flags b;
     targetAddr := targetAddr b;
     payloadSize := payloadSize b;
     blockNo := Z.of_nat i;
     numBlocks := Z.of_nat total;
     familyId := familyId b;
     payload := payload b |}.


(** ** More operations on strings *)

(** [s.indexOf(c)] for a one-character search string: the first position
    of the code unit [c], or -1. *)
Fixpoint js_indexOf (c : Z) (s : jsstring) : Z :=
  match s with
  | [] => -1
  | u :: rest =>
      if u =? c then 0
      else let r := js_indexOf c rest in if r =? -1 then -1 else 1 + r
  end.

(** [s.lastIndexOf(c)] for a one-character search string. *)
Definition js_lastIndexOf (c : Z) (s : jsstring) : Z :=
  let r := js_indexOf c (rev s) in
  if r =? -1 then -1 else Z.of_nat (length s) - 1 - r.

(** [s.substring(a, b)] for [0 <= a <= b] and [s.substring(a)]; both clamp
    to the length. *)
Definition js_substring (s : jsstring) (a b : nat) : jsstring :=
  take (b - a) (drop a s).

Definition js_substring_from (s : jsstring) (a : nat) : jsstring := drop a s.

(** Truthiness of a string: it is not empty. *)
Definition js_truthy (s : jsstring) : bool :=
  match s with
  | [] => false
  | _ :: _ => true
  end.

(** [s.includes(c)] for a one-character search string. *)
Definition js_includes_char (c : Z) (s : jsstring) : bool :=
  negb (js_indexOf c s =? -1).

Fixpoint js_startsWith (s p : jsstring) : bool :=
  match p with
  | [] => true
  | c :: p' =>
      match s with
      | [] => false
      | u :: s' => (u =? c) && js_startsWith s' p'
      end
  end.

Definition js_endsWith (s p : jsstring) : bool :=
  js_startsWith (rev s) (rev p).

(** The segments of [s] that end in a line feed, without it, and the
    unterminated rest. *)
Fixpoint split_lf (s : jsstring) : list jsstring * jsstring :=
  match s with
  | [] => ([], [])
  | u :: rest =>
      let (segs, tail) := split_lf rest in
      if u =? 0x0A then ([] :: segs, tail)
      else match segs with
           | [] => ([], u :: tail)
           | seg :: segs' => ((u :: seg) :: segs', tail)
           end
  end.

(** [s.split('\n')]: the terminated segments, then the rest. *)
Definition js_split_lf (s : jsstring) : list jsstring :=
  fst (split_lf s) ++ [snd (split_lf s)].

(** ** Line buffering of serial input ([CrowConnection.startReading]) *)

(** The inner [while] loop: as long as the buffer holds a line feed, cut
    the line before it off the buffer and hand it to [onDataReceived]
    unless it is empty.  [received] collects the lines handed over. *)
Fixpoint drain_lines (fuel : nat) (lineBuffer : jsstring)
    (received : list jsstring) : result (jsstring * list jsstring) :=
  let newlineIndex := js_indexOf 0x0A lineBuffer in
  if negb (newlineIndex =? -1) then
    match fuel with
    | O => Throw OutOfFuel
    | S fuel' =>
        let line := js_substring lineBuffer 0 (Z.to_nat newlineIndex) in
        let lineBuffer := js_substring_from lineBuffer (Z.to_nat newlineIndex + 1) in
        drain_lines fuel' lineBuffer
          (if js_truthy line then received ++ [line] else received)
    end
  else Ok (lineBuffer, received).

(** What [startReading] does with one chunk [value] read from the port:
    the new [lineBuffer] and the lines passed to [onDataReceived], in
    order.  [hasHandler] says whether [onDataReceived] is set. *)
Definition startReading_chunk (hasHandler : bool) (lineBuffer value : jsstring)
    : result (jsstring * list jsstring) :=
  if js_truthy value && hasHandler then
    let lineBuffer := lineBuffer ++ value in
    drain_lines (length lineBuffer) lineBuffer []
  else Ok (lineBuffer, []).

(** ** Preparing code for the device ([prepareCodeForCrow], [sendToCrow]) *)

Definition FENCE : jsstring := [0x60; 0x60; 0x60].

Fixpoint drop_leading_lf (s : jsstring) : jsstring :=
  match s with
  | [] => []
  | u :: rest => if u =? 0x0A then drop_leading_lf rest else s
  end.

(** [s.replace(/\n+$/g, '')]: the string without its trailing line feeds. *)
Definition strip_trailing_lf (s : jsstring) : jsstring :=
  rev (drop_leading_lf (rev s)).

Definition prepareCodeForCrow (code : jsstring) : jsstring :=
  let trimmed := js_trim code in
  let alreadyFenced := js_startsWith trimmed FENCE && js_endsWith trimmed FENCE in
  if alreadyFenced then code
  else
    let isMultiline := js_includes_char 0x0A code in
    if negb isMultiline then code
    else
      let withoutTrailingNewlines := strip_trailing_lf code in
      FENCE ++ [0x0A] ++ withoutTrailingNewlines ++ [0x0A] ++ FENCE.

(** [s.replace(/\r\n/g, '\n')] *)
Fixpoint replace_crlf (s : jsstring) : jsstring :=
  match s with
  | [] => []
  | u :: rest =>
      match rest with
      | v :: rest' =>
          if (u =? 0x0D) && (v =? 0x0A) then 0x0A :: replace_crlf rest'
          else u :: replace_crlf rest
      | [] => [u]
      end
  end.

(** [s.replace(/\r/g, '\n')] *)
Definition replace_cr (s : jsstring) : jsstring :=
  map (fun u => if u =? 0x0D then 0x0A else u) s.

(** The argument of the successive [writer.write] calls of [sendToCrow]
    on a live connection whose writes succeed: one per line of the
    prepared code, each followed by carriage return and line feed
    ([writeLine]). *)
Definition writeLine_data (line : jsstring) : jsstring := line ++ [0x0D; 0x0A].

Definition sendToCrow_writes (code : jsstring) : list jsstring :=
  let normalizedCode := replace_cr (replace_crlf code) in
  let preparedCode := prepareCodeForCrow normalizedCode in
  let lines := js_split_lf preparedCode in
  map writeLine_data lines.

(** ** Signature help ([getActiveParameter]) *)

Definition count_commas (s : jsstring) : Z :=
  Z.of_nat (length (List.filter (fun u => u =? 0x2C) s)).

Definition getActiveParameter (text : jsstring) : Z :=
  let openParen := js_lastIndexOf 0x28 text in
  if openParen =? -1 then 0
  else
    let afterParen := js_substring_from text (Z.to_nat (openParen + 1)) in
    count_commas afterParen.

(** ** Positions in Lua source ([compareLuaPositions]) *)

(** A position object; a field that is missing or null is [None]. *)
Record LuaPos : Type := mkLuaPos {
  pos_line : option Z;
  pos_column : option Z
}.

(** [x ?? 0] *)
Definition or_zero (x : option Z) : Z :=
  match x with
  | Some v => v
  | None => 0
  end.

(** [a] and [b] are position objects or null ([None]). *)
Definition compareLuaPositions (a b : option LuaPos) : Z :=
  match a, b with
  | Some a, Some b =>
      let aLine := or_zero (pos_line a) in
      let bLine := or_zero (pos_line b) in
      if negb (aLine =? bLine) then aLine - bLine
      else
        let aCol := or_zero (pos_column a) in
        let bCol := or_zero (pos_column b) in
        aCol - bCol
  | _, _ => 0
  end.

(** ** Command history of the plain REPL input ([handleReplInput])

    The state the handler works on: the fields [commandHistory],
    [historyIndex] and [currentInput] of the application and the text of
    the [replInput] textarea.  Output to the page and writes to the port
    are not part of it. *)
Record ReplState : Type := mkReplState {
  commandHistory : list jsstring;
  historyIndex : Z;
  currentInput : jsstring;
  replInputValue : jsstring
}.

Inductive ReplKey : Type :=
  | ArrowUp
  | ArrowDown
  | Enter (shiftKey : bool)
  | OtherKey.

(** [commandHistory[i]]; an index outside the array gives [undefined],
    which a textarea shows as the text "undefined". *)
Definition history_at (h : list jsstring) (i : Z) : jsstring :=
  if (0 <=? i) && (i <? Z.of_nat (length h)) then nth (Z.to_nat i) h []
  else js "undefined".

(** [a === b] on strings. *)
Fixpoint jsstring_eqb (a b : jsstring) : bool :=
  match a, b with
  | [], [] => true
  | x :: a', y :: b' => (x =? y) && jsstring_eqb a' b'
  | _, _ => false
  end.

(** The handler up to its first [await]: everything it does for the arrow
    keys and for other keys, and for Enter the echo, the push onto the
    history and, when the device is not connected, the reset.  [focused]
    says whether the textarea is the active element. *)
Definition handleReplInput (focused isConnected : bool) (key : ReplKey)
    (st : ReplState) : ReplState :=
  if negb focused then st
  else
    let len := Z.of_nat (length (commandHistory st)) in
    match key with
    | ArrowUp =>
        if len =? 0 then st
        else
          let st :=
            if historyIndex st =? -1
            then mkReplState (commandHistory st) (historyIndex st)
                             (replInputValue st) (replInputValue st)
            else st in
          if historyIndex st <? len - 1
          then
            let historyIndex := historyIndex st + 1 in
            mkReplState (commandHistory st) historyIndex (currentInput st)
                        (history_at (commandHistory st) (len - 1 - historyIndex))
          else st
    | ArrowDown =>
        if historyIndex st =? -1 then st
        else
          let historyIndex := historyIndex st - 1 in
          if historyIndex =? -1
          then mkReplState (commandHistory st) historyIndex (currentInput st)
                           (currentInput st)
          else mkReplState (commandHistory st) historyIndex (currentInput st)
                           (history_at (commandHistory st) (len - 1 - historyIndex))
    | Enter false =>
        let code := js_trim (replInputValue st) in
        if js_truthy code then
          let commandHistory :=
            if (len =? 0)
               || negb (jsstring_eqb (history_at (commandHistory st) (len - 1)) code)
            then commandHistory st ++ [code]
            else commandHistory st in
          if negb isConnected
          then mkReplState commandHistory (-1) [] []
          else mkReplState commandHistory (historyIndex st) (currentInput st)
                           (replInputValue st)
        else st
    | Enter true | OtherKey =>
        if negb (historyIndex st =? -1)
        then mkReplState (commandHistory st) (-1) [] (replInputValue st)
        else st
    end.

(** The rest of the Enter branch, run once the lines are written: the
    reset when no write threw, nothing to the state otherwise. *)
Definition handleReplInput_sent (writesSucceeded : bool) (st : ReplState)
    : ReplState :=
  if writesSucceeded
  then mkReplState (commandHistory st) (-1) [] []
  else st.

(** No two neighbours of the list are equal. *)
Fixpoint adjacent_distinct (h : list jsstring) : Prop :=
  match h with
  | [] => True
  | a :: rest =>
      match rest with
      | [] => True
      | b :: _ => a <> b /\ adjacent_distinct rest
      end
  end.

(** The invariant of the REPL state. *)
Definition repl_invariant (st : ReplState) : Prop :=
  -1 <= historyIndex st < Z.of_nat (length (commandHistory st))
  /\ Forall (fun code => code <> []) (commandHistory st)
  /\ adjacent_distinct (commandHistory st).

(** [n] presses of the same key on the focused textarea. *)
Definition press (n : nat) (key : ReplKey) (st : ReplState) : ReplState :=
  Nat.iter n (handleReplInput true true key) st.

(** ** Output of the device ([handleCrowOutput], [handleCrowEvent]) *)

(** [s.indexOf(p)] for a search string [p]: the first position at which
    [p] occurs in [s], or -1. *)
Fixpoint js_indexOf_str (p s : jsstring) {struct s} : Z :=
  if js_startsWith s p then 0
  else match s with
       | [] => -1
       | _ :: rest =>
           let r := js_indexOf_str p rest in if r =? -1 then -1 else 1 + r
       end.

(** [s.includes(p)] *)
Definition js_includes (p s : jsstring) : bool :=
  negb (js_indexOf_str p s =? -1).

(** [s.replace(/\r/g, '')] *)
Definition remove_cr (s : jsstring) : jsstring :=
  List.filter (fun u => negb (u =? 0x0D)) s.

(** Puts [u] in front of the first segment. *)
Definition cons_to_head (u : Z) (segs : list jsstring) : list jsstring :=
  match segs with
  | [] => [[u]]
  | seg :: segs' => (u :: seg) :: segs'
  end.

(** [s.split('^^')]: the pieces between the occurrences of two carets,
    found from left to right without overlap. *)
Fixpoint split_carets (s : jsstring) : list jsstring :=
  match s with
  | [] => [[]]
  | u :: rest =>
      match rest with
      | v :: rest' =>
          if (u =? 0x5E) && (v =? 0x5E) then [] :: split_carets rest'
          else cons_to_head u (split_carets rest)
      | [] => [[u]]
      end
  end.

(** [s.split(c)] for a one-character separator. *)
Fixpoint js_split_char (c : Z) (s : jsstring) : list jsstring :=
  match s with
  | [] => [[]]
  | u :: rest =>
      if u =? c then [] :: js_split_char c rest
      else cons_to_head u (js_split_char c rest)
  end.

(** [l.join(sep)] on an array of strings. *)
Fixpoint js_join (sep : jsstring) (l : list jsstring) : jsstring :=
  match l with
  | [] => []
  | a :: rest =>
      match rest with
      | [] => a
      | _ :: _ => a ++ sep ++ js_join sep rest
      end
  end.

(** The class [\w] of a regular expression without flags. *)
Definition is_word_char (u : Z) : bool :=
  ((0x30 <=? u) && (u <=? 0x39)) || ((0x41 <=? u) && (u <=? 0x5A))
  || ((0x61 <=? u) && (u <=? 0x7A)) || (u =? 0x5F).

(** The longest prefix whose code units satisfy [p], and the rest. *)
Fixpoint span (p : Z -> bool) (s : jsstring) : jsstring * jsstring :=
  match s with
  | [] => ([], [])
  | u :: rest =>
      if p u then let (a, b) := span p rest in (u :: a, b) else ([], s)
  end.

(** [part.match(re)] for the regular expression of the source: at the
    start of [part], one or more word characters (the first group), an
    opening parenthesis, any number of code units other than a closing
    parenthesis (the second group), and a closing parenthesis.  The result
    is the two groups, or [None] when there is no match.  Both repetitions
    are greedy, and neither can give a code unit back: what follows the
    word characters must be an opening parenthesis, which is no word
    character, and what follows the second group must be a closing
    parenthesis.  So the groups are the longest runs. *)
Definition match_event (part : jsstring) : option (jsstring * jsstring) :=
  let (event, rest) := span is_word_char part in
  match event, rest with
  | _ :: _, u :: rest' =>
      if u =? 0x28 then
        let (argsStr, rest'') := span (fun v => negb (v =? 0x29)) rest' in
        match rest'' with
        | v :: _ => if v =? 0x29 then Some (event, argsStr) else None
        | [] => None
        end
      else None
  | _, _ => None
  end.

(** The value of a digit of radix up to 16. *)
Definition digit_value (u : Z) : option Z :=
  if (0x30 <=? u) && (u <=? 0x39) then Some (u - 0x30)
  else if (0x61 <=? u) && (u <=? 0x66) then Some (u - 0x61 + 10)
  else if (0x41 <=? u) && (u <=? 0x46) then Some (u - 0x41 + 10)
  else None.

Definition is_digit (radix : Z) (u : Z) : bool :=
  match digit_value u with
  | Some d => d <? radix
  | None => false
  end.

Definition digits_value (radix : Z) (digits : jsstring) : Z :=
  fold_left (fun acc u => acc * radix + default 0 (digit_value u)) digits 0.

(** [parseInt(s)] without a radix: [None] is NaN, [Some n] the integer
    read (the Number is that integer rounded to a double, which changes no
    comparison with 1 or 2; the sign of zero is not kept).  White space
    at the start is skipped, a sign is read, [0x] or [0X] selects radix
    16, and the longest run of digits is taken. *)
Definition parseInt (s : jsstring) : option Z :=
  let s := trim_start s in
  let sign := match s with
              | u :: _ => if u =? 0x2D then -1 else 1
              | [] => 1
              end in
  let s := match s with
           | u :: rest => if (u =? 0x2B) || (u =? 0x2D) then rest else s
           | [] => s
           end in
  let (radix, s) :=
    match s with
    | u :: v :: rest =>
        if (u =? 0x30) && ((v =? 0x78) || (v =? 0x58)) then (16, rest)
        else (10, s)
    | _ => (10, s)
    end in
  let digits := fst (span (is_digit radix) s) in
  match digits with
  | [] => None
  | _ :: _ => Some (sign * digits_value radix digits)
  end.

(** What the two handlers do to the page: a line appended to the output,
    or a sample for a stream monitor.  [UpdateStreamMonitor channel text]
    is the call [updateStreamMonitor(channel, parseFloat(text))]. *)
Inductive CrowEffect : Type :=
  | OutputLine (text : jsstring)
  | UpdateStreamMonitor (channel : Z) (valueText : jsstring).

Definition handleCrowEvent (event : jsstring) (args : list jsstring)
    : list CrowEffect :=
  if jsstring_eqb event (js "pubview") then []
  else if jsstring_eqb event (js "stream") || jsstring_eqb event (js "change")
  then
    if 2 <=? Z.of_nat (length args) then
      let channel := parseInt (nth 0 args []) in
      match channel with
      | Some channel =>
          if (channel =? 1) || (channel =? 2)
          then [UpdateStreamMonitor channel (nth 1 args [])]
          else []
      | None => []
      end
    else []
  else if jsstring_eqb event (js "pupdate") then []
  else [OutputLine (js "^^" ++ event ++ js "(" ++ js_join (js ", ") args
                    ++ js ")")].

(** [argsStr ? argsStr.split(',').map(s => s.trim()) : []] *)
Definition event_args (argsStr : jsstring) : list jsstring :=
  if js_truthy argsStr then map js_trim (js_split_char 0x2C argsStr) else [].

(** The body of the loop over the parts of a line that holds [^^]. *)
Definition handleCrowOutput_part (part : jsstring) : list CrowEffect :=
  if negb (js_truthy (js_trim part)) then []
  else
    match match_event part with
    | Some (event, argsStr) => handleCrowEvent event (event_args argsStr)
    | None => if js_truthy (js_trim part) then [OutputLine part] else []
    end.

Definition handleCrowOutput (data : jsstring) : list CrowEffect :=
  let cleaned := remove_cr data in
  if negb (js_truthy cleaned) then []
  else if js_includes (js "pubview(") cleaned then []
  else if js_includes (js "^^") cleaned then
    flat_map handleCrowOutput_part (split_carets cleaned)
  else [OutputLine cleaned].

(** [p] occurs in [s]. *)
Definition occurs_in (p s : jsstring) : Prop :=
  exists a b, s = a ++ p ++ b.

(** A line [^^event(arg,...,arg)] as the device sends it. *)
Definition event_line (sep : jsstring) (event : jsstring) (args : list jsstring)
    : jsstring :=
  js "^^" ++ event ++ js "(" ++ js_join sep args ++ js ")".

(** An argument text the line format can carry: no comma, no closing
    parenthesis, no caret and no carriage return. *)
Definition event_arg_ok (a : jsstring) : Prop :=
  ~ In 0x2C a /\ ~ In 0x29 a /\ ~ In 0x5E a /\ ~ In 0x0D a.

(** The events [handleCrowEvent] has a case for. *)
Definition known_events : list jsstring :=
  [js "pubview"; js "stream"; js "change"; js "pupdate"].

(** The arguments as [args.join(', ')] lays them out, cut at the commas:
    every argument but the first has a space in front. *)
Definition spaced (args : list jsstring) : list jsstring :=
  match args with
  | [] => []
  | a :: rest => a :: map (cons 0x20) rest
  end.

(** ** The window of stream samples ([updateStreamMonitor])

    The samples of one channel, [streamData[channel]], as pairs of the
    time in milliseconds and the value; the value is only stored.  What
    the function does to the page is left out. *)

(** The [while] loop: samples are shifted off the front as long as the
    first one is older than [cutoff]. *)
Fixpoint shift_older {V : Type} (cutoff : Z) (data : list (Z * V))
    : list (Z * V) :=
  match data with
  | [] => []
  | sample :: rest =>
      if fst sample <? cutoff then shift_older cutoff rest else data
  end.

(** [now] is the value of [Date.now()]. *)
Definition updateStreamMonitor {V : Type} (now : Z) (value : V)
    (data : list (Z * V)) : list (Z * V) :=
  let data := data ++ [(now, value)] in
  let cutoff := now - 5000 in
  shift_older cutoff data.

(** The times of the samples never decrease along the list. *)
Definition times_ascending {V : Type} (data : list (Z * V)) : Prop :=
  forall (i j : nat) (a b : Z * V),
    (i <= j)%nat -> data !! i = Some a -> data !! j = Some b -> fst a <= fst b.

(** ** Renaming the script ([renameScript]) *)

(** The mark of unsaved changes: a space and a bullet. *)
Definition MODIFIED_MARK : jsstring := [0x20; 0x2022].

(** [s.replace(p, '')] for a non-empty string [p]: the first occurrence
    of [p] is removed. *)
Fixpoint remove_first (p s : jsstring) {struct s} : jsstring :=
  if js_startsWith s p then drop (length p) s
  else match s with
       | [] => []
       | u :: rest => u :: remove_first p rest
       end.

Definition LUA_EXTENSION : jsstring := js ".lua".

(** The new [scriptName].  [promptResult] is what [prompt] returned:
    [None] when the dialog was cancelled. *)
Definition renameScript (promptResult : option jsstring) (scriptName : jsstring)
    : jsstring :=
  let currentName := remove_first MODIFIED_MARK scriptName in
  match promptResult with
  | None => scriptName
  | Some newName =>
      if js_truthy newName && js_truthy (js_trim newName)
         && negb (jsstring_eqb newName currentName)
      then
        let scriptName := js_trim newName in
        if negb (js_endsWith scriptName LUA_EXTENSION)
        then scriptName ++ LUA_EXTENSION
        else scriptName
      else scriptName
  end.

(** The text ends in [.lua]. *)
Definition ends_in_lua (text : jsstring) : Prop :=
  exists stem : jsstring, text = stem ++ LUA_EXTENSION.

(** ** The history in the REPL editor ([navigateReplHistory],
    [sendReplCommand])

    The editor of the REPL works on the same state as the textarea;
    [replInputValue] is then the text of the editor. *)

(** The listener for content changes that [initializeReplEditor] installs
    last: it ends the browsing of the history unless the change comes from
    the browsing itself.  (Its call of [validateReplSyntax] sets markers
    only.) *)
Definition replEditor_contentChanged
    (replAutocompleteEnabled isNavigatingHistory : bool) (st : ReplState)
    : ReplState :=
  if replAutocompleteEnabled then
    if negb (historyIndex st =? -1) && negb isNavigatingHistory
    then mkReplState (commandHistory st) (-1) (currentInput st)
                     (replInputValue st)
    else st
  else st.

(** [replEditor.setValue(text)].  [notifies] says whether the editor calls
    the listener; [isNavigatingHistory] is the value of the flag at the
    time of the call. *)
Definition replEditor_setValue
    (notifies replAutocompleteEnabled isNavigatingHistory : bool)
    (text : jsstring) (st : ReplState) : ReplState :=
  let st := mkReplState (commandHistory st) (historyIndex st)
                        (currentInput st) text in
  if notifies
  then replEditor_contentChanged replAutocompleteEnabled isNavigatingHistory st
  else st.

Definition navigateReplHistory (notifies replAutocompleteEnabled : bool)
    (direction : jsstring) (st : ReplState) : ReplState :=
  let len := Z.of_nat (length (commandHistory st)) in
  if jsstring_eqb direction (js "up") then
    if len =? 0 then st
    else
      let st :=
        if historyIndex st =? -1
        then mkReplState (commandHistory st) (historyIndex st)
                         (replInputValue st) (replInputValue st)
        else st in
      if historyIndex st <? len - 1
      then
        let st := mkReplState (commandHistory st) (historyIndex st + 1)
                              (currentInput st) (replInputValue st) in
        replEditor_setValue notifies replAutocompleteEnabled true
          (history_at (commandHistory st) (len - 1 - historyIndex st)) st
      else st
  else if jsstring_eqb direction (js "down") then
    if historyIndex st =? -1 then st
    else
      let st := mkReplState (commandHistory st) (historyIndex st - 1)
                            (currentInput st) (replInputValue st) in
      if historyIndex st =? -1
      then replEditor_setValue notifies replAutocompleteEnabled true
             (currentInput st) st
      else replEditor_setValue notifies replAutocompleteEnabled true
             (history_at (commandHistory st) (len - 1 - historyIndex st)) st
  else st.

(** [sendReplCommand] up to its first [await]: the push onto the history
    and, when the device is not connected, the reset. *)
Definition sendReplCommand (notifies replAutocompleteEnabled isConnected : bool)
    (code : jsstring) (st : ReplState) : ReplState :=
  let len := Z.of_nat (length (commandHistory st)) in
  let st :=
    if (len =? 0)
       || negb (jsstring_eqb (history_at (commandHistory st) (len - 1)) code)
    then mkReplState (commandHistory st ++ [code]) (historyIndex st)
                     (currentInput st) (replInputValue st)
    else st in
  if negb isConnected then
    let st := replEditor_setValue notifies replAutocompleteEnabled false [] st in
    mkReplState (commandHistory st) (-1) [] (replInputValue st)
  else st.

(** The rest of [sendReplCommand], run once the lines are written. *)
Definition sendReplCommand_sent (notifies replAutocompleteEnabled : bool)
    (writesSucceeded : bool) (st : ReplState) : ReplState :=
  if writesSucceeded then
    let st := mkReplState (commandHistory st) (-1) [] (replInputValue st) in
    replEditor_setValue notifies replAutocompleteEnabled false [] st
  else st.

(** ** The symbol index of a Lua chunk ([extractLuaSymbolIndex])

    The syntax tree comes from the parser, a library; here it is any
    JavaScript value built from primitives, arrays and objects.  An
    object is the list of its entries in the order of [Object.entries].
    Numbers are integers: the index reads lines and columns only. *)
#[warnings="-register-all"] Inductive JsVal : Type :=
  | JUndefined
  | JNull
  | JBool (b : bool)
  | JNum (n : Z)
  | JStr (s : jsstring)
  | JArr (items : list JsVal)
  | JObj (fields : list (jsstring * JsVal)).

(** [v && typeof v === 'object'] *)
Definition js_is_object (v : JsVal) : bool :=
  match v with
  | JArr _ | JObj _ => true
  | _ => false
  end.

(** Truthiness of a value. *)
Definition js_val_truthy (v : JsVal) : bool :=
  match v with
  | JUndefined | JNull => false
  | JBool b => b
  | JNum n => negb (n =? 0)
  | JStr s => js_truthy s
  | JArr _ | JObj _ => true
  end.

(** [v?.key] for a name [key] that is no property of arrays or strings:
    the entry of an object, [undefined] otherwise. *)
Definition js_get (v : JsVal) (key : jsstring) : JsVal :=
  match v with
  | JObj fields =>
      match List.find (fun kv => jsstring_eqb (fst kv) key) fields with
      | Some kv => snd kv
      | None => JUndefined
      end
  | _ => JUndefined
  end.

(** [v === s] for a string [s]. *)
Definition js_is_string (v : JsVal) (s : jsstring) : bool :=
  match v with
  | JStr t => jsstring_eqb t s
  | _ => false
  end.

(** [key === s] for a key that is a string or null. *)
Definition key_is (key : option jsstring) (s : jsstring) : bool :=
  match key with
  | Some k => jsstring_eqb k s
  | None => false
  end.

(** One call of the visitor: the node, its owner and the key under
    which the owner holds it; owner and key are null at the root. *)
Record Visit : Type := mkVisit {
  visit_node : JsVal;
  visit_parent : option JsVal;
  visit_parentKey : option jsstring
}.

(** [walk]: the calls of the visitor, in order.  The elements of an array
    are visited with the owner and the key of the array. *)
Fixpoint walk (parent : option JsVal) (parentKey : option jsstring)
    (node : JsVal) {struct node} : list Visit :=
  match node with
  | JArr items =>
      mkVisit node parent parentKey
      :: flat_map (walk parent parentKey) items
  | JObj fields =>
      mkVisit node parent parentKey
      :: flat_map (fun kv =>
                     let '(key, value) := kv in
                     if negb (js_is_object value) then []
                     else walk (Some node) (Some key) value) fields
  | _ => []
  end.

Definition isIdentifier (n : JsVal) : bool :=
  js_is_object n
  && js_is_string (js_get n (js "type")) (js "Identifier")
  && match js_get n (js "name") with
     | JStr _ => true
     | _ => false
     end.

(** The [name] of a node that [isIdentifier] accepts. *)
Definition node_name (n : JsVal) : jsstring :=
  match js_get n (js "name") with
  | JStr s => s
  | _ => []
  end.

(** [toPos]: the start of a location with the column counted from 1, or
    null ([None]) when line or column is no number. *)
Definition toPos (loc : JsVal) : option LuaPos :=
  let line := js_get (js_get loc (js "start")) (js "line") in
  let column0 := js_get (js_get loc (js "start")) (js "column") in
  match line, column0 with
  | JNum line, JNum column0 => Some (mkLuaPos (Some line) (Some (column0 + 1)))
  | _, _ => None
  end.

Inductive DeclKind : Type := KindVariable | KindFunction.
Inductive DeclScope : Type := ScopeLocal | ScopeGlobal.

(** A definition: the declaration info and the position. *)
Record LuaDef : Type := mkLuaDef {
  def_name : jsstring;
  def_kind : DeclKind;
  def_scope : DeclScope;
  def_pos : option LuaPos
}.

(** [parent.type === t && parentKey === key] for an owner that is an
    object. *)
Definition owner_is (parent : option JsVal) (parentKey : option jsstring)
    (t key : jsstring) : bool :=
  match parent with
  | Some parent => js_is_string (js_get parent (js "type")) t && key_is parentKey key
  | None => false
  end.

(** [!parent || typeof parent !== 'object'] *)
Definition no_owner (parent : option JsVal) : bool :=
  match parent with
  | Some parent => negb (js_is_object parent)
  | None => true
  end.

(** [getDeclarationInfo] together with the position the visitor adds:
    the definition [{ ...decl, pos }] for the given [pos]. *)
Definition getDeclarationInfo (node : JsVal) (parent : option JsVal)
    (parentKey : option jsstring) (pos : option LuaPos) : option LuaDef :=
  if negb (isIdentifier node) || no_owner parent then None
  else if owner_is parent parentKey (js "LocalStatement") (js "variables")
  then Some (mkLuaDef (node_name node) KindVariable ScopeLocal pos)
  else if owner_is parent parentKey (js "AssignmentStatement") (js "variables")
  then Some (mkLuaDef (node_name node) KindVariable ScopeGlobal pos)
  else if owner_is parent parentKey (js "ForNumericStatement") (js "variable")
  then Some (mkLuaDef (node_name node) KindVariable ScopeLocal pos)
  else if owner_is parent parentKey (js "ForGenericStatement") (js "variables")
  then Some (mkLuaDef (node_name node) KindVariable ScopeLocal pos)
  else if owner_is parent parentKey (js "FunctionDeclaration") (js "parameters")
  then Some (mkLuaDef (node_name node) KindVariable ScopeLocal pos)
  else if owner_is parent parentKey (js "FunctionDeclaration") (js "identifier")
  then Some (mkLuaDef (node_name node) KindFunction
               (match parent with
                | Some parent =>
                    if js_val_truthy (js_get parent (js "isLocal"))
                    then ScopeLocal else ScopeGlobal
                | None => ScopeGlobal
                end) pos)
  else None.

Definition isPropertyIdentifier (node : JsVal) (parent : option JsVal)
    (parentKey : option jsstring) : bool :=
  if negb (isIdentifier node) || no_owner parent then false
  else if owner_is parent parentKey (js "MemberExpression") (js "identifier")
  then true
  else if owner_is parent parentKey (js "TableKeyString") (js "key") then true
  else false.

(** [parent && typeof parent === 'object' && (parent.type ===
    'LabelStatement' || parent.type === 'GotoStatement')] *)
Definition owner_is_label (parent : option JsVal) : bool :=
  match parent with
  | Some parent =>
      js_is_object parent
      && (js_is_string (js_get parent (js "type")) (js "LabelStatement")
          || js_is_string (js_get parent (js "type")) (js "GotoStatement"))
  | None => false
  end.

(** A [Map] with string keys: its entries in the order of insertion. *)
Definition jsmap (V : Type) : Type := list (jsstring * V).

Fixpoint jsmap_get {V : Type} (key : jsstring) (m : jsmap V) : option V :=
  match m with
  | [] => None
  | (k, v) :: rest => if jsstring_eqb k key then Some v else jsmap_get key rest
  end.

(** [m.set(key, value)]: an entry that is there keeps its place. *)
Fixpoint jsmap_set {V : Type} (key : jsstring) (value : V) (m : jsmap V)
    : jsmap V :=
  match m with
  | [] => [(key, value)]
  | (k, v) :: rest =>
      if jsstring_eqb k key then (key, value) :: rest
      else (k, v) :: jsmap_set key value rest
  end.

(** [pos && existingPos && compareLuaPositions(pos, existingPos) < 0] *)
Definition strictly_before (pos existingPos : option LuaPos) : bool :=
  match pos, existingPos with
  | Some _, Some _ => compareLuaPositions pos existingPos <? 0
  | _, _ => false
  end.

(** A reference: a name and where it stands. *)
Record LuaRef : Type := mkLuaRef {
  ref_name : jsstring;
  ref_pos : option LuaPos
}.

(** The visitor of [extractLuaSymbolIndex], on the pair of [defsByName]
    and [refs]. *)
Definition visitor (st : jsmap LuaDef * list LuaRef) (v : Visit)
    : jsmap LuaDef * list LuaRef :=
  let '(defsByName, refs) := st in
  let node := visit_node v in
  let parent := visit_parent v in
  let parentKey := visit_parentKey v in
  if negb (isIdentifier node) then st
  else
    match getDeclarationInfo node parent parentKey
            (toPos (js_get node (js "loc"))) with
    | Some def =>
        match jsmap_get (def_name def) defsByName with
        | None => (jsmap_set (def_name def) def defsByName, refs)
        | Some existing =>
            if strictly_before (def_pos def) (def_pos existing)
            then (jsmap_set (def_name def) def defsByName, refs)
            else st
        end
    | None =>
        if isPropertyIdentifier node parent parentKey then st
        else if owner_is_label parent then st
        else (defsByName,
              refs ++ [mkLuaRef (node_name node)
                         (toPos (js_get node (js "loc")))])
    end.

Record SymbolIndex : Type := mkSymbolIndex {
  defsByName : jsmap LuaDef;
  locals : jsmap LuaDef;
  globals : jsmap LuaDef;
  refs : list LuaRef
}.

Definition is_local (def : LuaDef) : bool :=
  match def_scope def with
  | ScopeLocal => true
  | ScopeGlobal => false
  end.

(** [ast] is the tree the parser returned, [None] when the parser is not
    loaded or throws; the result is then null. *)
Definition extractLuaSymbolIndex (ast : option JsVal) : option SymbolIndex :=
  match ast with
  | None => None
  | Some ast =>
      let '(defsByName, refs) := fold_left visitor (walk None None ast) ([], []) in
      let locals := List.filter (fun entry => is_local (snd entry)) defsByName in
      let globals :=
        List.filter (fun entry => negb (is_local (snd entry))) defsByName in
      Some (mkSymbolIndex defsByName locals globals refs)
  end.

(** The declarations of a chunk: for every visit of a declared
    identifier the definition it stands for, in the order of the visits. *)
Definition visit_declaration (v : Visit) : option LuaDef :=
  getDeclarationInfo (visit_node v) (visit_parent v) (visit_parentKey v)
    (toPos (js_get (visit_node v) (js "loc"))).

Definition chunk_declarations (ast : JsVal) : list LuaDef :=
  omap visit_declaration (walk None None ast).

(** ** Globals of the session ([updateSessionLuaGlobalsFromCode]) *)

(** An entry of [_sessionLuaGlobals]: a definition and where it came
    from. *)
Record SessionDef : Type := mkSessionDef {
  session_def : LuaDef;
  session_source : jsstring
}.

(** What both refreshing loops do with one global of the index. *)
Definition refresh_global (source : jsstring) (session : jsmap SessionDef)
    (entry : jsstring * LuaDef) : jsmap SessionDef :=
  let '(name, def) := entry in
  let next := mkSessionDef def source in
  match jsmap_get name session with
  | None => jsmap_set name next session
  | Some existing =>
      if strictly_before (def_pos def) (def_pos (session_def existing))
      then jsmap_set name next session
      else session
  end.

(** [source || 'session'] *)
Definition source_or_session (source : jsstring) : jsstring :=
  if js_truthy source then source else js "session".

Definition updateSessionLuaGlobalsFromCode (ast : option JsVal)
    (source : jsstring) (session : jsmap SessionDef) : jsmap SessionDef :=
  match extractLuaSymbolIndex ast with
  | None => session
  | Some index =>
      fold_left (fun session entry =>
                   if negb (js_truthy (fst entry)) then session
                   else refresh_global (source_or_session source) session entry)
                (globals index) session
  end.

(** ** Warnings for undefined names ([validateLuaSyntax],
    [validateReplSyntax]) *)

Definition KNOWN_GLOBALS : list jsstring :=
  map js
    ["_G"; "_VERSION";
     "assert"; "collectgarbage"; "dofile"; "error"; "getmetatable"; "ipairs";
     "load"; "loadfile";
     "next"; "pairs"; "pcall"; "print"; "rawequal"; "rawget"; "rawlen";
     "rawset"; "require";
     "select"; "setmetatable"; "tonumber"; "tostring"; "type"; "xpcall";
     "coroutine"; "string"; "table"; "math"; "utf8"; "package";
     "io"; "os"; "debug";
     "crow"; "input"; "output"; "metro"; "clock"; "delay"; "timeline";
     "hotswap"; "ii"; "public"; "cal";
     "tell"; "quote"; "unique_id"; "time"; "cputime"; "justvolts"; "just12";
     "hztovolts";
     "dyn"; "to"; "loop"; "held"; "lock"; "times"; "asl"; "sequins"; "s";
     "tab"; "bb"]%string.

(** [set.has(name)] for a set of strings given by its elements. *)
Definition set_has (names : list jsstring) (name : jsstring) : bool :=
  existsb (fun known => jsstring_eqb known name) names.

(** The keys of a map. *)
Definition jsmap_keys {V : Type} (m : jsmap V) : list jsstring := map fst m.

(** A warning marker; severity and the fixed part of the message are
    left out. *)
Record Marker : Type := mkMarker {
  startLineNumber : Z;
  startColumn : Z;
  endLineNumber : Z;
  endColumn : Z;
  marker_name : jsstring
}.

(** [index.defsByName.get(name) || this._sessionLuaGlobals.get(name)],
    reduced to what is read of it: [None] when there is no definition, and
    otherwise its position. *)
Definition lookup_def (index : SymbolIndex) (session : jsmap SessionDef)
    (name : jsstring) : option (option LuaPos) :=
  match jsmap_get name (defsByName index) with
  | Some def => Some (def_pos def)
  | None =>
      match jsmap_get name session with
      | Some existing => Some (def_pos (session_def existing))
      | None => None
      end
  end.

(** [pos?.line || 0] and [pos?.column || 0] *)
Definition line_or_zero (pos : option LuaPos) : Z :=
  match pos with
  | Some p => or_zero (pos_line p)
  | None => 0
  end.

Definition column_or_zero (pos : option LuaPos) : Z :=
  match pos with
  | Some p => or_zero (pos_column p)
  | None => 0
  end.

(** The key under which a reference is remembered in [emitted]: the text
    built from name, line and column, which is the same for two references
    exactly when the three agree. *)
Definition emitted_key (ref : LuaRef) : jsstring * Z * Z :=
  (ref_name ref, line_or_zero (ref_pos ref), column_or_zero (ref_pos ref)).

Definition emitted_has (emitted : list (jsstring * Z * Z))
    (key : jsstring * Z * Z) : bool :=
  existsb (fun k => jsstring_eqb (fst (fst k)) (fst (fst key))
                    && (snd (fst k) =? snd (fst key))
                    && (snd k =? snd key)) emitted.

(** The loop over [index.refs] of both validators.  [max] is
    [MAX_UNDEFINED_MARKERS] and [skip] the tests that make the loop go on
    to the next reference before the key is built. *)
Fixpoint marker_loop (max : nat) (skip : LuaRef -> bool) (refs : list LuaRef)
    (emitted : list (jsstring * Z * Z)) (markers : list Marker)
    : list Marker :=
  match refs with
  | [] => markers
  | ref :: rest =>
      if (max <=? length markers)%nat then markers
      else if skip ref then marker_loop max skip rest emitted markers
      else
        let key := emitted_key ref in
        if emitted_has emitted key
        then marker_loop max skip rest emitted markers
        else
          let emitted := key :: emitted in
          let startLineNumber := line_or_zero (ref_pos ref) in
          let startColumn := column_or_zero (ref_pos ref) in
          if (startLineNumber =? 0) || (startColumn =? 0)
          then marker_loop max skip rest emitted markers
          else
            marker_loop max skip rest emitted
              (markers ++ [mkMarker startLineNumber startColumn startLineNumber
                             (startColumn
                              + Z.of_nat (length (ref_name ref)))
                             (ref_name ref)])
      end.

(** The tests of [validateLuaSyntax] on a reference. *)
Definition editor_skip (known : list jsstring) (index : SymbolIndex)
    (session : jsmap SessionDef) (ref : LuaRef) : bool :=
  if set_has known (ref_name ref) then true
  else
    match lookup_def index session (ref_name ref) with
    | None => false
    | Some defPos =>
        match defPos, ref_pos ref with
        | Some _, Some _ => compareLuaPositions defPos (ref_pos ref) <=? 0
        | _, _ => true
        end
    end.

(** [validateLuaSyntax] on a buffer that parses, [ast] being what the
    parser returns to [extractLuaSymbolIndex]: the session globals after
    the refresh and the markers set on the model. *)
Definition validateLuaSyntax (ast : option JsVal) (session : jsmap SessionDef)
    : jsmap SessionDef * list Marker :=
  match extractLuaSymbolIndex ast with
  | None => (session, [])
  | Some index =>
      let session :=
        fold_left (refresh_global (js "editor")) (globals index) session in
      let known := KNOWN_GLOBALS ++ jsmap_keys session in
      (session,
       marker_loop 100 (editor_skip known index session) (refs index) [] [])
  end.

(** The tests of [validateReplSyntax] on a reference. *)
Definition repl_skip (known : list jsstring) (index : SymbolIndex)
    (session : jsmap SessionDef) (ref : LuaRef) : bool :=
  if set_has known (ref_name ref) then true
  else
    match lookup_def index session (ref_name ref) with
    | Some (Some defPos) =>
        match ref_pos ref with
        | Some _ => compareLuaPositions (Some defPos) (ref_pos ref) <=? 0
        | None => false
        end
    | _ => false
    end.

(** [validateReplSyntax] on a text that is not blank and parses: the
    markers set on the model. *)
Definition validateReplSyntax (ast : option JsVal) (session : jsmap SessionDef)
    : list Marker :=
  let known := KNOWN_GLOBALS ++ jsmap_keys session in
  match extractLuaSymbolIndex ast with
  | None => []
  | Some index =>
      marker_loop 50 (repl_skip known index session) (refs index) [] []
  end.

(** ** Vocabulary for the symbol index *)

(** What the visitor does to [defsByName] with a declaration. *)
Definition add_def (def : LuaDef) (defs : jsmap LuaDef) : jsmap LuaDef :=
  match jsmap_get (def_name def) defs with
  | None => jsmap_set (def_name def) def defs
  | Some existing =>
      if strictly_before (def_pos def) (def_pos existing)
      then jsmap_set (def_name def) def defs
      else defs
  end.

(** [defs] is a sound record of the declarations [decls]: every entry
    is one of them, filed under its name, and stands at or before every
    other declaration of the name that has a position; every declared
    name has an entry; and no name has two. *)
Definition index_sound (decls : list LuaDef) (defs : jsmap LuaDef) : Prop :=
  (forall name def, jsmap_get name defs = Some def ->
     def_name def = name /\ In def decls)
  /\ (forall name def p other q,
        jsmap_get name defs = Some def -> def_pos def = Some p ->
        In other decls -> def_name other = name -> def_pos other = Some q ->
        compareLuaPositions (Some p) (Some q) <= 0)
  /\ (forall d, In d decls -> jsmap_get (def_name d) defs <> None)
  /\ List.NoDup (jsmap_keys defs).

(** The marker pushed for a reference, and the key of a marker. *)
Definition marker_of (ref : LuaRef) : Marker :=
  mkMarker (line_or_zero (ref_pos ref)) (column_or_zero (ref_pos ref))
           (line_or_zero (ref_pos ref))
           (column_or_zero (ref_pos ref) + Z.of_nat (length (ref_name ref)))
           (ref_name ref).

Definition marker_key (m : Marker) : jsstring * Z * Z :=
  (marker_name m, startLineNumber m, startColumn m).

(** What a refresh makes of the entry of a name for which the index has
    the global [def]. *)
Definition refreshed (source : jsstring) (old : option SessionDef)
    (def : LuaDef) : SessionDef :=
  match old with
  | None => mkSessionDef def source
  | Some existing =>
      if strictly_before (def_pos def) (def_pos (session_def existing))
      then mkSessionDef def source
      else existing
  end.

(** A small chunk as the parser returns it:
    [print(x)], [x = 1], [local y = x], [print(y.z, w)]. *)
Definition loc_at (line column : Z) : JsVal :=
  JObj [(js "start", JObj [(js "line", JNum line); (js "column", JNum column)])].

Definition identifier_at (name : string) (line column : Z) : JsVal :=
  JObj [(js "type", JStr (js "Identifier")); (js "name", JStr (js name));
        (js "loc", loc_at line column)].

Definition call_statement (base : JsVal) (arguments : list JsVal) : JsVal :=
  JObj [(js "type", JStr (js "CallStatement"));
        (js "expression",
         JObj [(js "type", JStr (js "CallExpression"));
               (js "base", base);
               (js "arguments", JArr arguments)])].

Definition sample_chunk : JsVal :=
  JObj [(js "type", JStr (js "Chunk"));
        (js "body",
         JArr [call_statement (identifier_at "print" 1 0) [identifier_at "x" 1 6];
               JObj [(js "type", JStr (js "AssignmentStatement"));
                     (js "variables", JArr [identifier_at "x" 2 0]);
                     (js "init",
                      JArr [JObj [(js "type", JStr (js "NumericLiteral"));
                                  (js "value", JNum 1)]])];
               JObj [(js "type", JStr (js "LocalStatement"));
                     (js "variables", JArr [identifier_at "y" 3 6]);
                     (js "init", JArr [identifier_at "x" 3 10])];
               call_statement (identifier_at "print" 4 0)
                 [JObj [(js "type", JStr (js "MemberExpression"));
                        (js "indexer", JStr (js "."));
                        (js "identifier", identifier_at "z" 4 8);
                        (js "base", identifier_at "y" 4 6)];
                  identifier_at "w" 4 11]])].

(** The index of the small chunk. *)
Definition sample_index : SymbolIndex :=
  mkSymbolIndex
    [(js "x", mkLuaDef (js "x") KindVariable ScopeGlobal
                (Some (mkLuaPos (Some 2) (Some 1))));
     (js "y", mkLuaDef (js "y") KindVariable ScopeLocal
                (Some (mkLuaPos (Some 3) (Some 7))))]
    [(js "y", mkLuaDef (js "y") KindVariable ScopeLocal
                (Some (mkLuaPos (Some 3) (Some 7))))]
    [(js "x", mkLuaDef (js "x") KindVariable ScopeGlobal
                (Some (mkLuaPos (Some 2) (Some 1))))]
    [mkLuaRef (js "print") (Some (mkLuaPos (Some 1) (Some 1)));
     mkLuaRef (js "x") (Some (mkLuaPos (Some 1) (Some 7)));
     mkLuaRef (js "x") (Some (mkLuaPos (Some 3) (Some 11)));
     mkLuaRef (js "print") (Some (mkLuaPos (Some 4) (Some 1)));
     mkLuaRef (js "y") (Some (mkLuaPos (Some 4) (Some 7)));
     mkLuaRef (js "w") (Some (mkLuaPos (Some 4) (Some 12)))].
(** * Proofs *)

(** ** Bytes and little-endian words *)

Lemma byte_to_Z_range b : 0 <= byte_to_Z b < 256.
Proof.
  unfold byte_to_Z. pose proof (Byte.to_N_bounded b). lia.
Qed.

Lemma byte_to_of_Z z : byte_to_Z (byte_of_Z z) = z mod 256.
Proof.
  unfold byte_to_Z, byte_of_Z.
  assert (Hr : 0 <= z mod 256 < 256) by (apply Z.mod_pos_bound; lia).
  destruct (Byte.of_N (Z.to_N (z mod 256))) as [b|] eqn:E.
  - apply Byte.to_of_N in E. rewrite E. lia.
  - apply Byte.of_N_None_iff in E. lia.
Qed.

Lemma byte_of_to_Z b : byte_of_Z (byte_to_Z b) = b.
Proof.
  unfold byte_of_Z, byte_to_Z.
  pose proof (Byte.to_N_bounded b).
  rewrite Z.mod_small by lia.
  rewrite N2Z.id, Byte.of_to_N. reflexivity.
Qed.

Lemma le32_range b0 b1 b2 b3 : 0 <= le32 b0 b1 b2 b3 < 2^32.
Proof.
  unfold le32.
  pose proof (byte_to_Z_range b0). pose proof (byte_to_Z_range b1).
  pose proof (byte_to_Z_range b2). pose proof (byte_to_Z_range b3).
  change (2^8) with 256. change (2^16) with 65536.
  change (2^24) with 16777216. change (2^32) with 4294967296. lia.
Qed.

Lemma le32_u32_bytes v :
  le32 (byte_of_Z v) (byte_of_Z (v / 2^8)) (byte_of_Z (v / 2^16))
       (byte_of_Z (v / 2^24)) = v mod 2^32.
Proof.
  unfold le32. rewrite !byte_to_of_Z.
  change (2^32) with (256 * (256 * (256 * 256))).
  rewrite Z.rem_mul_r by lia.
  rewrite (Z.rem_mul_r (v / 256)) by lia.
  rewrite (Z.rem_mul_r (v / 256 / 256)) by lia.
  rewrite !Z.div_div by lia.
  change (2^8) with 256. change (2^16) with (256*256).
  change (2^24) with (256 * 256 * 256). lia.
Qed.

(** ** The embedding on concrete inputs *)

Example deriveScriptName_demo : deriveScriptName demo_script = js "demo".
Proof. reflexivity. Qed.

Example deriveScriptName_no_marker : deriveScriptName (js "print(1)") = [].
Proof. reflexivity. Qed.

Example deriveScriptName_crlf_and_spaces :
  deriveScriptName (js "---  my script " ++ [0x0D; 0x0A] ++ js "x = 1")
  = js "my script".
Proof. reflexivity. Qed.

Example TextEncoder_encode_demo_length :
  length (TextEncoder_encode demo_script) = 17%nat.
Proof. reflexivity. Qed.

(** U+00E9, U+20AC, the surrogate pair of U+1F600 and a lone surrogate. *)
Example TextEncoder_encode_multibyte :
  TextEncoder_encode [0xE9; 0x20AC; 0xD83D; 0xDE00; 0xD800]
  = [xc3; xa9; xe2; x82; xac; xf0; x9f; x98; x80; xef; xbf; xbd].
Proof. reflexivity. Qed.

Example js_shl_wraps_to_int32 :
  js_shl 0xffff 16 = -65536 /\ js_ushr (js_shl 0xffff 16) 0 = 0xffff0000.
Proof. split; reflexivity. Qed.

Example demo_status_word :
  u32_at (result_get []
            (buildUserFlashImage (TextEncoder_encode demo_script)
               (deriveScriptName demo_script) DEFAULT_VERSION_WORD)) 0
  = 0x0011040a.
Proof. vm_compute. reflexivity. Qed.

Example oversize_script_rejected :
  buildUserFlashImage (replicate (S MAX_SCRIPT_LEN) x61) [] DEFAULT_VERSION_WORD
  = Throw (ScriptTooLarge (S MAX_SCRIPT_LEN) MAX_SCRIPT_LEN).
Proof. vm_compute. reflexivity. Qed.

(** ** Loops *)

Section Loops.
Context {St : Type}.
Variable body : nat -> St -> result St.
Variables stop step : nat.
Hypothesis step_pos : (0 < step)%nat.

(** A loop that needs [n] iterations to reach [stop] runs exactly those,
    whatever fuel at least [n] it is given. *)
Lemma for_lt_iter n : forall fuel i s,
  (n <= fuel)%nat ->
  (stop <= i + n * step)%nat ->
  (forall j, (j < n)%nat -> (i + j * step < stop)%nat) ->
  for_lt fuel i stop step body s = iter_steps n i step body s.
Proof.
  induction n as [|n IH]; intros fuel i s Hfuel Hstop Hlt.
  - destruct fuel; simpl;
      rewrite (proj2 (Nat.ltb_ge i stop)) by lia; reflexivity.
  - destruct fuel as [|fuel]; [lia|]. simpl.
    pose proof (Hlt 0%nat ltac:(lia)) as H0.
    rewrite (proj2 (Nat.ltb_lt i stop)) by lia.
    destruct (body i s) as [s'|e]; simpl; [|reflexivity].
    apply IH; [lia|lia|].
    intros j Hj. specialize (Hlt (S j) ltac:(lia)). lia.
Qed.
End Loops.

(** ** Typed arrays, DataView and lists *)

Ltac leb_true :=
  repeat match goal with
  | |- context [(?a <=? ?b)%nat] =>
      rewrite (proj2 (Nat.leb_le a b)) by (simpl; lia)
  end.

Lemma getUint32_in_range buf off :
  (off + 4 <= length buf)%nat -> getUint32 buf off = Ok (u32_at buf off).
Proof. intros H. unfold getUint32. leb_true. reflexivity. Qed.

Lemma setUint32_ok buf off v :
  (off + 4 <= length buf)%nat ->
  setUint32 buf off v = Ok (list_inserts off (u32_bytes v) buf).
Proof. intros H. unfold setUint32. leb_true. reflexivity. Qed.

Lemma set_bytes_ok buf src off :
  (off + length src <= length buf)%nat ->
  set_bytes buf src off = Ok (list_inserts off src buf).
Proof. intros H. unfold set_bytes. leb_true. reflexivity. Qed.

Lemma length_slice buf a n :
  (a + n <= length buf)%nat -> length (slice buf a (a + n)) = n.
Proof.
  intros H. unfold slice. rewrite length_take, length_drop. lia.
Qed.

Lemma u32_at_lookup buf off b0 b1 b2 b3 :
  buf !! off = Some b0 -> buf !! (off + 1)%nat = Some b1 ->
  buf !! (off + 2)%nat = Some b2 -> buf !! (off + 3)%nat = Some b3 ->
  u32_at buf off = le32 b0 b1 b2 b3.
Proof.
  intros H0 H1 H2 H3. unfold u32_at.
  rewrite !nth_lookup, H0, H1, H2, H3. reflexivity.
Qed.

Lemma u32_at_ext buf1 buf2 off1 off2 :
  (forall j : nat, (j < 4)%nat -> buf1 !! (off1 + j)%nat = buf2 !! (off2 + j)%nat) ->
  u32_at buf1 off1 = u32_at buf2 off2.
Proof.
  intros H. unfold u32_at. rewrite !nth_lookup.
  pose proof (H 0%nat ltac:(lia)) as H0. rewrite !Nat.add_0_r in H0.
  rewrite H0, (H 1%nat), (H 2%nat), (H 3%nat) by lia. reflexivity.
Qed.

Lemma u32_at_inserts buf off v :
  (off + 4 <= length buf)%nat ->
  u32_at (list_inserts off (u32_bytes v) buf) off = v mod 2^32.
Proof.
  intros Hlen. rewrite <- le32_u32_bytes.
  apply u32_at_lookup;
    rewrite list_lookup_inserts by (cbn [length u32_bytes]; lia).
  - replace (off - off)%nat with 0%nat by lia. reflexivity.
  - replace (off + 1 - off)%nat with 1%nat by lia. reflexivity.
  - replace (off + 2 - off)%nat with 2%nat by lia. reflexivity.
  - replace (off + 3 - off)%nat with 3%nat by lia. reflexivity.
Qed.

Lemma u32_at_app (P R : list byte) (v : Z) (off : nat) :
  off = length P -> u32_at (P ++ u32_bytes v ++ R) off = v mod 2^32.
Proof.
  intros ->. unfold u32_at.
  rewrite <- (Nat.add_0_r (length P)) at 1.
  rewrite !app_nth2_plus.
  cbn [u32_bytes app nth]. apply le32_u32_bytes.
Qed.

Lemma Ok_inj {A : Type} (a b : A) : Ok a = Ok b -> a = b.
Proof. intros [= ->]. reflexivity. Qed.

Lemma filter_map_comm {A B : Type} (p : B -> bool) (f : A -> B) (l : list A) :
  List.filter p (map f l) = map f (List.filter (fun x => p (f x)) l).
Proof.
  induction l as [|x l IH]; cbn; [reflexivity|].
  destruct (p (f x)); cbn; rewrite IH; reflexivity.
Qed.

Lemma filter_all_true {A : Type} (p : A -> bool) (l : list A) :
  (forall x, In x l -> p x = true) -> List.filter p l = l.
Proof.
  induction l as [|x l IH]; intros H; cbn; [reflexivity|].
  rewrite (H x) by (left; reflexivity).
  f_equal. apply IH. intros y Hy. apply H. right. exact Hy.
Qed.

Lemma length_mjoin_512 (ls : list (list byte)) :
  Forall (fun l => length l = 512%nat) ls ->
  length (mjoin ls) = (length ls * 512)%nat.
Proof.
  intros Hall. rewrite length_join, (sum_list_fmap_same 512) by exact Hall.
  reflexivity.
Qed.

Lemma lookup_mjoin_512 (ls : list (list byte)) k l (o : nat) :
  Forall (fun l => length l = 512%nat) ls ->
  ls !! k = Some l -> (o < 512)%nat ->
  mjoin ls !! (512 * k + o)%nat = l !! o.
Proof.
  intros Hall Hk Ho.
  assert (Hl : length l = 512%nat).
  { rewrite List.Forall_forall in Hall. apply Hall.
    apply list_elem_of_In. eapply list_elem_of_lookup_2. exact Hk. }
  destruct (lookup_lt_is_Some_2 l o ltac:(lia)) as [x Hx].
  rewrite Hx. replace (512 * k + o)%nat with (k * 512 + o)%nat by lia.
  apply join_lookup_Some_same_length'; [exact Hall|exact Ho|].
  exists l. split; assumption.
Qed.

(** ** The parser *)

Lemma parseUf2_body_spec fileBytes off blocks :
  (off + 512 <= length fileBytes)%nat ->
  parseUf2_body fileBytes off blocks =
    match block_error fileBytes off with
    | Some e => Throw e
    | None => Ok (blocks ++ [decode_block fileBytes off])
    end.
Proof.
  intros Hlen. unfold parseUf2_body, block_error.
  rewrite !getUint32_in_range by lia. cbn [mbind result_bind].
  replace (off + 512 - 4)%nat with (off + 508)%nat by lia.
  replace (off + 0)%nat with off by lia.
  change 0x0a324655 with UF2_MAGIC_START0.
  change 0x9e5d5157 with UF2_MAGIC_START1.
  change 0x0ab16f30 with UF2_MAGIC_END.
  destruct (negb (u32_at fileBytes off =? UF2_MAGIC_START0)
            || negb (u32_at fileBytes (off + 4) =? UF2_MAGIC_START1)
            || negb (u32_at fileBytes (off + 508) =? UF2_MAGIC_END)); [reflexivity|].
  destruct (476 <? u32_at fileBytes (off + 16)); [reflexivity|].
  unfold decode_block, slice.
  replace (off + 32 + Z.to_nat (u32_at fileBytes (off + 16)) - (off + 32))%nat
    with (Z.to_nat (u32_at fileBytes (off + 16))) by lia.
  reflexivity.
Qed.

Lemma parse_iter_spec fileBytes n : forall k blocks,
  (512 * (k + n) <= length fileBytes)%nat ->
  iter_steps n (512 * k) 512 (parseUf2_body fileBytes) blocks =
    match first_error fileBytes k n with
    | Some e => Throw e
    | None => Ok (blocks ++ map (fun j => decode_block fileBytes (512 * j)) (seq k n))
    end.
Proof.
  induction n as [|n IH]; intros k blocks Hlen.
  - simpl. rewrite app_nil_r. reflexivity.
  - cbn [iter_steps first_error].
    rewrite parseUf2_body_spec by lia.
    destruct (block_error fileBytes (512 * k)) as [e|]; [reflexivity|].
    cbn [mbind result_bind].
    replace (512 * k + 512)%nat with (512 * S k)%nat by lia.
    rewrite IH by lia.
    destruct (first_error fileBytes (S k) n); [reflexivity|].
    cbn [seq map]. rewrite <- app_assoc. reflexivity.
Qed.

Lemma parseUf2_spec fileBytes :
  parseUf2 fileBytes =
    if negb (length fileBytes mod 512 =? 0)%nat then Throw LengthNotMultipleOf512
    else match first_error fileBytes 0 (length fileBytes / 512) with
         | Some e => Throw e
         | None => Ok (map (fun j => decode_block fileBytes (512 * j))
                           (seq 0 (length fileBytes / 512)))
         end.
Proof.
  unfold parseUf2.
  destruct (length fileBytes mod 512 =? 0)%nat eqn:Hmod; [|reflexivity].
  cbn [negb]. apply Nat.eqb_eq in Hmod.
  pose proof (Nat.div_mod_eq (length fileBytes) 512) as Hdm.
  unfold for_loop.
  rewrite (for_lt_iter _ (length fileBytes) 512%nat ltac:(lia)
             (length fileBytes / 512)%nat) by (try (intros j Hj); lia).
  change 0%nat with (512 * 0)%nat at 2.
  rewrite parse_iter_spec by lia.
  reflexivity.
Qed.

Lemma block_error_None fileBytes off :
  block_error fileBytes off = None <->
  ~ has_bad_magic fileBytes off /\ ~ has_payload_overflow fileBytes off.
Proof.
  unfold block_error, has_bad_magic, has_payload_overflow.
  destruct (Z.eqb_spec (u32_at fileBytes off) UF2_MAGIC_START0) as [E0|E0];
  destruct (Z.eqb_spec (u32_at fileBytes (off + 4)) UF2_MAGIC_START1) as [E1|E1];
  destruct (Z.eqb_spec (u32_at fileBytes (off + 508)) UF2_MAGIC_END) as [E2|E2];
  destruct (Z.ltb_spec 476 (u32_at fileBytes (off + 16))) as [Hp|Hp];
  cbn [negb orb]; (split; [intros Hd; try discriminate | intros [Hm Ho]]);
    try reflexivity; try (exfalso; tauto); try (exfalso; lia).
  split; [tauto | lia].
Qed.

Lemma block_error_BadMagic fileBytes off off' :
  block_error fileBytes off = Some (BadMagic off') ->
  off' = off /\ has_bad_magic fileBytes off.
Proof.
  intros H. destruct (block_error fileBytes off) as [e|] eqn:E; [|discriminate].
  assert (Hn : block_error fileBytes off <> None) by congruence.
  revert E. unfold block_error.
  destruct (negb (u32_at fileBytes off =? UF2_MAGIC_START0)
            || negb (u32_at fileBytes (off + 4) =? UF2_MAGIC_START1)
            || negb (u32_at fileBytes (off + 508) =? UF2_MAGIC_END)) eqn:Hm.
  - intros E. split; [congruence|].
    unfold has_bad_magic.
    apply orb_true_iff in Hm as [Hm|Hm]; [apply orb_true_iff in Hm as [Hm|Hm]|];
      apply negb_true_iff, Z.eqb_neq in Hm; tauto.
  - destruct (476 <? _); intros E; congruence.
Qed.

Lemma block_error_kind fileBytes off e :
  block_error fileBytes off = Some e -> is_MalformedContainer e = true.
Proof.
  unfold block_error.
  destruct (_ || _); [intros [= <-]; reflexivity|].
  destruct (476 <? _); [intros [= <-]; reflexivity|discriminate].
Qed.

Lemma first_error_None fileBytes n : forall k,
  first_error fileBytes k n = None <->
  forall j, (k <= j < k + n)%nat -> block_error fileBytes (512 * j) = None.
Proof.
  induction n as [|n IH]; intros k; cbn [first_error].
  - split; [intros _ j Hj; lia | reflexivity].
  - destruct (block_error fileBytes (512 * k)) eqn:E.
    + split; [discriminate|]. intros H. rewrite (H k) in E by lia. discriminate.
    + rewrite IH. split; intros H j Hj.
      * destruct (decide (j = k)) as [->|]; [assumption|]. apply H. lia.
      * apply H. lia.
Qed.

Lemma first_error_Some fileBytes n : forall k e,
  first_error fileBytes k n = Some e ->
  exists j, (k <= j < k + n)%nat /\ block_error fileBytes (512 * j) = Some e.
Proof.
  induction n as [|n IH]; intros k e; cbn [first_error]; [discriminate|].
  destruct (block_error fileBytes (512 * k)) eqn:E.
  - intros [= <-]. exists k. split; [lia|assumption].
  - intros H. apply IH in H as (j & Hj & Hb). exists j. split; [lia|assumption].
Qed.

Lemma block_bad_or_good fileBytes off :
  (has_bad_magic fileBytes off \/ has_payload_overflow fileBytes off)
  \/ (~ has_bad_magic fileBytes off /\ ~ has_payload_overflow fileBytes off).
Proof.
  unfold has_bad_magic, has_payload_overflow.
  destruct (Z.eq_dec (u32_at fileBytes off) UF2_MAGIC_START0);
  destruct (Z.eq_dec (u32_at fileBytes (off + 4)) UF2_MAGIC_START1);
  destruct (Z.eq_dec (u32_at fileBytes (off + 508)) UF2_MAGIC_END);
  destruct (Z_lt_dec 476 (u32_at fileBytes (off + 16)));
  try (left; tauto).
  right. tauto.
Qed.

Lemma parseUf2_bad_length fileBytes :
  (length fileBytes mod 512 <> 0)%nat ->
  parseUf2 fileBytes = Throw LengthNotMultipleOf512.
Proof.
  intros Hm. rewrite parseUf2_spec. apply Nat.eqb_neq in Hm. rewrite Hm.
  reflexivity.
Qed.

Lemma parseUf2_not_malformed fileBytes :
  ~ malformed fileBytes ->
  parseUf2 fileBytes =
    Ok (map (fun k => decode_block fileBytes (512 * k))
            (seq 0 (length fileBytes / 512))).
Proof.
  intros Hwf. rewrite parseUf2_spec.
  destruct (Nat.eqb_spec (length fileBytes mod 512) 0) as [Hm|Hm];
    [|exfalso; apply Hwf; left; exact Hm].
  cbn [negb].
  destruct (first_error fileBytes 0 (length fileBytes / 512)) as [e|] eqn:E;
    [|reflexivity].
  exfalso. apply first_error_Some in E as (j & Hj & Hb).
  apply Hwf. right. exists j. split; [lia|].
  destruct (block_error_None fileBytes (512 * j)) as [_ Hn].
  destruct (block_bad_or_good fileBytes (512 * j)) as [Hbad|Hgood]; [exact Hbad|].
  rewrite Hn in Hb by exact Hgood. discriminate.
Qed.

Lemma parseUf2_Throw_inv fileBytes e :
  parseUf2 fileBytes = Throw e ->
  (length fileBytes mod 512 <> 0)%nat /\ e = LengthNotMultipleOf512
  \/ exists j : nat, (j < length fileBytes / 512)%nat
       /\ block_error fileBytes (512 * j) = Some e.
Proof.
  rewrite parseUf2_spec.
  destruct (Nat.eqb_spec (length fileBytes mod 512) 0) as [Hm|Hm]; cbn [negb].
  - destruct (first_error fileBytes 0 (length fileBytes / 512)) as [e'|] eqn:E;
      [|discriminate].
    intros [= <-]. right. apply first_error_Some in E as (j & Hj & Hb).
    exists j. split; [lia|assumption].
  - intros [= <-]. left. split; [assumption|reflexivity].
Qed.

Lemma parseUf2_malformed fileBytes :
  malformed fileBytes -> exists e, parseUf2 fileBytes = Throw e.
Proof.
  intros Hmal. rewrite parseUf2_spec.
  destruct (Nat.eqb_spec (length fileBytes mod 512) 0) as [Hm|Hm];
    cbn [negb]; [|eauto].
  destruct (first_error fileBytes 0 (length fileBytes / 512)) eqn:Ef; [eauto|].
  exfalso. destruct Hmal as [Hmal|(k & Hk & Hbad)]; [contradiction|].
  pose proof (proj1 (first_error_None _ _ _) Ef k ltac:(lia)) as Hnone.
  apply block_error_None in Hnone. tauto.
Qed.

Lemma parseUf2_Ok_not_malformed fileBytes blocks :
  parseUf2 fileBytes = Ok blocks -> ~ malformed fileBytes.
Proof.
  intros Hp Hmal. apply parseUf2_malformed in Hmal as [e He]. congruence.
Qed.

(** C9. [parseUf2] throws exactly on malformed input: a length that is not
    a multiple of 512, a 512-byte slice with a wrong leading or trailing
    magic word, or a slice whose [payloadSize] exceeds 476.  Every error is
    of the MalformedContainer family, a bad-magic error carries the offset
    of a slice that has a bad magic, and a payload error the offending
    size.  On any other input the result is the sequence of decoded blocks
    (the function is pure: it only reads its argument).  A 513-byte buffer
    fails with the length error. *)
Theorem parseUf2_fails_iff_malformed (fileBytes : list byte) :
  ((exists e, parseUf2 fileBytes = Throw e) <-> malformed fileBytes)
  /\ (forall e, parseUf2 fileBytes = Throw e -> is_MalformedContainer e = true)
  /\ ((length fileBytes mod 512 <> 0)%nat ->
      parseUf2 fileBytes = Throw LengthNotMultipleOf512)
  /\ (forall off, parseUf2 fileBytes = Throw (BadMagic off) ->
      exists k : nat, off = (512 * k)%nat /\ (k < length fileBytes / 512)%nat
                      /\ has_bad_magic fileBytes off)
  /\ (forall sz, parseUf2 fileBytes = Throw (InvalidPayloadSize sz) ->
      exists k : nat, (k < length fileBytes / 512)%nat
                      /\ sz = u32_at fileBytes (512 * k + 16) /\ 476 < sz)
  /\ (~ malformed fileBytes ->
      parseUf2 fileBytes =
        Ok (map (fun k => decode_block fileBytes (512 * k))
                (seq 0 (length fileBytes / 512))))
  /\ (length fileBytes = 513%nat ->
      parseUf2 fileBytes = Throw LengthNotMultipleOf512).
Proof.
  pose proof (parseUf2_Throw_inv fileBytes) as Herr.
  split; [split|].
  - intros [e He]. apply Herr in He as [[Hm _]|(j & Hj & Hb)]; [left; exact Hm|].
    right. exists j. split; [exact Hj|].
    destruct (block_bad_or_good fileBytes (512 * j)) as [Hbad|Hgood]; [exact Hbad|].
    apply block_error_None in Hgood. congruence.
  - apply parseUf2_malformed.
  - split; [|split; [|split; [|split; [|split]]]].
    + intros e He. apply Herr in He as [[_ ->]|(j & _ & Hb)]; [reflexivity|].
      eapply block_error_kind; eassumption.
    + apply parseUf2_bad_length.
    + intros off He. apply Herr in He as [[_ [=]]|(j & Hj & Hb)].
      apply block_error_BadMagic in Hb as [-> Hbad]. eauto.
    + intros sz He. apply Herr in He as [[_ [=]]|(j & Hj & Hb)].
      exists j. split; [exact Hj|].
      revert Hb. unfold block_error.
      destruct (_ || _); [discriminate|].
      destruct (Z.ltb_spec 476 (u32_at fileBytes (512 * j + 16))) as [Hlt|];
        [|discriminate].
      intros [= <-]. split; [reflexivity|exact Hlt].
    + apply parseUf2_not_malformed.
    + intros H513. apply parseUf2_bad_length. rewrite H513. discriminate.
Qed.

Lemma parseUf2_Ok_inv fileBytes blocks :
  parseUf2 fileBytes = Ok blocks ->
  (length fileBytes mod 512 = 0)%nat
  /\ blocks = map (fun k => decode_block fileBytes (512 * k))
                  (seq 0 (length fileBytes / 512)).
Proof.
  rewrite parseUf2_spec.
  destruct (Nat.eqb_spec (length fileBytes mod 512) 0) as [Hm|Hm];
    cbn [negb]; [|discriminate].
  destruct (first_error fileBytes 0 (length fileBytes / 512)); [discriminate|].
  intros [= <-]. split; [exact Hm|reflexivity].
Qed.

Lemma parseUf2_Ok_lookup fileBytes blocks k b :
  parseUf2 fileBytes = Ok blocks ->
  blocks !! k = Some b ->
  (k < length fileBytes / 512)%nat /\ b = decode_block fileBytes (512 * k).
Proof.
  intros Hp Hk. apply parseUf2_Ok_inv in Hp as [_ ->].
  rewrite list_lookup_fmap in Hk.
  destruct (seq 0 (length fileBytes / 512) !! k) as [j|] eqn:Ej; [|discriminate].
  apply lookup_seq in Ej as [-> Hlt]. cbn [fmap option_fmap option_map] in Hk.
  injection Hk as <-. split; [exact Hlt|]. reflexivity.
Qed.

(** C2 (as amended).  For a well-formed container [parseUf2] returns one
    block for every 512-byte slice, and in each of them [familyId] is the
    little-endian word stored at offset 28 of the slice, whether or not
    bit 13 of [flags] is set; [flags] is the word at offset 8, unchanged. *)
Theorem parseUf2_familyId_read_unconditionally (fileBytes : list byte) :
  ~ malformed fileBytes ->
  exists blocks : list Uf2Block,
    parseUf2 fileBytes = Ok blocks
    /\ length blocks = (length fileBytes / 512)%nat
    /\ forall k : nat, (k < length fileBytes / 512)%nat ->
         exists b : Uf2Block,
           blocks !! k = Some b
           /\ flags b = u32_at fileBytes (512 * k + 8)
           /\ familyId b = u32_at fileBytes (512 * k + 28).
Proof.
  intros Hwf.
  exists (map (fun k => decode_block fileBytes (512 * k))
              (seq 0 (length fileBytes / 512))).
  split; [apply parseUf2_not_malformed; exact Hwf|].
  split; [rewrite length_map, length_seq; reflexivity|].
  intros k Hk. exists (decode_block fileBytes (512 * k)).
  split; [|split; reflexivity].
  change (map ?f ?l) with (f <$> l).
  rewrite list_lookup_fmap, lookup_seq_lt by exact Hk. reflexivity.
Qed.

Lemma well_formedb_not_malformed fileBytes :
  well_formedb fileBytes = true -> ~ malformed fileBytes.
Proof.
  unfold well_formedb. intros H. apply andb_true_iff in H as [Hm Hf].
  apply (parseUf2_Ok_not_malformed fileBytes
           (map (fun j => decode_block fileBytes (512 * j))
                (seq 0 (length fileBytes / 512)))).
  rewrite parseUf2_spec, Hm. cbn [negb].
  destruct (first_error fileBytes 0 (length fileBytes / 512));
    [discriminate|reflexivity].
Qed.

Lemma parseUf2_familyId_read_unconditionally_witness :
  let block := sample_block 0 0x10000000 0 1 RP2040_FAMILY_ID in
  Z.testbit (u32_at block 8) 13 = false
  /\ exists blocks : list Uf2Block,
       parseUf2 block = Ok blocks
       /\ length blocks = (length block / 512)%nat
       /\ forall k : nat, (k < length block / 512)%nat ->
            exists b : Uf2Block,
              blocks !! k = Some b
              /\ flags b = u32_at block (512 * k + 8)
              /\ familyId b = u32_at block (512 * k + 28).
Proof.
  intros block. split; [vm_compute; reflexivity|].
  apply (parseUf2_familyId_read_unconditionally block).
  apply well_formedb_not_malformed. vm_compute. reflexivity.
Defined.

Lemma sample_block_split fl addr no num fam :
  sample_block fl addr no num fam =
    (u32_bytes UF2_MAGIC_START0 ++ u32_bytes UF2_MAGIC_START1 ++ u32_bytes fl
     ++ u32_bytes addr ++ u32_bytes 256 ++ u32_bytes no ++ u32_bytes num)
    ++ u32_bytes fam ++ (replicate 476 x00 ++ u32_bytes UF2_MAGIC_END).
Proof. unfold sample_block. rewrite <- !app_assoc. reflexivity. Qed.

Lemma sample_block_familyId_frame fl addr no num fam1 fam2 (i : nat) :
  (i < 28 \/ 32 <= i)%nat ->
  sample_block fl addr no num fam1 !! i = sample_block fl addr no num fam2 !! i.
Proof.
  intros Hi. rewrite !sample_block_split.
  set (hdr := u32_bytes UF2_MAGIC_START0 ++ _).
  set (tl := replicate 476 x00 ++ _).
  assert (Hh : length hdr = 28%nat) by reflexivity.
  clearbody hdr tl.
  destruct Hi as [Hi|Hi].
  - rewrite !lookup_app_l by lia. reflexivity.
  - rewrite !(lookup_app_r hdr) by lia.
    rewrite !(lookup_app_r (u32_bytes _)) by (cbn [length u32_bytes]; lia).
    reflexivity.
Qed.

(** C2 (as stated) fails: a well-formed block whose flag bit 13 is clear
    decodes to the [familyId] stored at offset 28, which need not be zero
    and changes with those bytes. *)
Lemma familyId_not_gated_by_flag :
  ~ familyId_zero_when_unflagged /\ ~ familyId_ignores_offset_28.
Proof.
  set (block1 := sample_block 0 0x10000000 0 1 0).
  set (block2 := sample_block 0 0x10000000 0 1 RP2040_FAMILY_ID).
  assert (H1 : parseUf2 block1 = Ok [decode_block block1 0])
    by (vm_compute; reflexivity).
  assert (H2 : parseUf2 block2 = Ok [decode_block block2 0])
    by (vm_compute; reflexivity).
  split.
  - intros Hclaim.
    specialize (Hclaim block2 (decode_block block2 0) eq_refl H2 eq_refl).
    vm_compute in Hclaim. discriminate.
  - intros Hclaim.
    specialize (Hclaim block1 block2 _ _ eq_refl eq_refl
                  (sample_block_familyId_frame _ _ _ _ _ _) H1 H2 eq_refl).
    vm_compute in Hclaim. discriminate.
Qed.

(** ** The region filter *)

Lemma inUserRange_spec addr :
  inUserRange addr = true <-> in_user_region addr.
Proof. unfold inUserRange, in_user_region. lia. Qed.

Lemma inUserRange_false addr :
  inUserRange addr = false <-> ~ in_user_region addr.
Proof. unfold inUserRange, in_user_region. lia. Qed.

Lemma survivors_filter blocks : survivors blocks (filterOutUserRegion blocks).
Proof.
  induction blocks as [|b blocks IH]; cbn; [constructor|].
  destruct (inUserRange (targetAddr b)) eqn:E; cbn.
  - apply survivors_drop; [apply inUserRange_spec; exact E|exact IH].
  - apply survivors_keep; [apply inUserRange_false; exact E|exact IH].
Qed.

Lemma survivors_functional blocks kept :
  survivors blocks kept -> kept = filterOutUserRegion blocks.
Proof.
  induction 1 as [|b blocks kept Hin _ IH|b blocks kept Hout _ IH]; cbn.
  - reflexivity.
  - apply inUserRange_spec in Hin. rewrite Hin. exact IH.
  - apply inUserRange_false in Hout. rewrite Hout. cbn. f_equal. exact IH.
Qed.

Lemma filterOutUserRegion_sublist blocks :
  sublist (filterOutUserRegion blocks) blocks.
Proof.
  induction blocks as [|b blocks IH]; cbn; [constructor|].
  destruct (negb (inUserRange (targetAddr b)));
    [apply sublist_skip | apply sublist_cons]; exact IH.
Qed.

(** C7 (as amended).  [filterOutUserRegion] keeps exactly the blocks whose
    [targetAddr] lies outside the fixed inclusive interval 0x101fc000 ..
    0x101fffff, in their original order and unchanged ([blockNo] and
    [numBlocks] included): the result is the one list related to the input
    by [survivors].  No block of the result targets the region, a block is
    in the result iff it is in the input and outside the region, and the
    empty container yields the empty container. *)
Theorem filterOutUserRegion_exact (blocks : list Uf2Block) :
  survivors blocks (filterOutUserRegion blocks)
  /\ (forall kept, survivors blocks kept -> kept = filterOutUserRegion blocks)
  /\ Forall (fun b => ~ in_user_region (targetAddr b)) (filterOutUserRegion blocks)
  /\ (forall b, In b (filterOutUserRegion blocks) <->
                In b blocks /\ ~ in_user_region (targetAddr b))
  /\ sublist (filterOutUserRegion blocks) blocks
  /\ filterOutUserRegion [] = [].
Proof.
  assert (Hin : forall b, In b (filterOutUserRegion blocks) <->
                          In b blocks /\ ~ in_user_region (targetAddr b)).
  { intros b. unfold filterOutUserRegion. rewrite filter_In.
    rewrite negb_true_iff, inUserRange_false. reflexivity. }
  split; [apply survivors_filter|].
  split; [apply survivors_functional|].
  split; [apply List.Forall_forall; intros b Hb; apply Hin in Hb; tauto|].
  split; [exact Hin|].
  split; [apply filterOutUserRegion_sublist|reflexivity].
Qed.

(** C7 (as stated) fails: the range is no parameter of the code.  For the
    range 0x10000000 .. 0x100000ff a block that targets 0x10000000 lies
    inside the range, and [filterOutUserRegion] keeps it. *)
Lemma filterOutUserRegion_range_is_fixed : ~ filter_by_any_range.
Proof.
  intros Hclaim.
  set (b := decode_block (sample_block 0x2000 0x10000000 0 1 RP2040_FAMILY_ID) 0).
  assert (Haddr : targetAddr b = 0x10000000) by (vm_compute; reflexivity).
  assert (Hin : In b (filterOutUserRegion [b])).
  { unfold filterOutUserRegion. cbn [List.filter]. rewrite Haddr.
    left. reflexivity. }
  apply (Hclaim [b] 0x10000000 0x100000ff b) in Hin as [_ Hout]; [|lia].
  apply Hout. rewrite Haddr. lia.
Qed.

(** ** Writing into a zero-filled buffer *)

Lemma list_inserts_fresh (P k : list byte) (g r : nat) :
  list_inserts (length P + g) k (P ++ replicate (g + length k + r) x00)
  = (P ++ replicate g x00 ++ k) ++ replicate r x00.
Proof.
  rewrite !replicate_add.
  rewrite <- !app_assoc, (app_assoc P).
  replace (length P + g)%nat with (length (P ++ replicate g x00) + 0)%nat
    by (rewrite length_app, length_replicate; lia).
  rewrite list_inserts_app_r.
  rewrite list_inserts_0_r by (rewrite length_replicate; reflexivity).
  rewrite <- !app_assoc. reflexivity.
Qed.

Lemma set_bytes_fresh (P k : list byte) (off n g r : nat) :
  off = (length P + g)%nat -> n = (g + length k + r)%nat ->
  set_bytes (P ++ replicate n x00) k off
  = Ok ((P ++ replicate g x00 ++ k) ++ replicate r x00).
Proof.
  intros -> ->. unfold set_bytes.
  rewrite length_app, length_replicate. leb_true.
  rewrite list_inserts_fresh. reflexivity.
Qed.

Lemma setUint32_fresh (P : list byte) (v : Z) (off n g r : nat) :
  off = (length P + g)%nat -> n = (g + 4 + r)%nat ->
  setUint32 (P ++ replicate n x00) off v
  = Ok ((P ++ replicate g x00 ++ u32_bytes v) ++ replicate r x00).
Proof.
  intros -> ->. unfold setUint32.
  rewrite length_app, length_replicate. leb_true.
  f_equal. exact (list_inserts_fresh P (u32_bytes v) g r).
Qed.

Lemma js_ushr_0 a : js_ushr a 0 = a mod 2^32.
Proof. unfold js_ushr, ToUint32. rewrite Z.mod_0_l by lia. apply Z.shiftr_0_r. Qed.

Lemma div_mod_256 q m d c :
  0 < d -> ((q * (c * 256 * d) + m) / d) mod 256 = (m / d) mod 256.
Proof.
  intros Hd.
  replace (q * (c * 256 * d) + m) with (q * c * 256 * d + m) by ring.
  rewrite Z.div_add_l by lia.
  replace (q * c * 256 + m / d) with (m / d + (q * c) * 256) by ring.
  apply Z_mod_plus_full.
Qed.

Lemma u32_bytes_mod v : u32_bytes (v mod 2^32) = u32_bytes v.
Proof.
  assert (Hb : forall x y, x mod 256 = y mod 256 -> byte_of_Z x = byte_of_Z y).
  { intros x y H. unfold byte_of_Z. rewrite H. reflexivity. }
  unfold u32_bytes.
  pose proof (Z.div_mod v (2^32) ltac:(lia)) as Hv.
  set (q := v / 2^32) in *. set (m := v mod 2^32) in *.
  assert (E : forall d c, 0 < d -> c * 256 * d = 2^32 ->
                          (m / d) mod 256 = (v / d) mod 256).
  { intros d c Hd Hc. rewrite Hv at 1. rewrite <- Hc, (Z.mul_comm _ q).
    symmetry. apply div_mod_256. exact Hd. }
  f_equal; [|f_equal; [|f_equal; [|f_equal]]]; apply Hb.
  - rewrite <- (Z.div_1_r m), <- (Z.div_1_r v).
    apply (E 1 (2^24)); [lia|reflexivity].
  - apply (E (2^8) (2^16)); [lia|reflexivity].
  - apply (E (2^16) (2^8)); [lia|reflexivity].
  - apply (E (2^24) 1); [lia|reflexivity].
Qed.

(** ** The block splitter *)

Lemma createUf2Block_spec targetAddr payload :
  length payload = 256%nat ->
  createUf2Block targetAddr payload = Ok (script_block_bytes targetAddr payload).
Proof.
  intros Hlen. unfold createUf2Block.
  rewrite Hlen. cbn [Nat.eqb negb].
  change (replicate 512 x00) with ([] ++ replicate 512 x00).
  rewrite (setUint32_fresh [] _ 0 512 0 508) by reflexivity.
  cbn [mbind result_bind].
  rewrite (setUint32_fresh _ _ 4 508 0 504) by reflexivity.
  cbn [mbind result_bind].
  rewrite (setUint32_fresh _ _ 8 504 0 500) by reflexivity.
  cbn [mbind result_bind].
  rewrite (setUint32_fresh _ _ 12 500 0 496) by reflexivity.
  cbn [mbind result_bind].
  rewrite (setUint32_fresh _ _ 16 496 0 492) by reflexivity.
  cbn [mbind result_bind].
  rewrite (setUint32_fresh _ _ 28 492 8 480) by reflexivity.
  cbn [mbind result_bind].
  rewrite (set_bytes_fresh _ payload 32 480 0 224)
    by (rewrite ?Hlen; reflexivity).
  cbn [mbind result_bind].
  rewrite (setUint32_fresh _ _ (512 - 4) 224 220 0)
    by (rewrite ?length_app, ?Hlen; reflexivity).
  f_equal. unfold script_block_bytes.
  rewrite js_ushr_0, u32_bytes_mod.
  cbn [replicate app]. rewrite <- !app_assoc, app_nil_r. reflexivity.
Qed.

Lemma length_script_block_bytes targetAddr payload :
  length payload = 256%nat ->
  length (script_block_bytes targetAddr payload) = 512%nat.
Proof.
  intros Hlen. unfold script_block_bytes.
  rewrite !length_app, Hlen, !length_replicate. reflexivity.
Qed.

Ltac header_field :=
  unfold script_block_bytes, u32_at, u32_bytes;
  cbn [app nth Nat.add replicate]; rewrite ?le32_u32_bytes.

Lemma script_block_magic0 a p : u32_at (script_block_bytes a p) 0 = UF2_MAGIC_START0.
Proof. header_field. reflexivity. Qed.

Lemma script_block_magic1 a p : u32_at (script_block_bytes a p) 4 = UF2_MAGIC_START1.
Proof. header_field. reflexivity. Qed.

Lemma script_block_flags a p :
  u32_at (script_block_bytes a p) 8 = UF2_FLAG_FAMILY_ID_PRESENT.
Proof. header_field. reflexivity. Qed.

Lemma script_block_targetAddr a p :
  u32_at (script_block_bytes a p) 12 = a mod 2^32.
Proof. header_field. apply Z.mod_mod. lia. Qed.

Lemma script_block_payloadSize a p : u32_at (script_block_bytes a p) 16 = 256.
Proof. header_field. reflexivity. Qed.

Lemma script_block_blockNo a p : u32_at (script_block_bytes a p) 20 = 0.
Proof. header_field. reflexivity. Qed.

Lemma script_block_numBlocks a p : u32_at (script_block_bytes a p) 24 = 0.
Proof. header_field. reflexivity. Qed.

Lemma script_block_familyId a p :
  u32_at (script_block_bytes a p) 28 = RP2040_FAMILY_ID.
Proof. header_field. reflexivity. Qed.

Lemma script_block_magicEnd a p :
  length p = 256%nat -> u32_at (script_block_bytes a p) 508 = UF2_MAGIC_END.
Proof.
  intros Hlen. unfold script_block_bytes.
  rewrite <- (app_nil_r (u32_bytes UF2_MAGIC_END)).
  rewrite !(app_assoc _ _ (_ ++ _)).
  rewrite <- !app_assoc.
  repeat rewrite (app_assoc _ _ (u32_bytes UF2_MAGIC_END ++ [])).
  rewrite u32_at_app; [reflexivity|].
  rewrite !length_app, Hlen, length_replicate. reflexivity.
Qed.

Lemma script_block_payload a p :
  length p = 256%nat -> take 256 (drop 32 (script_block_bytes a p)) = p.
Proof.
  intros Hlen. unfold script_block_bytes, u32_bytes.
  cbn [app drop replicate]. apply take_app_length'. symmetry. exact Hlen.
Qed.

Lemma split_body_spec image i acc :
  ((i + 1) * 256 <= length image)%nat ->
  makeUserScriptUf2Blocks_body image i acc = Ok (acc ++ [script_block image i]).
Proof.
  intros Hlen. unfold makeUserScriptUf2Blocks_body. cbv zeta.
  rewrite createUf2Block_spec by (apply length_slice; lia).
  reflexivity.
Qed.

Lemma split_iter_spec image n : forall i acc,
  ((i + n) * 256 <= length image)%nat ->
  iter_steps n i 1 (makeUserScriptUf2Blocks_body image) acc
  = Ok (acc ++ map (script_block image) (seq i n)).
Proof.
  induction n as [|n IH]; intros i acc Hlen.
  - cbn. rewrite app_nil_r. reflexivity.
  - cbn [iter_steps]. rewrite split_body_spec by lia.
    cbn [mbind result_bind].
    rewrite IH by lia. cbn [seq map]. rewrite <- app_assoc.
    replace (i + 1)%nat with (S i) by lia. reflexivity.
Qed.

Lemma makeUserScriptUf2Blocks_spec image :
  makeUserScriptUf2Blocks image =
    if (length image =? USER_FLASH_SIZE)%nat
    then Ok (map (script_block image) (seq 0 64))
    else Throw Expected16KB.
Proof.
  unfold makeUserScriptUf2Blocks.
  destruct (Nat.eqb_spec (length image) USER_FLASH_SIZE) as [Hlen|Hlen];
    cbn [negb]; [|reflexivity].
  change (USER_FLASH_SIZE / USER_BLOCK_SIZE)%nat with 64%nat.
  unfold for_loop.
  rewrite (for_lt_iter _ 64%nat 1%nat ltac:(lia) 64%nat)
    by (try (intros j Hj); lia).
  rewrite split_iter_spec; [reflexivity|].
  rewrite Hlen. unfold USER_FLASH_SIZE. lia.
Qed.

Lemma parseUf2_single block :
  length block = 512%nat ->
  block_error block 0 = None ->
  parseUf2 block = Ok [decode_block block 0].
Proof.
  intros Hlen Herr. rewrite parseUf2_spec, Hlen.
  change (512 mod 512 =? 0)%nat with true.
  change (512 / 512)%nat with 1%nat.
  cbn [negb first_error seq map].
  change (512 * 0)%nat with 0%nat. rewrite Herr. reflexivity.
Qed.

Lemma script_block_no_error a p :
  length p = 256%nat -> block_error (script_block_bytes a p) 0 = None.
Proof.
  intros Hlen. unfold block_error. cbn [Nat.add].
  rewrite script_block_magic0, script_block_magic1,
    (script_block_magicEnd a p Hlen), script_block_payloadSize.
  reflexivity.
Qed.

(** C6.  On a 16384-byte image [makeUserScriptUf2Blocks] returns exactly 64
    blocks.  The [i]-th one is a well-formed 512-byte UF2 block that
    decodes to [targetAddr = USER_FLASH_START + i * 256],
    [payloadSize = 256], flag bit 13 set, [familyId = 0xe48bff56], payload
    the [i]-th 256-byte slice of the image, and [blockNo = numBlocks = 0]. *)
Theorem makeUserScriptUf2Blocks_blocks (image : list byte) :
  length image = USER_FLASH_SIZE ->
  exists blocks : list (list byte),
    makeUserScriptUf2Blocks image = Ok blocks
    /\ length blocks = 64%nat
    /\ forall (i : nat) (block : list byte),
         blocks !! i = Some block ->
         length block = 512%nat
         /\ parseUf2 block = Ok [decode_block block 0]
         /\ targetAddr (decode_block block 0) = 0x101fc000 + Z.of_nat i * 256
         /\ payloadSize (decode_block block 0) = 256
         /\ Z.testbit (flags (decode_block block 0)) 13 = true
         /\ familyId (decode_block block 0) = 0xe48bff56
         /\ payload (decode_block block 0) = slice image (i * 256) (i * 256 + 256)
         /\ blockNo (decode_block block 0) = 0
         /\ numBlocks (decode_block block 0) = 0.
Proof.
  intros Hlen. eexists. split; [|split].
  - rewrite makeUserScriptUf2Blocks_spec, Hlen. reflexivity.
  - rewrite length_map, length_seq. reflexivity.
  - intros i block Hi.
    rewrite list_lookup_fmap in Hi.
    destruct (seq 0 64 !! i) as [j|] eqn:Ej; [|discriminate].
    apply lookup_seq in Ej as [-> Hlt].
    cbn [fmap option_fmap option_map Nat.add] in Hi. injection Hi as <-.
    unfold script_block.
    set (a := USER_FLASH_START + Z.of_nat i * 256).
    set (p := slice image (i * 256) (i * 256 + 256)).
    assert (Hp : length p = 256%nat)
      by (apply length_slice; unfold USER_FLASH_SIZE in Hlen; lia).
    split; [apply length_script_block_bytes; exact Hp|].
    split; [apply parseUf2_single;
            [apply length_script_block_bytes; exact Hp
            |apply script_block_no_error; exact Hp]|].
    unfold decode_block.
    cbn [targetAddr payloadSize flags familyId payload blockNo numBlocks Nat.add].
    rewrite script_block_targetAddr, script_block_payloadSize, script_block_flags,
      script_block_familyId, script_block_blockNo, script_block_numBlocks.
    change (Z.to_nat 256) with 256%nat.
    rewrite (script_block_payload a p Hp).
    repeat split; try reflexivity.
    subst a. unfold USER_FLASH_START. apply Z.mod_small. lia.
Qed.

Lemma makeUserScriptUf2Blocks_blocks_witness :
  length (replicate USER_FLASH_SIZE xff) = USER_FLASH_SIZE
  /\ exists blocks : list (list byte),
       makeUserScriptUf2Blocks (replicate USER_FLASH_SIZE xff) = Ok blocks
       /\ length blocks = 64%nat.
Proof.
  split; [reflexivity|].
  destruct (makeUserScriptUf2Blocks_blocks (replicate USER_FLASH_SIZE xff) eq_refl)
    as (blocks & Hm & Hl & _).
  exists blocks. split; assumption.
Defined.

(** C4 (as stated) fails: an image whose length is a multiple of 256 but
    not 16384 is rejected. *)
Lemma makeUserScriptUf2Blocks_rejects_256 :
  (length (replicate 256 xff) mod 256 = 0)%nat
  /\ makeUserScriptUf2Blocks (replicate 256 xff) = Throw Expected16KB.
Proof. split; vm_compute; reflexivity. Qed.

(** C4 (as amended).  [makeUserScriptUf2Blocks] fails, with the
    "expected 16KB image" error and no other, if and only if the image is
    not exactly 16384 bytes long; on every 16384-byte image it succeeds. *)
Theorem makeUserScriptUf2Blocks_fails_iff (image : list byte) :
  (makeUserScriptUf2Blocks image = Throw Expected16KB
     <-> length image <> USER_FLASH_SIZE)
  /\ (forall e, makeUserScriptUf2Blocks image = Throw e -> e = Expected16KB)
  /\ ((exists blocks, makeUserScriptUf2Blocks image = Ok blocks)
     <-> length image = USER_FLASH_SIZE).
Proof.
  rewrite makeUserScriptUf2Blocks_spec.
  destruct (Nat.eqb_spec (length image) USER_FLASH_SIZE) as [Hlen|Hlen].
  - split; [split; [discriminate|contradiction]|].
    split; [discriminate|]. split; [intros _; exact Hlen|eauto].
  - split; [split; [intros _; exact Hlen|reflexivity]|].
    split; [intros e [= <-]; reflexivity|].
    split; [intros [blocks [=]]|contradiction].
Qed.

(** ** Renumbering and serialisation *)

Lemma length_renumber i total block :
  length (renumber i total block) = length block.
Proof. unfold renumber. rewrite !length_inserts. reflexivity. Qed.

Lemma renumber_frame i total block (o : nat) :
  (o < 20 \/ 28 <= o)%nat -> renumber i total block !! o = block !! o.
Proof.
  intros Ho. unfold renumber. destruct Ho as [Ho|Ho].
  - rewrite !list_lookup_inserts_lt by lia. reflexivity.
  - rewrite !list_lookup_inserts_ge by (cbn [length u32_bytes]; lia).
    reflexivity.
Qed.

Lemma renumber_blockNo i total block :
  (28 <= length block)%nat ->
  u32_at (renumber i total block) 20 = Z.of_nat i mod 2^32.
Proof.
  intros Hlen. unfold renumber.
  rewrite <- (u32_at_inserts block 20 (Z.of_nat i)) by lia.
  apply u32_at_ext. intros j Hj.
  apply list_lookup_inserts_lt. lia.
Qed.

Lemma renumber_numBlocks i total block :
  (28 <= length block)%nat ->
  u32_at (renumber i total block) 24 = Z.of_nat total mod 2^32.
Proof.
  intros Hlen. unfold renumber.
  apply u32_at_inserts. rewrite length_inserts. lia.
Qed.

Lemma serialize_body_spec blocks total i block P r :
  blocks !! i = Some block ->
  length block = 512%nat ->
  length P = (i * 512)%nat ->
  serializeAndRenumber_body blocks total i (P ++ replicate (512 + r) x00)
  = Ok ((P ++ renumber i total block) ++ replicate r x00).
Proof.
  intros Hi Hlen HP. unfold serializeAndRenumber_body. rewrite Hi.
  rewrite setUint32_ok by lia. cbn [mbind result_bind].
  rewrite setUint32_ok by (rewrite length_inserts; lia).
  cbn [mbind result_bind].
  fold (renumber i total block).
  rewrite (set_bytes_fresh P _ (i * 512) (512 + r) 0 r)
    by (rewrite ?length_renumber, ?Hlen; lia).
  reflexivity.
Qed.

Lemma serialize_iter_spec total rest : forall done P,
  Forall (fun block => length block = 512%nat) rest ->
  length P = (length done * 512)%nat ->
  iter_steps (length rest) (length done) 1
    (serializeAndRenumber_body (done ++ rest) total)
    (P ++ replicate (length rest * 512) x00)
  = Ok (P ++ mjoin (imap (fun j block => renumber (length done + j) total block) rest)).
Proof.
  induction rest as [|block rest IH]; intros done P Hall HP.
  - cbn. rewrite !app_nil_r. reflexivity.
  - apply Forall_cons in Hall as [Hb Hall].
    cbn [length iter_steps].
    replace (S (length rest) * 512)%nat with (512 + length rest * 512)%nat by lia.
    rewrite (serialize_body_spec _ _ _ block) by
      (try apply list_lookup_middle; auto).
    cbn [mbind result_bind].
    rewrite (cons_middle block done rest), app_assoc.
    replace (length done + 1)%nat with (length (done ++ [block]))
      by (rewrite length_app; reflexivity).
    rewrite IH; [|exact Hall|].
    + rewrite imap_cons. cbn [mjoin list_join]. rewrite <- app_assoc.
      rewrite Nat.add_0_r. do 4 f_equal.
      apply imap_ext. intros j x _. unfold compose.
      rewrite length_app. cbn [length].
      replace (length done + 1 + j)%nat with (length done + S j)%nat by lia.
      reflexivity.
    + rewrite !length_app, length_renumber, Hb, HP. cbn [length]. lia.
Qed.

Lemma serializeAndRenumber_spec blocks :
  Forall (fun block => length block = 512%nat) blocks ->
  serializeAndRenumber blocks = Ok (mjoin (renumber_all blocks)).
Proof.
  intros Hall. unfold serializeAndRenumber, for_loop.
  rewrite (for_lt_iter _ (length blocks) 1%nat ltac:(lia) (length blocks))
    by (try (intros j Hj); lia).
  pose proof (serialize_iter_spec (length blocks) blocks [] [] Hall eq_refl) as H.
  cbn [app length] in H. rewrite H. reflexivity.
Qed.

Lemma Forall_renumber_all blocks :
  Forall (fun block => length block = 512%nat) blocks ->
  Forall (fun block => length block = 512%nat) (renumber_all blocks).
Proof.
  intros Hall. apply Forall_lookup_2. intros k x Hk.
  unfold renumber_all in Hk. rewrite list_lookup_imap in Hk.
  destruct (blocks !! k) as [b|] eqn:Eb; [|discriminate].
  cbn [fmap option_fmap option_map] in Hk. injection Hk as <-.
  rewrite length_renumber.
  eapply (Forall_lookup_1 _ _ _ _ Hall). exact Eb.
Qed.

Lemma serialized_block_lookup blocks k block (o : nat) :
  Forall (fun block => length block = 512%nat) blocks ->
  blocks !! k = Some block -> (o < 512)%nat ->
  mjoin (renumber_all blocks) !! (512 * k + o)%nat
  = renumber k (length blocks) block !! o.
Proof.
  intros Hall Hk Ho.
  apply lookup_mjoin_512; [apply Forall_renumber_all; exact Hall| |exact Ho].
  unfold renumber_all. rewrite list_lookup_imap, Hk. reflexivity.
Qed.

(** C5 (as stated) fails: merging two empty block lists does not fail; it
    returns the empty byte buffer. *)
Lemma serializeAndRenumber_empty_succeeds :
  serializeAndRenumber ([] ++ []) = Ok [].
Proof. reflexivity. Qed.

(** C5 (as amended).  Merging lists of 512-byte blocks never fails,
    whether or not the result is empty: it returns a buffer of 512 bytes
    per block, which is empty when both lists are. *)
Theorem serializeAndRenumber_never_fails (baseBlocks scriptBlocks : list (list byte)) :
  Forall (fun block => length block = 512%nat) (baseBlocks ++ scriptBlocks) ->
  exists out : list byte,
    serializeAndRenumber (baseBlocks ++ scriptBlocks) = Ok out
    /\ length out = ((length baseBlocks + length scriptBlocks) * 512)%nat
    /\ (baseBlocks = [] -> scriptBlocks = [] -> out = []).
Proof.
  intros Hall. eexists. split; [apply serializeAndRenumber_spec; exact Hall|].
  split.
  - rewrite length_mjoin_512 by (apply Forall_renumber_all; exact Hall).
    unfold renumber_all. rewrite length_imap, length_app. reflexivity.
  - intros -> ->. reflexivity.
Qed.

Lemma serializeAndRenumber_never_fails_witness :
  exists out : list byte,
    serializeAndRenumber ([] ++ []) = Ok out
    /\ length out = ((length (@nil (list byte)) + length (@nil (list byte))) * 512)%nat
    /\ (@nil (list byte) = [] -> @nil (list byte) = [] -> out = []).
Proof.
  apply (serializeAndRenumber_never_fails [] []). constructor.
Defined.

Lemma serialized_u32_at blocks i block (o : nat) :
  Forall (fun block => length block = 512%nat) blocks ->
  blocks !! i = Some block -> (o + 4 <= 512)%nat ->
  u32_at (mjoin (renumber_all blocks)) (512 * i + o)
  = u32_at (renumber i (length blocks) block) o.
Proof.
  intros Hall Hb Ho. apply u32_at_ext. intros j Hj.
  rewrite <- Nat.add_assoc.
  apply serialized_block_lookup; [exact Hall|exact Hb|lia].
Qed.

Lemma serialized_numbering blocks i :
  Forall (fun block => length block = 512%nat) blocks ->
  Z.of_nat (length blocks) < 2^32 ->
  (i < length blocks)%nat ->
  u32_at (mjoin (renumber_all blocks)) (512 * i + 20) = Z.of_nat i
  /\ u32_at (mjoin (renumber_all blocks)) (512 * i + 24)
     = Z.of_nat (length blocks).
Proof.
  intros Hall Hn Hi.
  destruct (lookup_lt_is_Some_2 blocks i Hi) as [block Hb].
  assert (Hlen : length block = 512%nat)
    by (eapply (Forall_lookup_1 _ _ _ _ Hall); exact Hb).
  rewrite !(serialized_u32_at blocks i block) by (auto; lia).
  rewrite renumber_blockNo, renumber_numBlocks by lia.
  rewrite !Z.mod_small by lia. split; reflexivity.
Qed.

Lemma length_serialized blocks :
  Forall (fun block => length block = 512%nat) blocks ->
  length (mjoin (renumber_all blocks)) = (length blocks * 512)%nat.
Proof.
  intros Hall.
  rewrite length_mjoin_512 by (apply Forall_renumber_all; exact Hall).
  unfold renumber_all. rewrite length_imap. reflexivity.
Qed.

(** C8.  After merging block lists of [n] 512-byte blocks in total, the
    [i]-th 512-byte block of the result carries [blockNo = i] and
    [numBlocks = n], for every [i < n]. *)
Theorem serializeAndRenumber_numbering (baseBlocks scriptBlocks : list (list byte)) :
  Forall (fun block => length block = 512%nat) (baseBlocks ++ scriptBlocks) ->
  Z.of_nat (length (baseBlocks ++ scriptBlocks)) < 2^32 ->
  exists out : list byte,
    serializeAndRenumber (baseBlocks ++ scriptBlocks) = Ok out
    /\ length out = (length (baseBlocks ++ scriptBlocks) * 512)%nat
    /\ forall i : nat, (i < length (baseBlocks ++ scriptBlocks))%nat ->
         u32_at out (512 * i + 20) = Z.of_nat i
         /\ u32_at out (512 * i + 24) = Z.of_nat (length (baseBlocks ++ scriptBlocks)).
Proof.
  intros Hall Hn. eexists. split; [apply serializeAndRenumber_spec; exact Hall|].
  split; [apply length_serialized; exact Hall|].
  intros i Hi. apply serialized_numbering; assumption.
Qed.

Lemma serializeAndRenumber_numbering_witness :
  exists out : list byte,
    serializeAndRenumber ([replicate 512 x00] ++ [replicate 512 xff]) = Ok out
    /\ length out = (2 * 512)%nat
    /\ forall i : nat, (i < 2)%nat ->
         u32_at out (512 * i + 20) = Z.of_nat i
         /\ u32_at out (512 * i + 24) = Z.of_nat 2.
Proof.
  apply (serializeAndRenumber_numbering [replicate 512 x00] [replicate 512 xff]).
  - repeat constructor.
  - reflexivity.
Defined.

(** ** The image builder *)

Lemma buildUserFlashImage_spec scriptUtf8 name versionWord :
  (length scriptUtf8 <= MAX_SCRIPT_LEN)%nat ->
  let nameBytes := TextEncoder_encode name in
  let n := Nat.min (length nameBytes) 31 in
  let statusWord :=
    js_or (js_or 0x0a (js_shl (js_and versionWord 0x0fff) 4))
          (js_shl (js_and (Z.of_nat (length scriptUtf8)) 0xffff) 16) in
  buildUserFlashImage scriptUtf8 name versionWord =
    Ok (list_inserts 36 scriptUtf8
          (<[(4 + n)%nat := x00]>
             (list_inserts 4 (take n nameBytes)
                (list_inserts 0 (u32_bytes (js_ushr statusWord 0))
                   (replicate USER_FLASH_SIZE xff))))).
Proof.
  intros Hlen nameBytes n statusWord. unfold buildUserFlashImage.
  rewrite (proj2 (Nat.ltb_ge _ _)) by exact Hlen.
  fold nameBytes. fold n. fold statusWord.
  unfold MAX_SCRIPT_LEN, USER_FLASH_SIZE in Hlen.
  rewrite setUint32_ok by (rewrite length_replicate; unfold USER_FLASH_SIZE; lia).
  cbn [mbind result_bind].
  unfold slice. rewrite Nat.sub_0_r. cbn [drop].
  rewrite set_bytes_ok
    by (rewrite length_inserts, length_replicate, length_take;
        unfold USER_FLASH_SIZE; lia).
  cbn [mbind result_bind].
  rewrite set_bytes_ok
    by (rewrite length_insert, !length_inserts, length_replicate;
        unfold USER_FLASH_SIZE; lia).
  reflexivity.
Qed.

Lemma buildUserFlashImage_succeeds scriptUtf8 name versionWord :
  (length scriptUtf8 <= MAX_SCRIPT_LEN)%nat ->
  exists image, buildUserFlashImage scriptUtf8 name versionWord = Ok image.
Proof.
  intros Hlen. eexists. apply buildUserFlashImage_spec. exact Hlen.
Qed.

(** C3 (as amended).  For a script that fits, [buildUserFlashImage] writes
    at offset 4 the first [n = min(len, 31)] bytes of the UTF-8 encoding
    of the name, a NUL byte at offset [4 + n], and leaves the rest of the
    32-byte field at 0xFF.  The cut is a plain byte cut; it keeps the whole
    encoding when that has at most 31 bytes. *)
Theorem buildUserFlashImage_name_field
    (scriptUtf8 : list byte) (name : jsstring) (versionWord : Z) :
  (length scriptUtf8 <= MAX_SCRIPT_LEN)%nat ->
  exists image : list byte,
    buildUserFlashImage scriptUtf8 name versionWord = Ok image
    /\ length image = USER_FLASH_SIZE
    /\ slice image 4 (4 + Nat.min (length (TextEncoder_encode name)) 31)
       = take 31 (TextEncoder_encode name)
    /\ image !! (4 + Nat.min (length (TextEncoder_encode name)) 31)%nat = Some x00
    /\ (forall j : nat,
          (4 + Nat.min (length (TextEncoder_encode name)) 31 < j < 36)%nat ->
          image !! j = Some xff)
    /\ ((length (TextEncoder_encode name) <= 31)%nat ->
        slice image 4 (4 + length (TextEncoder_encode name))
        = TextEncoder_encode name).
Proof.
  intros Hlen. eexists. split; [apply buildUserFlashImage_spec; exact Hlen|].
  set (nameBytes := TextEncoder_encode name).
  set (n := Nat.min (length nameBytes) 31).
  set (base := list_inserts 0 _ (replicate USER_FLASH_SIZE xff)).
  assert (Hbase : length base = USER_FLASH_SIZE)
    by (unfold base; rewrite length_inserts, length_replicate; reflexivity).
  assert (Htake : length (take n nameBytes) = n)
    by (rewrite length_take; unfold n; lia).
  assert (Hslice : slice
            (list_inserts 36 scriptUtf8
               (<[(4 + n)%nat := x00]> (list_inserts 4 (take n nameBytes) base)))
            4 (4 + n) = take n nameBytes).
  { unfold slice. replace (4 + n - 4)%nat with n by lia.
    apply list_eq. intros j.
    destruct (decide (j < n)%nat) as [Hj|Hj].
    - rewrite lookup_take_lt, lookup_drop by exact Hj.
      rewrite list_lookup_inserts_lt by (unfold n; lia).
      rewrite list_lookup_insert_ne by lia.
      rewrite list_lookup_inserts
        by (rewrite ?Htake, ?Hbase; unfold USER_FLASH_SIZE; lia).
      f_equal. lia.
    - rewrite lookup_take_ge by lia.
      symmetry. apply lookup_ge_None. rewrite Htake. lia. }
  unfold USER_FLASH_SIZE in Hbase.
  split; [rewrite length_inserts, length_insert, length_inserts; exact Hbase|].
  split.
  { rewrite Hslice. unfold n.
    destruct (Nat.min_spec (length nameBytes) 31) as [[Hlt ->]|[Hge ->]];
      [|reflexivity].
    rewrite !take_ge by lia. reflexivity. }
  split.
  { rewrite list_lookup_inserts_lt by (unfold n; lia).
    apply list_lookup_insert_eq. rewrite length_inserts, Hbase. unfold n. lia. }
  split.
  { intros j Hj.
    rewrite list_lookup_inserts_lt by lia.
    rewrite list_lookup_insert_ne by lia.
    rewrite list_lookup_inserts_ge by (rewrite Htake; lia).
    unfold base.
    rewrite list_lookup_inserts_ge by (cbn [length u32_bytes]; lia).
    apply lookup_replicate_2. unfold USER_FLASH_SIZE. lia. }
  intros Hfit.
  assert (Hn : n = length nameBytes) by (unfold n; lia).
  rewrite <- Hn, Hslice, Hn. apply take_ge. lia.
Qed.

Lemma buildUserFlashImage_name_field_witness :
  exists image : list byte,
    buildUserFlashImage [] name_30a_eacute DEFAULT_VERSION_WORD = Ok image
    /\ length image = USER_FLASH_SIZE
    /\ slice image 4 (4 + Nat.min (length (TextEncoder_encode name_30a_eacute)) 31)
       = take 31 (TextEncoder_encode name_30a_eacute).
Proof.
  destruct (buildUserFlashImage_name_field [] name_30a_eacute DEFAULT_VERSION_WORD)
    as (image & Hb & Hl & Hs & _).
  - unfold MAX_SCRIPT_LEN, USER_FLASH_SIZE. cbn [length]. lia.
  - exists image. split; [exact Hb|]. split; [exact Hl|exact Hs].
Defined.

(** C3 (as stated) fails: for a name of thirty ASCII letters followed by
    U+00E9 the 31-byte cut falls between the two bytes of the last
    character, so the name field holds no whole-character prefix followed
    by NUL. *)
Lemma name_cut_splits_character : ~ name_cut_at_char_boundary name_30a_eacute.
Proof.
  intros Hclaim.
  set (image := result_get []
         (buildUserFlashImage [] name_30a_eacute DEFAULT_VERSION_WORD)).
  destruct (Hclaim image) as (k & Hlen & _ & Hnul);
    [vm_compute; reflexivity|].
  destruct (decide (k <= 30)%nat) as [Hk|Hk].
  - do 31 (destruct k as [|k]; [vm_compute in Hnul; discriminate|]). lia.
  - rewrite take_ge in Hlen by (vm_compute; lia).
    vm_compute in Hlen. lia.
Qed.

(** ** The whole transform *)

Lemma length_base_chunk base k :
  (512 * k + 512 <= length base)%nat -> length (base_chunk base k) = 512%nat.
Proof. intros H. unfold base_chunk. apply length_slice. exact H. Qed.

Lemma inject_body_spec base k acc :
  (512 * k + 512 <= length base)%nat ->
  injectScriptIntoBaseUf2_body base (512 * k) acc
  = Ok (acc ++ List.filter chunk_survives [base_chunk base k]).
Proof.
  intros Hlen. unfold injectScriptIntoBaseUf2_body. cbv zeta.
  fold (base_chunk base k).
  rewrite getUint32_in_range by (rewrite length_base_chunk; lia).
  cbn [mbind result_bind List.filter]. unfold chunk_survives.
  destruct (negb (inUserRange (u32_at (base_chunk base k) 12)));
    [reflexivity|rewrite app_nil_r; reflexivity].
Qed.

Lemma inject_iter_spec base n : forall k acc,
  (512 * (k + n) <= length base)%nat ->
  iter_steps n (512 * k) 512 (injectScriptIntoBaseUf2_body base) acc
  = Ok (acc ++ List.filter chunk_survives (map (base_chunk base) (seq k n))).
Proof.
  induction n as [|n IH]; intros k acc Hlen.
  - cbn. rewrite app_nil_r. reflexivity.
  - cbn [iter_steps]. rewrite inject_body_spec by lia.
    cbn [mbind result_bind].
    replace (512 * k + 512)%nat with (512 * S k)%nat by lia.
    rewrite IH by lia. rewrite <- app_assoc.
    cbn [seq map List.filter].
    destruct (chunk_survives (base_chunk base k)); reflexivity.
Qed.

Lemma inject_loop_spec base :
  (length base mod 512 = 0)%nat ->
  for_loop 0 (length base) 512 (injectScriptIntoBaseUf2_body base) []
  = Ok (surviving_chunks base).
Proof.
  intros Hm. pose proof (Nat.div_mod_eq (length base) 512) as Hdm.
  unfold for_loop.
  rewrite (for_lt_iter _ (length base) 512%nat ltac:(lia)
             (length base / 512)%nat) by (try (intros j Hj); lia).
  change 0%nat with (512 * 0)%nat at 2.
  rewrite inject_iter_spec by lia. reflexivity.
Qed.

Lemma buildUserFlashImage_Ok_length scriptUtf8 name versionWord image :
  buildUserFlashImage scriptUtf8 name versionWord = Ok image ->
  length image = USER_FLASH_SIZE.
Proof.
  intros Hb.
  destruct (Nat.ltb_spec MAX_SCRIPT_LEN (length scriptUtf8)) as [Hlt|Hle].
  - unfold buildUserFlashImage in Hb.
    rewrite (proj2 (Nat.ltb_lt _ _) Hlt) in Hb. discriminate.
  - rewrite buildUserFlashImage_spec in Hb by exact Hle.
    apply Ok_inj in Hb. subst image.
    rewrite length_inserts, length_insert, !length_inserts.
    apply length_replicate.
Qed.

Lemma Forall_surviving_chunks base :
  (length base mod 512 = 0)%nat ->
  Forall (fun block => length block = 512%nat) (surviving_chunks base).
Proof.
  intros Hm. pose proof (Nat.div_mod_eq (length base) 512) as Hdm.
  apply List.Forall_forall. intros chunk Hin.
  unfold surviving_chunks in Hin. apply filter_In in Hin as [Hin _].
  apply in_map_iff in Hin as (k & <- & Hk). apply in_seq in Hk.
  apply length_base_chunk. lia.
Qed.

Lemma Forall_script_blocks image :
  length image = USER_FLASH_SIZE ->
  Forall (fun block => length block = 512%nat)
         (map (script_block image) (seq 0 64)).
Proof.
  intros Hlen. unfold USER_FLASH_SIZE in Hlen.
  apply List.Forall_forall. intros block Hin.
  apply in_map_iff in Hin as (i & <- & Hi). apply in_seq in Hi.
  apply length_script_block_bytes, length_slice. lia.
Qed.

Lemma injectScriptIntoBaseUf2_spec base scriptText image :
  buildUserFlashImage (TextEncoder_encode scriptText)
    (deriveScriptName scriptText) DEFAULT_VERSION_WORD = Ok image ->
  ~ malformed base ->
  injectScriptIntoBaseUf2 base scriptText
  = Ok (mjoin (renumber_all (surviving_chunks base
                             ++ map (script_block image) (seq 0 64)))).
Proof.
  intros Hb Hwf. unfold injectScriptIntoBaseUf2. cbv zeta.
  rewrite Hb. cbn [mbind result_bind].
  pose proof (buildUserFlashImage_Ok_length _ _ _ _ Hb) as Hlen.
  rewrite makeUserScriptUf2Blocks_spec, Hlen, Nat.eqb_refl.
  cbn [mbind result_bind].
  rewrite (parseUf2_not_malformed base Hwf). cbn [mbind result_bind].
  assert (Hm : (length base mod 512 = 0)%nat).
  { destruct (Nat.eq_dec (length base mod 512)%nat 0%nat) as [E|E]; [exact E|].
    exfalso. apply Hwf. left. exact E. }
  rewrite inject_loop_spec by exact Hm. cbn [mbind result_bind].
  apply serializeAndRenumber_spec. apply Forall_app. split.
  - apply Forall_surviving_chunks. exact Hm.
  - apply Forall_script_blocks. exact Hlen.
Qed.

Lemma lookup_base_chunk base k (o : nat) :
  (o < 512)%nat -> base_chunk base k !! o = base !! (512 * k + o)%nat.
Proof.
  intros Ho. unfold base_chunk, slice.
  replace (512 * k + 512 - 512 * k)%nat with 512%nat by lia.
  rewrite lookup_take_lt by exact Ho. apply lookup_drop.
Qed.

Lemma u32_at_base_chunk base k (o : nat) :
  (o + 4 <= 512)%nat ->
  u32_at (base_chunk base k) o = u32_at base (512 * k + o).
Proof.
  intros Ho. apply u32_at_ext. intros j Hj.
  rewrite lookup_base_chunk by lia. f_equal. lia.
Qed.

Lemma survivors_agree base :
  map targetAddr
      (filterOutUserRegion
         (map (fun k => decode_block base (512 * k)) (seq 0 (length base / 512))))
  = map (fun chunk => u32_at chunk 12) (surviving_chunks base).
Proof.
  unfold filterOutUserRegion, surviving_chunks.
  rewrite !filter_map_comm, !map_map.
  rewrite (List.filter_ext
             (fun k => negb (inUserRange (targetAddr (decode_block base (512 * k)))))
             (fun k => chunk_survives (base_chunk base k))).
  - apply map_ext. intros k. cbn [decode_block targetAddr].
    symmetry. apply u32_at_base_chunk. lia.
  - intros k. unfold chunk_survives. cbn [decode_block targetAddr].
    rewrite u32_at_base_chunk by lia. reflexivity.
Qed.

Lemma surviving_slices_filter chunks :
  surviving_slices chunks (List.filter chunk_survives chunks).
Proof.
  induction chunks as [|chunk chunks IH]; cbn [List.filter]; [constructor|].
  unfold chunk_survives at 1.
  destruct (inUserRange (u32_at chunk 12)) eqn:E; cbn [negb].
  - apply surviving_slices_drop; [apply inUserRange_spec; exact E|exact IH].
  - apply surviving_slices_keep; [apply inUserRange_false; exact E|exact IH].
Qed.

Lemma surviving_slices_functional chunks kept :
  surviving_slices chunks kept -> kept = List.filter chunk_survives chunks.
Proof.
  induction 1 as [|chunk chunks kept Hin _ IH|chunk chunks kept Hout _ IH];
    cbn [List.filter]; try unfold chunk_survives at 1.
  - reflexivity.
  - apply inUserRange_spec in Hin. rewrite Hin. exact IH.
  - apply inUserRange_false in Hout. rewrite Hout. cbn [negb]. f_equal. exact IH.
Qed.

Lemma surviving_slices_lookup chunks kept :
  surviving_slices chunks kept ->
  forall (k : nat) (chunk : list byte),
    chunks !! k = Some chunk -> ~ in_user_region (u32_at chunk 12) ->
    exists j : nat, (j <= k)%nat /\ kept !! j = Some chunk.
Proof.
  induction 1 as [|c chunks kept Hin _ IH|c chunks kept Hout _ IH];
    intros k chunk Hk Hc.
  - discriminate Hk.
  - destruct k as [|k]; cbn in Hk.
    + apply (inj Some) in Hk. subst c. contradiction.
    + destruct (IH k chunk Hk Hc) as (j & Hj & Hl).
      exists j. split; [lia|exact Hl].
  - destruct k as [|k]; cbn in Hk.
    + exists 0%nat. split; [lia|]. cbn. exact Hk.
    + destruct (IH k chunk Hk Hc) as (j & Hj & Hl).
      exists (S j). split; [lia|]. cbn. exact Hl.
Qed.

(** C10.  In the output of the transform every surviving base block, that
    is every raw 512-byte slice of the base image whose [targetAddr] lies
    outside the interval 0x101fc000 .. 0x101fffff, reappears byte for byte
    at every offset other than 20..27 ([blockNo] and [numBlocks]): the
    output starts with the surviving slices, in order, and so every slice
    of the base image outside the region is found in it, at a position not
    after its own.  The slices are the raw ones, selected by the same
    addresses as the parsed blocks outside the region. *)
Theorem injectScriptIntoBaseUf2_preserves_base
    (base : list byte) (scriptText : jsstring) :
  (length (TextEncoder_encode scriptText) <= MAX_SCRIPT_LEN)%nat ->
  ~ malformed base ->
  exists (out : list byte) (kept : list (list byte)) (parsed : list Uf2Block),
    injectScriptIntoBaseUf2 base scriptText = Ok out
    /\ surviving_slices
         (map (base_chunk base) (seq 0 (length base / 512))) kept
    /\ length out = ((length kept + 64) * 512)%nat
    /\ (forall (j : nat) (chunk : list byte),
          kept !! j = Some chunk ->
          forall o : nat, (o < 512)%nat -> ~ (20 <= o < 28)%nat ->
            out !! (512 * j + o)%nat = chunk !! o)
    /\ (forall k : nat, (k < length base / 512)%nat ->
          ~ in_user_region (u32_at base (512 * k + 12)) ->
          exists j : nat,
            (j <= k)%nat
            /\ forall o : nat, (o < 512)%nat -> ~ (20 <= o < 28)%nat ->
                 out !! (512 * j + o)%nat = base !! (512 * k + o)%nat)
    /\ parseUf2 base = Ok parsed
    /\ (forall keptBlocks : list Uf2Block,
          survivors parsed keptBlocks ->
          map targetAddr keptBlocks
          = map (fun chunk => u32_at chunk 12) kept).
Proof.
  intros Hfit Hwf.
  destruct (buildUserFlashImage_succeeds
              (TextEncoder_encode scriptText) (deriveScriptName scriptText)
              DEFAULT_VERSION_WORD Hfit) as (image & Hb).
  pose proof (buildUserFlashImage_Ok_length _ _ _ _ Hb) as Hlen.
  assert (Hm : (length base mod 512 = 0)%nat).
  { destruct (Nat.eq_dec (length base mod 512)%nat 0%nat) as [E|E]; [exact E|].
    exfalso. apply Hwf. left. exact E. }
  pose proof (Forall_surviving_chunks base Hm) as Hsurv.
  pose proof (Forall_script_blocks image Hlen) as Hscr.
  assert (Hall : Forall (fun block => length block = 512%nat)
                   (surviving_chunks base ++ map (script_block image) (seq 0 64)))
    by (apply Forall_app; split; assumption).
  assert (Hrel : surviving_slices
                   (map (base_chunk base) (seq 0 (length base / 512)))
                   (surviving_chunks base))
    by apply surviving_slices_filter.
  assert (Hbytes : forall (j : nat) (chunk : list byte),
            surviving_chunks base !! j = Some chunk ->
            forall o : nat, (o < 512)%nat -> ~ (20 <= o < 28)%nat ->
              mjoin (renumber_all (surviving_chunks base
                                   ++ map (script_block image) (seq 0 64)))
                !! (512 * j + o)%nat = chunk !! o).
  { intros j chunk Hj o Ho Hout.
    rewrite (serialized_block_lookup _ j chunk) by
      (try apply lookup_app_l_Some; auto).
    apply renumber_frame. lia. }
  exists (mjoin (renumber_all (surviving_chunks base
                               ++ map (script_block image) (seq 0 64)))),
         (surviving_chunks base),
         (map (fun k => decode_block base (512 * k)) (seq 0 (length base / 512))).
  split; [apply (injectScriptIntoBaseUf2_spec base scriptText image Hb Hwf)|].
  split; [exact Hrel|].
  split.
  { rewrite length_serialized by exact Hall.
    rewrite length_app, length_map, length_seq. reflexivity. }
  split; [exact Hbytes|].
  split.
  { intros k Hk Hout.
    destruct (surviving_slices_lookup _ _ Hrel k (base_chunk base k))
      as (j & Hj & Hl).
    - change (map ?f ?l) with (f <$> l).
      rewrite list_lookup_fmap, lookup_seq_lt by exact Hk. reflexivity.
    - rewrite u32_at_base_chunk by lia. exact Hout.
    - exists j. split; [exact Hj|].
      intros o Ho Ho'. rewrite (Hbytes j _ Hl o Ho Ho').
      apply lookup_base_chunk. exact Ho. }
  split; [apply parseUf2_not_malformed; exact Hwf|].
  intros keptBlocks Hkept.
  rewrite (survivors_functional _ _ Hkept). apply survivors_agree.
Qed.

Lemma injectScriptIntoBaseUf2_preserves_base_witness :
  exists (out : list byte) (kept : list (list byte)) (parsed : list Uf2Block),
    injectScriptIntoBaseUf2 small_base demo_script = Ok out
    /\ surviving_slices
         (map (base_chunk small_base) (seq 0 (length small_base / 512))) kept
    /\ length out = ((length kept + 64) * 512)%nat
    /\ (forall (j : nat) (chunk : list byte),
          kept !! j = Some chunk ->
          forall o : nat, (o < 512)%nat -> ~ (20 <= o < 28)%nat ->
            out !! (512 * j + o)%nat = chunk !! o)
    /\ (forall k : nat, (k < length small_base / 512)%nat ->
          ~ in_user_region (u32_at small_base (512 * k + 12)) ->
          exists j : nat,
            (j <= k)%nat
            /\ forall o : nat, (o < 512)%nat -> ~ (20 <= o < 28)%nat ->
                 out !! (512 * j + o)%nat = small_base !! (512 * k + o)%nat)
    /\ parseUf2 small_base = Ok parsed
    /\ (forall keptBlocks : list Uf2Block,
          survivors parsed keptBlocks ->
          map targetAddr keptBlocks
          = map (fun chunk => u32_at chunk 12) kept).
Proof.
  apply (injectScriptIntoBaseUf2_preserves_base small_base demo_script).
  - change (length (TextEncoder_encode demo_script)) with 17%nat.
    unfold MAX_SCRIPT_LEN, USER_FLASH_SIZE. lia.
  - apply well_formedb_not_malformed. vm_compute. reflexivity.
Defined.

Lemma surviving_all base :
  (forall k : nat, (k < length base / 512)%nat ->
                   ~ in_user_region (u32_at base (512 * k + 12))) ->
  surviving_chunks base = map (base_chunk base) (seq 0 (length base / 512)).
Proof.
  intros Hout. unfold surviving_chunks. apply filter_all_true.
  intros chunk Hin. apply in_map_iff in Hin as (k & <- & Hk).
  apply in_seq in Hk. unfold chunk_survives.
  rewrite u32_at_base_chunk by lia.
  apply negb_true_iff, inUserRange_false, Hout. lia.
Qed.

Lemma slice_serialized blocks k block (a n : nat) :
  Forall (fun block => length block = 512%nat) blocks ->
  blocks !! k = Some block -> (a + n <= 512)%nat ->
  slice (mjoin (renumber_all blocks)) (512 * k + a) (512 * k + a + n)
  = slice (renumber k (length blocks) block) a (a + n).
Proof.
  intros Hall Hk Han. unfold slice.
  replace (512 * k + a + n - (512 * k + a))%nat with n by lia.
  replace (a + n - a)%nat with n by lia.
  apply list_eq. intros j.
  destruct (decide (j < n)%nat) as [Hj|Hj].
  - rewrite !lookup_take_lt, !lookup_drop by exact Hj.
    rewrite <- Nat.add_assoc.
    apply serialized_block_lookup; [exact Hall|exact Hk|lia].
  - rewrite !lookup_take_ge by lia. reflexivity.
Qed.

Lemma slice_renumber_frame i total block (a n : nat) :
  (28 <= a)%nat ->
  slice (renumber i total block) a (a + n) = slice block a (a + n).
Proof.
  intros Ha. unfold slice. f_equal.
  apply list_eq. intros j. rewrite !lookup_drop.
  apply renumber_frame. lia.
Qed.

(** C1 (as amended).  For a base container of 128 well-formed blocks none
    of which targets the user region, and the script ["---demo"], line
    feed, ["print(1)"], line feed, the transform builds an image whose name
    field is "demo", NUL, then 0xFF up to the end of the 32-byte field,
    whose status word has low nibble 0xA and length field 17, and returns
    a container of 128 + 64 = 192 blocks numbered 0..191 whose last 64
    blocks carry that image. *)
Theorem demo_scenario_holds (base : list byte) :
  length base = (128 * 512)%nat ->
  ~ malformed base ->
  (forall k : nat, (k < 128)%nat -> ~ in_user_region (u32_at base (512 * k + 12))) ->
  demo_scenario 17 base.
Proof.
  intros Hlen Hwf Hout.
  set (image := result_get []
         (buildUserFlashImage (TextEncoder_encode demo_script)
            (deriveScriptName demo_script) DEFAULT_VERSION_WORD)).
  assert (Hb : buildUserFlashImage (TextEncoder_encode demo_script)
                 (deriveScriptName demo_script) DEFAULT_VERSION_WORD = Ok image)
    by (vm_compute; reflexivity).
  pose proof (buildUserFlashImage_Ok_length _ _ _ _ Hb) as Himg.
  assert (Hdiv : (length base / 512 = 128)%nat)
    by (rewrite Hlen; apply Nat.div_mul; lia).
  assert (Hm : (length base mod 512 = 0)%nat)
    by (rewrite Hlen; apply Nat.Div0.mod_mul).
  assert (Hsurv : surviving_chunks base = map (base_chunk base) (seq 0 128)).
  { rewrite <- Hdiv. apply surviving_all. rewrite Hdiv. exact Hout. }
  set (blocks := surviving_chunks base ++ map (script_block image) (seq 0 64)).
  assert (Hall : Forall (fun block => length block = 512%nat) blocks).
  { apply Forall_app. split;
      [apply Forall_surviving_chunks; exact Hm
      |apply Forall_script_blocks; exact Himg]. }
  assert (Hn : length blocks = 192%nat).
  { unfold blocks. rewrite Hsurv, length_app, !length_map, !length_seq.
    reflexivity. }
  exists image, (mjoin (renumber_all blocks)).
  split; [exact Hb|].
  split; [apply (injectScriptIntoBaseUf2_spec base demo_script image Hb Hwf)|].
  split; [vm_compute; reflexivity|].
  split; [vm_compute; reflexivity|].
  split; [vm_compute; reflexivity|].
  split; [rewrite length_serialized, Hn by exact Hall; reflexivity|].
  split.
  - intros i Hi.
    destruct (serialized_numbering blocks i Hall) as [H20 H24];
      [rewrite Hn; reflexivity|rewrite Hn; exact Hi|].
    rewrite H20, H24, Hn. split; reflexivity.
  - intros i Hi.
    assert (Hk : blocks !! (128 + i)%nat = Some (script_block image i)).
    { unfold blocks. rewrite lookup_app_r
        by (rewrite Hsurv, length_map, length_seq; lia).
      rewrite Hsurv, length_map, length_seq.
      replace (128 + i - 128)%nat with i by lia.
      rewrite list_lookup_fmap, lookup_seq_lt by exact Hi. reflexivity. }
    rewrite (slice_serialized blocks (128 + i) _ 32 256 Hall Hk) by lia.
    rewrite slice_renumber_frame by lia.
    unfold script_block, slice at 1.
    replace (32 + 256 - 32)%nat with 256%nat by lia.
    apply script_block_payload, length_slice.
    rewrite Himg. unfold USER_FLASH_SIZE. lia.
Qed.

Lemma demo_base_length : length demo_base = (128 * 512)%nat.
Proof. apply Nat.eqb_eq. vm_compute. reflexivity. Qed.

Lemma demo_base_well_formed : ~ malformed demo_base.
Proof. apply well_formedb_not_malformed. vm_compute. reflexivity. Qed.

Lemma demo_base_outside_region (k : nat) :
  (k < 128)%nat -> ~ in_user_region (u32_at demo_base (512 * k + 12)).
Proof.
  intros Hk.
  assert (Hall : forallb (fun k : nat =>
                    negb (inUserRange (u32_at demo_base (512 * k + 12))))
                   (seq 0 128) = true) by (vm_compute; reflexivity).
  rewrite forallb_forall in Hall.
  apply inUserRange_false, negb_true_iff, Hall, in_seq. lia.
Qed.

Lemma demo_scenario_holds_witness : demo_scenario 17 demo_base.
Proof.
  apply (demo_scenario_holds demo_base).
  - exact demo_base_length.
  - exact demo_base_well_formed.
  - exact demo_base_outside_region.
Defined.

(** C1 (as stated) fails on the length field: the script of the scenario
    has 17 bytes, not 18, so the status word of the image carries 17. *)
Lemma demo_scenario_length_field_not_18 :
  ~ (forall base : list byte,
       length base = (128 * 512)%nat ->
       ~ malformed base ->
       (forall k : nat, (k < 128)%nat ->
                        ~ in_user_region (u32_at base (512 * k + 12))) ->
       demo_scenario 18 base).
Proof.
  intros Hclaim.
  destruct (Hclaim demo_base demo_base_length demo_base_well_formed
              demo_base_outside_region)
    as (image & out & Hb & _ & _ & _ & Hlen & _).
  assert (Himage : image = result_get []
            (buildUserFlashImage (TextEncoder_encode demo_script)
               (deriveScriptName demo_script) DEFAULT_VERSION_WORD))
    by (rewrite Hb; reflexivity).
  subst image. clear - Hlen. vm_compute in Hlen. discriminate Hlen.
Qed.

(** * Further properties of the code *)

(** ** The image builder: errors, status word and layout *)

Lemma lor_disjoint a b n :
  0 <= n -> 0 <= a < 2^n -> Z.lor a (b * 2^n) = a + b * 2^n.
Proof.
  intros Hn Ha.
  assert (Hland : Z.land a (b * 2^n) = 0).
  { apply Z.bits_inj'. intros i Hi. rewrite Z.land_spec, Z.bits_0.
    destruct (Z.lt_ge_cases i n) as [Hlt|Hge].
    - rewrite Z.mul_pow2_bits_low by lia. apply andb_false_r.
    - destruct (Z.eq_dec a 0) as [->|Hnz]; [rewrite Z.bits_0; reflexivity|].
      rewrite (Z.bits_above_log2 a i); [reflexivity|lia|].
      apply Z.lt_le_trans with n; [|exact Hge].
      apply Z.log2_lt_pow2; lia. }
  rewrite <- Z.lxor_lor by exact Hland.
  symmetry. apply Z.add_nocarry_lxor. exact Hland.
Qed.

Lemma ToInt32_small z : 0 <= z < 2^31 -> ToInt32 z = z.
Proof.
  intros Hz. unfold ToInt32. cbv zeta.
  rewrite Z.mod_small by (change (2^32) with 4294967296;
                          change (2^31) with 2147483648 in Hz; lia).
  destruct (Z.ltb_spec z (2^31)); [reflexivity|lia].
Qed.

Lemma ToInt32_mod z m :
  0 < m -> (m | 2^32) -> ToInt32 z mod m = z mod m.
Proof.
  intros Hm Hdiv. unfold ToInt32. cbv zeta.
  assert (Hzm : (z mod 2^32) mod m = z mod m)
    by (apply Z.mod_mod_divide; exact Hdiv).
  destruct (z mod 2^32 <? 2^31); [exact Hzm|].
  destruct Hdiv as [c Hc]. rewrite <- Hzm. rewrite Hc at 2.
  replace (z mod 2^32 - c * m) with (z mod 2^32 + (- c) * m) by ring.
  apply Z_mod_plus_full.
Qed.

(** The status word as a sum of its three fields. *)
Lemma statusWord_value versionWord (len : nat) :
  (len <= MAX_SCRIPT_LEN)%nat ->
  js_ushr (js_or (js_or 0x0a (js_shl (js_and versionWord 0x0fff) 4))
                 (js_shl (js_and (Z.of_nat len) 0xffff) 16)) 0
  = 10 + (versionWord mod 4096) * 16 + Z.of_nat len * 65536.
Proof.
  intros Hlen. unfold MAX_SCRIPT_LEN, USER_FLASH_SIZE in Hlen.
  assert (Hv : 0 <= versionWord mod 4096 < 4096) by (apply Z.mod_pos_bound; lia).
  set (v := versionWord mod 4096) in *.
  assert (Hand1 : js_and versionWord 0x0fff = v).
  { unfold js_and. change (ToInt32 0x0fff) with (Z.ones 12).
    rewrite Z.land_ones by lia. change (2^12) with 4096.
    rewrite (ToInt32_mod versionWord 4096) by
      (try lia; exists 1048576; reflexivity).
    fold v. apply ToInt32_small. change (2^31) with 2147483648. lia. }
  assert (Hand2 : js_and (Z.of_nat len) 0xffff = Z.of_nat len).
  { unfold js_and. change (ToInt32 0xffff) with (Z.ones 16).
    rewrite Z.land_ones by lia. change (2^16) with 65536.
    rewrite (ToInt32_mod (Z.of_nat len) 65536) by
      (try lia; exists 65536; reflexivity).
    rewrite Z.mod_small by lia.
    apply ToInt32_small. change (2^31) with 2147483648. lia. }
  assert (Hshl1 : js_shl v 4 = v * 16).
  { unfold js_shl. change (ToUint32 4 mod 32) with 4.
    rewrite (ToInt32_small v) by (change (2^31) with 2147483648; lia).
    rewrite Z.shiftl_mul_pow2 by lia. change (2^4) with 16.
    apply ToInt32_small. change (2^31) with 2147483648. lia. }
  assert (Hshl2 : js_shl (Z.of_nat len) 16 = Z.of_nat len * 65536).
  { unfold js_shl. change (ToUint32 16 mod 32) with 16.
    rewrite (ToInt32_small (Z.of_nat len)) by (change (2^31) with 2147483648; lia).
    rewrite Z.shiftl_mul_pow2 by lia. change (2^16) with 65536.
    apply ToInt32_small. change (2^31) with 2147483648. lia. }
  assert (Hor1 : js_or 0x0a (v * 16) = 10 + v * 16).
  { unfold js_or. change (ToInt32 0x0a) with 10.
    rewrite (ToInt32_small (v * 16)) by (change (2^31) with 2147483648; lia).
    change 16 with (2^4). rewrite lor_disjoint by (change (2^4) with 16; lia).
    apply ToInt32_small. change (2^4) with 16. change (2^31) with 2147483648. lia. }
  rewrite Hand1, Hshl1, Hor1, Hand2, Hshl2.
  assert (Hor2 : js_or (10 + v * 16) (Z.of_nat len * 65536)
                 = 10 + v * 16 + Z.of_nat len * 65536).
  { unfold js_or.
    rewrite (ToInt32_small (10 + v * 16)) by (change (2^31) with 2147483648; lia).
    rewrite (ToInt32_small (Z.of_nat len * 65536))
      by (change (2^31) with 2147483648; lia).
    change 65536 with (2^16). rewrite lor_disjoint by (change (2^16) with 65536; lia).
    apply ToInt32_small. change (2^16) with 65536. change (2^31) with 2147483648. lia. }
  rewrite Hor2, js_ushr_0. apply Z.mod_small.
  change (2^32) with 4294967296. lia.
Qed.

Lemma buildUserFlashImage_Ok_inv scriptUtf8 name versionWord image :
  buildUserFlashImage scriptUtf8 name versionWord = Ok image ->
  (length scriptUtf8 <= MAX_SCRIPT_LEN)%nat
  /\ image =
     list_inserts 36 scriptUtf8
       (<[(4 + Nat.min (length (TextEncoder_encode name)) 31)%nat := x00]>
          (list_inserts 4
             (take (Nat.min (length (TextEncoder_encode name)) 31)
                   (TextEncoder_encode name))
             (list_inserts 0
                (u32_bytes
                   (js_ushr
                      (js_or (js_or 0x0a (js_shl (js_and versionWord 0x0fff) 4))
                         (js_shl (js_and (Z.of_nat (length scriptUtf8)) 0xffff) 16))
                      0))
                (replicate USER_FLASH_SIZE xff)))).
Proof.
  intros Hb.
  destruct (Nat.ltb_spec MAX_SCRIPT_LEN (length scriptUtf8)) as [Hlt|Hle].
  - unfold buildUserFlashImage in Hb.
    rewrite (proj2 (Nat.ltb_lt _ _) Hlt) in Hb. discriminate.
  - split; [exact Hle|].
    rewrite buildUserFlashImage_spec in Hb by exact Hle.
    apply Ok_inj in Hb. symmetry. exact Hb.
Qed.

(** The status word written by [buildUserFlashImage] decodes to the
    script-present nibble 0xA, the low 12 bits of [versionWord] and the
    byte length of the script. *)
Theorem buildUserFlashImage_status_word
    (scriptUtf8 : list byte) (name : jsstring) (versionWord : Z)
    (image : list byte) :
  buildUserFlashImage scriptUtf8 name versionWord = Ok image ->
  Z.land (u32_at image 0) 0xF = 0xA
  /\ Z.land (Z.shiftr (u32_at image 0) 4) 0xFFF = Z.land versionWord 0xFFF
  /\ Z.shiftr (u32_at image 0) 16 = Z.of_nat (length scriptUtf8).
Proof.
  intros Hb. apply buildUserFlashImage_Ok_inv in Hb as [Hlen ->].
  set (n := Nat.min (length (TextEncoder_encode name)) 31).
  set (sw := js_ushr _ 0).
  assert (Hsw : u32_at
            (list_inserts 36 scriptUtf8
               (<[(4 + n)%nat := x00]>
                  (list_inserts 4 (take n (TextEncoder_encode name))
                     (list_inserts 0 (u32_bytes sw)
                        (replicate USER_FLASH_SIZE xff))))) 0
          = sw mod 2^32).
  { rewrite <- (u32_at_inserts (replicate USER_FLASH_SIZE xff) 0 sw)
      by (rewrite length_replicate; unfold USER_FLASH_SIZE; lia).
    apply u32_at_ext. intros j Hj.
    rewrite list_lookup_inserts_lt by lia.
    rewrite list_lookup_insert_ne by lia.
    rewrite list_lookup_inserts_lt by lia. reflexivity. }
  rewrite Hsw. unfold sw. rewrite statusWord_value by exact Hlen.
  unfold MAX_SCRIPT_LEN, USER_FLASH_SIZE in Hlen.
  assert (Hv : 0 <= versionWord mod 4096 < 4096) by (apply Z.mod_pos_bound; lia).
  set (v := versionWord mod 4096) in *.
  set (L := Z.of_nat (length scriptUtf8)).
  assert (HL : 0 <= L <= 16348) by (unfold L; lia).
  rewrite Z.mod_small by (change (2^32) with 4294967296; lia).
  change 0xF with (Z.ones 4). change 0xFFF with (Z.ones 12).
  rewrite !Z.land_ones, !Z.shiftr_div_pow2 by lia.
  change (2^4) with 16. change (2^12) with 4096. change (2^16) with 65536.
  fold v.
  split; [|split].
  - replace (10 + v * 16 + L * 65536) with (10 + (v + L * 4096) * 16) by ring.
    rewrite Z_mod_plus_full. reflexivity.
  - replace (10 + v * 16 + L * 65536) with (10 + (v + L * 4096) * 16) by ring.
    rewrite Z.div_add by lia. change (10 / 16) with 0. rewrite Z.add_0_l.
    rewrite Z_mod_plus_full. apply Z.mod_small. lia.
  - rewrite Z.div_add by lia. rewrite Z.div_small by lia. reflexivity.
Qed.

Lemma buildUserFlashImage_status_word_witness :
  let image := result_get []
                 (buildUserFlashImage (TextEncoder_encode demo_script)
                    (js "demo") 0x123) in
  Z.land (u32_at image 0) 0xF = 0xA
  /\ Z.land (Z.shiftr (u32_at image 0) 4) 0xFFF = Z.land 0x123 0xFFF
  /\ Z.shiftr (u32_at image 0) 16
     = Z.of_nat (length (TextEncoder_encode demo_script)).
Proof.
  intros image.
  apply (buildUserFlashImage_status_word (TextEncoder_encode demo_script)
           (js "demo") 0x123 image).
  vm_compute. reflexivity.
Defined.

(** [buildUserFlashImage] throws exactly when the script has more than
    16348 bytes, always with the "Script too large" error carrying the
    actual and the maximal length; otherwise it returns a 16384-byte
    image. *)
Theorem buildUserFlashImage_fails_iff_too_large
    (scriptUtf8 : list byte) (name : jsstring) (versionWord : Z) :
  ((MAX_SCRIPT_LEN < length scriptUtf8)%nat ->
     buildUserFlashImage scriptUtf8 name versionWord
     = Throw (ScriptTooLarge (length scriptUtf8) MAX_SCRIPT_LEN))
  /\ ((length scriptUtf8 <= MAX_SCRIPT_LEN)%nat ->
      exists image, buildUserFlashImage scriptUtf8 name versionWord = Ok image
                    /\ length image = USER_FLASH_SIZE)
  /\ (forall e, buildUserFlashImage scriptUtf8 name versionWord = Throw e ->
      e = ScriptTooLarge (length scriptUtf8) MAX_SCRIPT_LEN
      /\ (MAX_SCRIPT_LEN < length scriptUtf8)%nat).
Proof.
  assert (Hbig : (MAX_SCRIPT_LEN < length scriptUtf8)%nat ->
            buildUserFlashImage scriptUtf8 name versionWord
            = Throw (ScriptTooLarge (length scriptUtf8) MAX_SCRIPT_LEN)).
  { intros Hlt. unfold buildUserFlashImage.
    rewrite (proj2 (Nat.ltb_lt _ _) Hlt). reflexivity. }
  split; [exact Hbig|]. split.
  - intros Hle.
    destruct (buildUserFlashImage_succeeds scriptUtf8 name versionWord Hle)
      as [image Hb].
    exists image. split; [exact Hb|].
    eapply buildUserFlashImage_Ok_length. exact Hb.
  - intros e He.
    destruct (Nat.ltb_spec MAX_SCRIPT_LEN (length scriptUtf8)) as [Hlt|Hle].
    + rewrite Hbig in He by exact Hlt. split; [congruence|exact Hlt].
    + destruct (buildUserFlashImage_succeeds scriptUtf8 name versionWord Hle)
        as [image Hb]. congruence.
Qed.

(** The script bytes are stored verbatim from offset 36 on, and every byte
    of the image after them keeps the erased-flash value 0xFF. *)
Theorem buildUserFlashImage_script_data
    (scriptUtf8 : list byte) (name : jsstring) (versionWord : Z)
    (image : list byte) :
  buildUserFlashImage scriptUtf8 name versionWord = Ok image ->
  slice image 36 (36 + length scriptUtf8) = scriptUtf8
  /\ forall j : nat, (36 + length scriptUtf8 <= j < USER_FLASH_SIZE)%nat ->
       image !! j = Some xff.
Proof.
  intros Hb. apply buildUserFlashImage_Ok_inv in Hb as [Hlen ->].
  set (n := Nat.min (length (TextEncoder_encode name)) 31).
  set (inner := <[(4 + n)%nat := x00]> _).
  assert (Hinner : length inner = USER_FLASH_SIZE).
  { unfold inner. rewrite length_insert, !length_inserts, length_replicate.
    reflexivity. }
  unfold MAX_SCRIPT_LEN in Hlen. unfold USER_FLASH_SIZE in *.
  split.
  - unfold slice. replace (36 + length scriptUtf8 - 36)%nat
      with (length scriptUtf8) by lia.
    apply list_eq. intros j.
    destruct (decide (j < length scriptUtf8)%nat) as [Hj|Hj].
    + rewrite lookup_take_lt, lookup_drop by exact Hj.
      rewrite list_lookup_inserts by lia. f_equal. lia.
    + rewrite lookup_take_ge by lia. symmetry. apply lookup_ge_None. lia.
  - intros j Hj.
    rewrite list_lookup_inserts_ge by lia. unfold inner.
    rewrite list_lookup_insert_ne by (unfold n; lia).
    rewrite list_lookup_inserts_ge
      by (rewrite length_take; unfold n; lia).
    rewrite list_lookup_inserts_ge by (cbn [length u32_bytes]; lia).
    apply lookup_replicate_2. lia.
Qed.

Lemma buildUserFlashImage_script_data_witness :
  let image := result_get []
                 (buildUserFlashImage (TextEncoder_encode demo_script)
                    (js "demo") DEFAULT_VERSION_WORD) in
  slice image 36 (36 + length (TextEncoder_encode demo_script))
  = TextEncoder_encode demo_script
  /\ forall j : nat,
       (36 + length (TextEncoder_encode demo_script) <= j < USER_FLASH_SIZE)%nat ->
       image !! j = Some xff.
Proof.
  intros image.
  apply (buildUserFlashImage_script_data (TextEncoder_encode demo_script)
           (js "demo") DEFAULT_VERSION_WORD image).
  vm_compute. reflexivity.
Defined.

(** ** The parser: what every decoded block satisfies *)

Lemma u32_at_range buf off : 0 <= u32_at buf off < 2^32.
Proof. apply le32_range. Qed.

Lemma parseUf2_Ok_block_error fileBytes blocks k :
  parseUf2 fileBytes = Ok blocks ->
  (k < length fileBytes / 512)%nat ->
  ~ has_bad_magic fileBytes (512 * k) /\ ~ has_payload_overflow fileBytes (512 * k).
Proof.
  intros Hp Hk. apply parseUf2_Ok_not_malformed in Hp.
  split; intros Hbad; apply Hp; right; exists k; tauto.
Qed.

(** Every block [parseUf2] returns has the two leading magic words, a
    [payloadSize] of at most 476 and a payload of exactly [payloadSize]
    bytes, and there is one block per 512 bytes of input. *)
Theorem parseUf2_blocks_invariant (fileBytes : list byte) (blocks : list Uf2Block) :
  parseUf2 fileBytes = Ok blocks ->
  (length fileBytes = 512 * length blocks)%nat
  /\ Forall (fun b =>
       magicStart0 b = UF2_MAGIC_START0
       /\ magicStart1 b = UF2_MAGIC_START1
       /\ 0 <= payloadSize b <= 476
       /\ length (payload b) = Z.to_nat (payloadSize b)) blocks.
Proof.
  intros Hp. pose proof (parseUf2_Ok_inv _ _ Hp) as [Hm Hblocks].
  pose proof (Nat.div_mod_eq (length fileBytes) 512) as Hdm.
  split.
  - rewrite Hblocks, length_map, length_seq. lia.
  - apply Forall_lookup_2. intros k b Hk.
    destruct (parseUf2_Ok_lookup _ _ _ _ Hp Hk) as [Hlt ->].
    destruct (parseUf2_Ok_block_error _ _ k Hp Hlt) as [Hmagic Hsize].
    unfold has_bad_magic in Hmagic. unfold has_payload_overflow in Hsize.
    pose proof (u32_at_range fileBytes (512 * k + 16)) as Hr.
    cbn [decode_block magicStart0 magicStart1 payloadSize payload].
    split; [destruct (Z.eq_dec (u32_at fileBytes (512 * k)) UF2_MAGIC_START0);
            [assumption|tauto]|].
    split; [destruct (Z.eq_dec (u32_at fileBytes (512 * k + 4)) UF2_MAGIC_START1);
            [assumption|tauto]|].
    split; [lia|].
    rewrite length_take, length_drop. lia.
Qed.

Lemma parseUf2_blocks_invariant_witness :
  (length small_base = 512 * length (result_get [] (parseUf2 small_base)))%nat
  /\ Forall (fun b =>
       magicStart0 b = UF2_MAGIC_START0
       /\ magicStart1 b = UF2_MAGIC_START1
       /\ 0 <= payloadSize b <= 476
       /\ length (payload b) = Z.to_nat (payloadSize b))
      (result_get [] (parseUf2 small_base)).
Proof.
  apply (parseUf2_blocks_invariant small_base). vm_compute. reflexivity.
Defined.

(** ** Serialising and parsing back *)

Lemma u32_at_renumber_frame i total block (o : nat) :
  (o + 4 <= 20 \/ 28 <= o)%nat ->
  u32_at (renumber i total block) o = u32_at block o.
Proof.
  intros Ho. apply u32_at_ext. intros j Hj. apply renumber_frame. lia.
Qed.

Lemma well_formed_block_length block :
  well_formed_block block -> length block = 512%nat.
Proof. intros [H _]. exact H. Qed.

Lemma Forall_well_formed_length blocks :
  Forall well_formed_block blocks ->
  Forall (fun block => length block = 512%nat) blocks.
Proof.
  intros H. eapply Forall_impl; [exact H|exact well_formed_block_length].
Qed.

Lemma decode_serialized blocks k block :
  Forall well_formed_block blocks ->
  Z.of_nat (length blocks) < 2^32 ->
  blocks !! k = Some block ->
  decode_block (mjoin (renumber_all blocks)) (512 * k)
  = with_numbering k (length blocks) (decode_block block 0).
Proof.
  intros Hwf Hn Hk.
  pose proof (Forall_well_formed_length _ Hwf) as Hall.
  pose proof (Forall_lookup_1 _ _ _ _ Hwf Hk) as (Hlen & _ & Hsize).
  pose proof (lookup_lt_Some _ _ _ Hk) as Hlt.
  unfold has_payload_overflow in Hsize. cbn [Nat.add] in Hsize.
  pose proof (u32_at_range block 16) as Hr.
  assert (Hf : forall o : nat, (o + 4 <= 20 \/ 28 <= o)%nat -> (o + 4 <= 512)%nat ->
            u32_at (mjoin (renumber_all blocks)) (512 * k + o) = u32_at block o).
  { intros o Ho Ho'.
    rewrite (serialized_u32_at blocks k block) by assumption.
    apply u32_at_renumber_frame. exact Ho. }
  destruct (serialized_numbering blocks k Hall Hn Hlt) as [H20 H24].
  unfold decode_block, with_numbering.
  cbn [magicStart0 magicStart1 flags targetAddr payloadSize blockNo numBlocks
       familyId payload Nat.add].
  rewrite <- (Nat.add_0_r (512 * k)) at 1.
  rewrite !Hf by lia. rewrite H20, H24. rewrite !Hf by lia.
  f_equal.
  change (take ?n (drop ?a ?l)) with (take n (drop a l)).
  set (sz := Z.to_nat (u32_at block 16)).
  assert (Hsz : (32 + sz <= 512)%nat) by (unfold sz; lia).
  pose proof (slice_serialized blocks k block 32 sz Hall Hk Hsz) as Hs.
  rewrite slice_renumber_frame in Hs by lia.
  unfold slice in Hs.
  replace (512 * k + 32 + sz - (512 * k + 32))%nat with sz in Hs by lia.
  replace (32 + sz - 32)%nat with sz in Hs by lia.
  exact Hs.
Qed.

Lemma serialized_not_malformed blocks :
  Forall well_formed_block blocks ->
  ~ malformed (mjoin (renumber_all blocks)).
Proof.
  intros Hwf.
  pose proof (Forall_well_formed_length _ Hwf) as Hall.
  pose proof (length_serialized blocks Hall) as Hlen.
  intros [Hm|(k & Hk & Hbad)].
  - apply Hm. rewrite Hlen. apply Nat.Div0.mod_mul.
  - rewrite Hlen, Nat.div_mul in Hk by lia.
    destruct (lookup_lt_is_Some_2 blocks k Hk) as [block Hb].
    pose proof (Forall_lookup_1 _ _ _ _ Hwf Hb) as (Hl & Hmagic & Hsize).
    assert (Hf : forall o : nat, (o + 4 <= 20 \/ 28 <= o)%nat -> (o + 4 <= 512)%nat ->
              u32_at (mjoin (renumber_all blocks)) (512 * k + o) = u32_at block o).
    { intros o Ho Ho'.
      rewrite (serialized_u32_at blocks k block) by assumption.
      apply u32_at_renumber_frame. exact Ho. }
    unfold has_bad_magic, has_payload_overflow in *. cbn [Nat.add] in *.
    rewrite <- (Nat.add_0_r (512 * k)) in Hbad at 1.
    rewrite !Hf in Hbad by lia. tauto.
Qed.

Lemma parse_serialized blocks :
  Forall well_formed_block blocks ->
  Z.of_nat (length blocks) < 2^32 ->
  parseUf2 (mjoin (renumber_all blocks))
  = Ok (imap (fun i block =>
                with_numbering i (length blocks) (decode_block block 0))
             blocks).
Proof.
  intros Hwf Hn.
  pose proof (Forall_well_formed_length _ Hwf) as Hall.
  rewrite (parseUf2_not_malformed _ (serialized_not_malformed _ Hwf)).
  f_equal. rewrite length_serialized, Nat.div_mul by (auto; lia).
  apply list_eq. intros k.
  rewrite list_lookup_fmap, list_lookup_imap.
  destruct (blocks !! k) as [block|] eqn:Hb.
  - rewrite lookup_seq_lt by (eapply lookup_lt_Some; exact Hb).
    cbn [fmap option_fmap option_map Nat.add]. f_equal.
    apply decode_serialized; assumption.
  - rewrite lookup_seq_ge by (apply lookup_ge_None; exact Hb). reflexivity.
Qed.


Lemma well_formed_block_of_error block :
  length block = 512%nat -> block_error block 0 = None -> well_formed_block block.
Proof.
  intros Hlen Herr. apply block_error_None in Herr. split; [exact Hlen|exact Herr].
Qed.








(** ** The transform: its errors and the container it returns *)

Lemma surviving_chunks_lookup base j chunk :
  surviving_chunks base !! j = Some chunk ->
  chunk_survives chunk = true
  /\ exists k : nat, (k < length base / 512)%nat /\ chunk = base_chunk base k.
Proof.
  intros Hj. apply list_elem_of_lookup_2, list_elem_of_In in Hj.
  unfold surviving_chunks in Hj. apply filter_In in Hj as [Hin Hs].
  split; [exact Hs|].
  apply in_map_iff in Hin as (k & <- & Hk). apply in_seq in Hk.
  exists k. split; [lia|reflexivity].
Qed.

Lemma length_filter_le {A : Type} (p : A -> bool) (l : list A) :
  (length (List.filter p l) <= length l)%nat.
Proof.
  induction l as [|x l IH]; cbn [List.filter length]; [lia|].
  destruct (p x); cbn [length]; lia.
Qed.

Lemma length_surviving_chunks base :
  (length (surviving_chunks base) <= length base / 512)%nat.
Proof.
  unfold surviving_chunks.
  etransitivity; [apply length_filter_le|].
  rewrite length_map, length_seq. reflexivity.
Qed.

Lemma Forall_well_formed_surviving base :
  ~ malformed base -> Forall well_formed_block (surviving_chunks base).
Proof.
  intros Hwf. apply Forall_lookup_2. intros j chunk Hj.
  destruct (surviving_chunks_lookup _ _ _ Hj) as (_ & k & Hk & ->).
  assert (Hm : (length base mod 512 = 0)%nat).
  { destruct (Nat.eq_dec (length base mod 512)%nat 0%nat) as [E|E]; [exact E|].
    exfalso. apply Hwf. left. exact E. }
  pose proof (Nat.div_mod_eq (length base) 512) as Hdm.
  split; [apply length_base_chunk; lia|].
  unfold has_bad_magic, has_payload_overflow. cbn [Nat.add].
  rewrite <- (Nat.add_0_r 0) at 1. cbn [Nat.add].
  rewrite !u32_at_base_chunk by lia. rewrite Nat.add_0_r.
  split; intros Hbad; apply Hwf; right; exists k;
    (split; [exact Hk|]); [left|right]; exact Hbad.
Qed.

Lemma Forall_well_formed_script_blocks image :
  length image = USER_FLASH_SIZE ->
  Forall well_formed_block (map (script_block image) (seq 0 64)).
Proof.
  intros Hlen. unfold USER_FLASH_SIZE in Hlen.
  apply List.Forall_forall. intros block Hin.
  apply in_map_iff in Hin as (i & <- & Hi). apply in_seq in Hi.
  assert (Hp : length (slice image (i * 256) (i * 256 + 256)) = 256%nat)
    by (apply length_slice; lia).
  apply well_formed_block_of_error.
  - apply length_script_block_bytes. exact Hp.
  - apply script_block_no_error. exact Hp.
Qed.

(** The container the transform returns passes the validation checklist:
    it parses; [blockNo] is the position and [numBlocks] the total of every
    block; the blocks that target the user region are exactly the last 64;
    and those carry, in order, addresses [USER_FLASH_START + i * 256],
    [payloadSize] 256, [flags] 0x2000, the RP2040 family id and the
    [i]-th 256-byte slice of the script image. *)
Theorem injectScriptIntoBaseUf2_output_valid
    (base : list byte) (scriptText : jsstring) :
  (length (TextEncoder_encode scriptText) <= MAX_SCRIPT_LEN)%nat ->
  ~ malformed base ->
  Z.of_nat (length base / 512 + 64) < 2^32 ->
  exists (out image : list byte) (blocks : list Uf2Block),
    injectScriptIntoBaseUf2 base scriptText = Ok out
    /\ buildUserFlashImage (TextEncoder_encode scriptText)
         (deriveScriptName scriptText) DEFAULT_VERSION_WORD = Ok image
    /\ parseUf2 out = Ok blocks
    /\ length blocks = (length (surviving_chunks base) + 64)%nat
    /\ (forall (i : nat) (b : Uf2Block), blocks !! i = Some b ->
          blockNo b = Z.of_nat i /\ numBlocks b = Z.of_nat (length blocks))
    /\ (forall (i : nat) (b : Uf2Block), blocks !! i = Some b ->
          (in_user_region (targetAddr b)
           <-> (length (surviving_chunks base) <= i)%nat))
    /\ (forall i : nat, (i < 64)%nat ->
          exists b : Uf2Block,
            blocks !! (length (surviving_chunks base) + i)%nat = Some b
            /\ targetAddr b = USER_FLASH_START + Z.of_nat i * 256
            /\ payloadSize b = 256
            /\ flags b = UF2_FLAG_FAMILY_ID_PRESENT
            /\ familyId b = RP2040_FAMILY_ID
            /\ payload b = slice image (i * 256) (i * 256 + 256)).
Proof.
  intros Hfit Hwf Hbound.
  destruct (buildUserFlashImage_succeeds
              (TextEncoder_encode scriptText) (deriveScriptName scriptText)
              DEFAULT_VERSION_WORD Hfit) as (image & Hb).
  pose proof (buildUserFlashImage_Ok_length _ _ _ _ Hb) as Himg.
  set (m := length (surviving_chunks base)).
  set (all := surviving_chunks base ++ map (script_block image) (seq 0 64)).
  assert (Hall : Forall well_formed_block all).
  { apply Forall_app. split;
      [apply Forall_well_formed_surviving; exact Hwf
      |apply Forall_well_formed_script_blocks; exact Himg]. }
  assert (Hn : length all = (m + 64)%nat).
  { unfold all. rewrite length_app, length_map, length_seq. reflexivity. }
  assert (Hlt : Z.of_nat (length all) < 2^32).
  { pose proof (length_surviving_chunks base). fold m in H. rewrite Hn. lia. }
  assert (Hscript : forall i : nat, (i < 64)%nat ->
            all !! (m + i)%nat = Some (script_block image i)).
  { intros i Hi. unfold all. rewrite lookup_app_r by (fold m; lia). fold m.
    replace (m + i - m)%nat with i by lia.
    rewrite list_lookup_fmap, lookup_seq_lt by exact Hi. reflexivity. }
  assert (Hpay : forall i : nat, (i < 64)%nat ->
            length (slice image (i * 256) (i * 256 + 256)) = 256%nat).
  { intros i Hi. apply length_slice. rewrite Himg. unfold USER_FLASH_SIZE. lia. }
  exists (mjoin (renumber_all all)), image.
  eexists.
  split; [apply (injectScriptIntoBaseUf2_spec base scriptText image Hb Hwf)|].
  split; [exact Hb|].
  split; [apply parse_serialized; assumption|].
  split; [rewrite length_imap; exact Hn|].
  split; [|split].
  - intros i b Hi. rewrite list_lookup_imap in Hi.
    destruct (all !! i) as [block|]; [|discriminate].
    cbn [fmap option_fmap option_map] in Hi. apply (inj Some) in Hi.
    subst b. rewrite length_imap. split; reflexivity.
  - intros i b Hi. rewrite list_lookup_imap in Hi.
    destruct (all !! i) as [block|] eqn:Hblock; [|discriminate].
    cbn [fmap option_fmap option_map] in Hi. apply (inj Some) in Hi.
    subst b.
    cbn [with_numbering decode_block targetAddr Nat.add].
    destruct (decide (i < m)%nat) as [Him|Him].
    + unfold all in Hblock. rewrite lookup_app_l in Hblock by exact Him.
      destruct (surviving_chunks_lookup _ _ _ Hblock) as [Hs _].
      unfold chunk_survives in Hs.
      apply negb_true_iff, inUserRange_false in Hs.
      split; [intros Hin; contradiction|lia].
    + pose proof (lookup_lt_Some _ _ _ Hblock) as Hi'. rewrite Hn in Hi'.
      replace i with (m + (i - m))%nat in Hblock by lia.
      rewrite (Hscript (i - m)%nat ltac:(lia)) in Hblock.
      apply (inj Some) in Hblock. subst block. unfold script_block.
      rewrite script_block_targetAddr.
      rewrite Z.mod_small by (unfold USER_FLASH_START; lia).
      split; [intros _; lia|].
      intros _. unfold in_user_region, USER_FLASH_START. lia.
  - intros i Hi. eexists. split.
    + rewrite list_lookup_imap, (Hscript i Hi). reflexivity.
    + cbn [with_numbering decode_block targetAddr payloadSize flags familyId
           payload Nat.add].
      unfold script_block.
      rewrite script_block_targetAddr, script_block_payloadSize,
        script_block_flags, script_block_familyId.
      change (Z.to_nat 256) with 256%nat.
      rewrite (script_block_payload _ _ (Hpay i Hi)).
      rewrite Z.mod_small by (unfold USER_FLASH_START; lia).
      repeat split; reflexivity.
Qed.

Lemma injectScriptIntoBaseUf2_output_valid_witness :
  exists (out image : list byte) (blocks : list Uf2Block),
    injectScriptIntoBaseUf2 small_base demo_script = Ok out
    /\ buildUserFlashImage (TextEncoder_encode demo_script)
         (deriveScriptName demo_script) DEFAULT_VERSION_WORD = Ok image
    /\ parseUf2 out = Ok blocks
    /\ length blocks = (length (surviving_chunks small_base) + 64)%nat
    /\ (forall (i : nat) (b : Uf2Block), blocks !! i = Some b ->
          blockNo b = Z.of_nat i /\ numBlocks b = Z.of_nat (length blocks))
    /\ (forall (i : nat) (b : Uf2Block), blocks !! i = Some b ->
          (in_user_region (targetAddr b)
           <-> (length (surviving_chunks small_base) <= i)%nat))
    /\ (forall i : nat, (i < 64)%nat ->
          exists b : Uf2Block,
            blocks !! (length (surviving_chunks small_base) + i)%nat = Some b
            /\ targetAddr b = USER_FLASH_START + Z.of_nat i * 256
            /\ payloadSize b = 256
            /\ flags b = UF2_FLAG_FAMILY_ID_PRESENT
            /\ familyId b = RP2040_FAMILY_ID
            /\ payload b = slice image (i * 256) (i * 256 + 256)).
Proof.
  apply (injectScriptIntoBaseUf2_output_valid small_base demo_script).
  - change (length (TextEncoder_encode demo_script)) with 17%nat.
    unfold MAX_SCRIPT_LEN, USER_FLASH_SIZE. lia.
  - apply well_formedb_not_malformed. vm_compute. reflexivity.
  - vm_compute. reflexivity.
Defined.

(** The transform throws in exactly two ways: "Script too large" when the
    encoded script exceeds 16348 bytes, whatever the base image is, and
    otherwise the error of [parseUf2] on the base image; it never fails in
    any other way, and succeeds whenever neither applies. *)
Theorem injectScriptIntoBaseUf2_errors (base : list byte) (scriptText : jsstring) :
  ((MAX_SCRIPT_LEN < length (TextEncoder_encode scriptText))%nat ->
     injectScriptIntoBaseUf2 base scriptText
     = Throw (ScriptTooLarge (length (TextEncoder_encode scriptText)) MAX_SCRIPT_LEN))
  /\ ((length (TextEncoder_encode scriptText) <= MAX_SCRIPT_LEN)%nat ->
      forall e, parseUf2 base = Throw e ->
                injectScriptIntoBaseUf2 base scriptText = Throw e)
  /\ ((length (TextEncoder_encode scriptText) <= MAX_SCRIPT_LEN)%nat ->
      forall blocks, parseUf2 base = Ok blocks ->
                exists out, injectScriptIntoBaseUf2 base scriptText = Ok out).
Proof.
  split; [|split].
  - intros Hlt. unfold injectScriptIntoBaseUf2, buildUserFlashImage. cbv zeta.
    rewrite (proj2 (Nat.ltb_lt _ _) Hlt). reflexivity.
  - intros Hle e He.
    destruct (buildUserFlashImage_succeeds
                (TextEncoder_encode scriptText) (deriveScriptName scriptText)
                DEFAULT_VERSION_WORD Hle) as (image & Hb).
    pose proof (buildUserFlashImage_Ok_length _ _ _ _ Hb) as Himg.
    unfold injectScriptIntoBaseUf2. cbv zeta.
    rewrite Hb. cbn [mbind result_bind].
    rewrite makeUserScriptUf2Blocks_spec, Himg, Nat.eqb_refl.
    cbn [mbind result_bind]. rewrite He. reflexivity.
  - intros Hle blocks Hp.
    destruct (buildUserFlashImage_succeeds
                (TextEncoder_encode scriptText) (deriveScriptName scriptText)
                DEFAULT_VERSION_WORD Hle) as (image & Hb).
    eexists.
    apply (injectScriptIntoBaseUf2_spec base scriptText image Hb).
    eapply parseUf2_Ok_not_malformed. exact Hp.
Qed.

(** ** The block splitter: the payloads make up the image *)

Lemma mjoin_slices (l : list byte) n : forall k,
  ((k + n) * 256 <= length l)%nat ->
  mjoin (map (fun i : nat => slice l (i * 256) (i * 256 + 256)) (seq k n))
  = take (n * 256) (drop (k * 256) l).
Proof.
  induction n as [|n IH]; intros k Hlen; [reflexivity|].
  cbn [seq map mjoin list_join]. 
  change (list_join byte ?x) with (mjoin x).
  rewrite IH by lia. unfold slice.
  replace (k * 256 + 256 - k * 256)%nat with 256%nat by lia.
  replace (S k * 256)%nat with (k * 256 + 256)%nat by lia.
  rewrite <- drop_drop.
  replace (S n * 256)%nat with (256 + n * 256)%nat by lia.
  apply take_take_drop.
Qed.

(** Joining the payloads of the 64 blocks [makeUserScriptUf2Blocks] emits
    gives the 16384-byte image back. *)
Theorem makeUserScriptUf2Blocks_payloads_rejoin (image : list byte) :
  length image = USER_FLASH_SIZE ->
  exists blocks : list (list byte),
    makeUserScriptUf2Blocks image = Ok blocks
    /\ mjoin (map (fun block => payload (decode_block block 0)) blocks) = image.
Proof.
  intros Hlen. eexists.
  split; [rewrite makeUserScriptUf2Blocks_spec, Hlen, Nat.eqb_refl; reflexivity|].
  rewrite map_map.
  unfold USER_FLASH_SIZE in Hlen.
  rewrite (map_ext_in _ (fun i : nat => slice image (i * 256) (i * 256 + 256))).
  - rewrite mjoin_slices by lia. cbn [drop Nat.mul].
    apply take_ge. lia.
  - intros i Hi. apply in_seq in Hi.
    cbn [decode_block payload Nat.add]. unfold script_block.
    rewrite script_block_payloadSize. change (Z.to_nat 256) with 256%nat.
    apply script_block_payload, length_slice. lia.
Qed.

Lemma makeUserScriptUf2Blocks_payloads_rejoin_witness :
  exists blocks : list (list byte),
    makeUserScriptUf2Blocks (replicate USER_FLASH_SIZE xff) = Ok blocks
    /\ mjoin (map (fun block => payload (decode_block block 0)) blocks)
       = replicate USER_FLASH_SIZE xff.
Proof.
  apply (makeUserScriptUf2Blocks_payloads_rejoin (replicate USER_FLASH_SIZE xff)).
  reflexivity.
Defined.

(** ** The script name *)

Lemma first_line_no_lf s : ~ In 0x0A (first_line s).
Proof.
  induction s as [|u rest IH]; cbn [first_line]; [intros []|].
  destruct (Z.eqb_spec u 0x0A) as [->|Hu]; [intros []|].
  destruct ((u =? 0x0D) && match rest with v :: _ => v =? 0x0A | [] => false end);
    [intros []|].
  intros [H|H]; [congruence|exact (IH H)].
Qed.

Lemma trim_start_suffix s : exists p, s = p ++ trim_start s.
Proof.
  induction s as [|u rest [p IH]]; cbn [trim_start]; [exists []; reflexivity|].
  destruct (is_js_space u).
  - exists (u :: p). cbn [app]. f_equal. exact IH.
  - exists []. reflexivity.
Qed.

Lemma trim_start_head s u :
  head (trim_start s) = Some u -> is_js_space u = false.
Proof.
  induction s as [|v rest IH]; cbn [trim_start]; [discriminate|].
  destruct (is_js_space v) eqn:E; [exact IH|].
  cbn [head]. intros [= <-]. exact E.
Qed.

Lemma js_trim_prefix s : exists q, trim_start s = js_trim s ++ q.
Proof.
  unfold js_trim.
  destruct (trim_start_suffix (rev (trim_start s))) as [p Hp].
  exists (rev p).
  rewrite <- (rev_involutive (trim_start s)) at 1.
  rewrite Hp at 1. apply rev_app_distr.
Qed.

Lemma js_trim_In s x : In x (js_trim s) -> In x s.
Proof.
  intros H.
  destruct (js_trim_prefix s) as [q Hq].
  destruct (trim_start_suffix s) as [p Hp].
  rewrite Hp, Hq. apply in_or_app. right. apply in_or_app. left. exact H.
Qed.

Lemma js_trim_head s u : head (js_trim s) = Some u -> is_js_space u = false.
Proof.
  intros H. destruct (js_trim_prefix s) as [q Hq].
  apply (trim_start_head s). rewrite Hq.
  destruct (js_trim s); [discriminate|exact H].
Qed.

Lemma js_trim_last s u : last (js_trim s) = Some u -> is_js_space u = false.
Proof.
  unfold js_trim. intros H.
  apply (trim_start_head (rev (trim_start s))).
  destruct (trim_start (rev (trim_start s))) as [|v t]; [discriminate|].
  cbn [rev] in H. rewrite last_snoc in H. exact H.
Qed.

Lemma startsWith_dashes_true l :
  startsWith_dashes l = true <-> exists t, l = 0x2D :: 0x2D :: 0x2D :: t.
Proof.
  split.
  - destruct l as [|a [|b [|c t]]]; cbn [startsWith_dashes]; try discriminate.
    intros H. apply andb_true_iff in H as [H Hc].
    apply andb_true_iff in H as [Ha Hb].
    apply Z.eqb_eq in Ha, Hb, Hc. subst. exists t. reflexivity.
  - intros [t ->]. reflexivity.
Qed.

Lemma first_line_cons_inv s u r :
  first_line s = u :: r -> exists rest, s = u :: rest /\ r = first_line rest.
Proof.
  destruct s as [|v rest]; cbn [first_line]; [discriminate|].
  destruct (v =? 0x0A); [discriminate|].
  destruct ((v =? 0x0D) && _); [discriminate|].
  intros [= -> <-]. exists rest. split; reflexivity.
Qed.

Lemma startsWith_dashes_first_line s :
  startsWith_dashes (first_line s) = startsWith_dashes s.
Proof.
  destruct (startsWith_dashes s) eqn:E.
  - apply startsWith_dashes_true in E as [t ->].
    apply startsWith_dashes_true. exists (first_line t). reflexivity.
  - destruct (startsWith_dashes (first_line s)) eqn:E'; [|reflexivity].
    apply startsWith_dashes_true in E' as [t Ht].
    apply first_line_cons_inv in Ht as (r1 & -> & Ht).
    symmetry in Ht. apply first_line_cons_inv in Ht as (r2 & -> & Ht).
    symmetry in Ht. apply first_line_cons_inv in Ht as (r3 & -> & Ht).
    cbn in E. discriminate.
Qed.

(** The name [deriveScriptName] returns never contains a line feed, has no
    white space at either end, and is empty unless the script starts with
    the three characters [---]. *)
Theorem deriveScriptName_clean (scriptText : jsstring) :
  ~ In 0x0A (deriveScriptName scriptText)
  /\ (forall u, head (deriveScriptName scriptText) = Some u -> is_js_space u = false)
  /\ (forall u, last (deriveScriptName scriptText) = Some u -> is_js_space u = false)
  /\ (startsWith_dashes scriptText = false -> deriveScriptName scriptText = []).
Proof.
  unfold deriveScriptName. cbv zeta.
  rewrite startsWith_dashes_first_line.
  destruct (startsWith_dashes scriptText); cbn [negb].
  - split; [|split; [|split]].
    + intros H. apply js_trim_In in H.
      apply (first_line_no_lf scriptText).
      rewrite <- (take_drop 3 (first_line scriptText)).
      apply in_or_app. right. exact H.
    + apply js_trim_head.
    + apply js_trim_last.
    + discriminate.
  - split; [intros []|]. split; [discriminate|]. split; [discriminate|reflexivity].
Qed.

(** ** Line buffering of serial input *)

Lemma js_indexOf_range c s : -1 <= js_indexOf c s < Z.of_nat (length s) \/ s = [].
Proof.
  induction s as [|u rest IH]; [right; reflexivity|left].
  cbn [js_indexOf length].
  destruct (u =? c); [lia|].
  destruct (Z.eqb_spec (js_indexOf c rest) (-1)); [lia|].
  destruct IH as [IH| ->]; [lia|]. cbn in n. contradiction.
Qed.

Lemma js_indexOf_absent c s : js_indexOf c s = -1 <-> ~ In c s.
Proof.
  induction s as [|u rest IH]; cbn [js_indexOf In]; [tauto|].
  destruct (Z.eqb_spec u c) as [->|Hu].
  - split; [discriminate|]. intros H. exfalso. apply H. left. reflexivity.
  - destruct (Z.eqb_spec (js_indexOf c rest) (-1)) as [E|E].
    + split; [|reflexivity]. intros _ [H|H]; [contradiction|].
      apply IH in E. contradiction.
    + split.
      * destruct (js_indexOf_range c rest) as [Hr| ->]; [lia|].
        cbn in E. contradiction.
      * intros H. exfalso. apply E, IH. tauto.
Qed.

Lemma js_indexOf_first c pre post :
  ~ In c pre -> js_indexOf c (pre ++ c :: post) = Z.of_nat (length pre).
Proof.
  induction pre as [|u pre IH]; intros Hpre; cbn [app js_indexOf length].
  - rewrite Z.eqb_refl. reflexivity.
  - destruct (Z.eqb_spec u c) as [->|Hu];
      [exfalso; apply Hpre; left; reflexivity|].
    rewrite IH by (intros H; apply Hpre; right; exact H).
    destruct (Z.eqb_spec (Z.of_nat (length pre)) (-1)); lia.
Qed.

Lemma js_indexOf_found c s :
  js_indexOf c s <> -1 ->
  exists pre post, s = pre ++ c :: post /\ ~ In c pre
                   /\ js_indexOf c s = Z.of_nat (length pre).
Proof.
  intros H.
  assert (Hin : In c s).
  { destruct (in_dec Z.eq_dec c s) as [Hi|Hn]; [exact Hi|].
    apply js_indexOf_absent in Hn. contradiction. }
  clear H. induction s as [|u rest IH]; [destruct Hin|].
  destruct (Z.eq_dec u c) as [->|Hu].
  - exists [], rest. split; [reflexivity|]. split; [intros []|].
    cbn [js_indexOf length]. rewrite Z.eqb_refl. reflexivity.
  - destruct Hin as [Hin|Hin]; [contradiction|].
    destruct (IH Hin) as (pre & post & -> & Hpre & _).
    exists (u :: pre), post. split; [reflexivity|].
    assert (Hpre' : ~ In c (u :: pre)).
    { intros [H|H]; [contradiction|]. exact (Hpre H). }
    split; [exact Hpre'|].
    exact (js_indexOf_first c (u :: pre) post Hpre').
Qed.

Lemma split_lf_no_lf s : ~ In 0x0A s -> split_lf s = ([], s).
Proof.
  induction s as [|u rest IH]; intros H; [reflexivity|].
  cbn [split_lf]. rewrite IH by (intros Hr; apply H; right; exact Hr).
  destruct (Z.eqb_spec u 0x0A) as [->|Hu]; [|reflexivity].
  exfalso. apply H. left. reflexivity.
Qed.

Lemma split_lf_cut pre post :
  ~ In 0x0A pre ->
  split_lf (pre ++ 0x0A :: post)
  = (pre :: fst (split_lf post), snd (split_lf post)).
Proof.
  induction pre as [|u pre IH]; intros H; cbn [app split_lf].
  - destruct (split_lf post). reflexivity.
  - rewrite IH by (intros Hr; apply H; right; exact Hr).
    destruct (Z.eqb_spec u 0x0A) as [->|Hu]; [|reflexivity].
    exfalso. apply H. left. reflexivity.
Qed.

Lemma split_lf_app a b :
  split_lf (a ++ b)
  = (fst (split_lf a) ++ fst (split_lf (snd (split_lf a) ++ b)),
     snd (split_lf (snd (split_lf a) ++ b))).
Proof.
  induction a as [|u a IH]; cbn [app split_lf].
  - cbn [fst snd app]. destruct (split_lf b). reflexivity.
  - rewrite IH. destruct (split_lf a) as [sa ta]. cbn [fst snd].
    destruct (u =? 0x0A) eqn:Eu.
    + reflexivity.
    + destruct sa as [|seg sa]; cbn [fst snd app].
      * cbn [split_lf]. rewrite Eu.
        destruct (split_lf (ta ++ b)) as [sb tb]. cbn [fst snd].
        destruct sb; reflexivity.
      * reflexivity.
Qed.

Lemma split_lf_join s :
  s = flat_map (fun seg => seg ++ [0x0A]) (fst (split_lf s)) ++ snd (split_lf s).
Proof.
  induction s as [|u rest IH]; [reflexivity|].
  cbn [split_lf]. destruct (split_lf rest) as [segs tail]. cbn [fst snd] in IH.
  destruct (Z.eqb_spec u 0x0A) as [->|Hu].
  - cbn [fst snd flat_map app]. f_equal. exact IH.
  - destruct segs as [|seg segs]; cbn [fst snd flat_map app] in *;
      f_equal; exact IH.
Qed.

Lemma split_lf_clean s :
  Forall (fun seg => ~ In 0x0A seg) (fst (split_lf s)) /\ ~ In 0x0A (snd (split_lf s)).
Proof.
  induction s as [|u rest [IHs IHt]]; [split; [constructor|intros []]|].
  cbn [split_lf]. destruct (split_lf rest) as [segs tail]. cbn [fst snd] in *.
  destruct (Z.eqb_spec u 0x0A) as [->|Hu].
  - cbn [fst snd]. split; [constructor; [intros []|exact IHs]|exact IHt].
  - destruct segs as [|seg segs]; cbn [fst snd].
    + split; [constructor|]. intros [H|H]; [congruence|exact (IHt H)].
    + apply Forall_cons in IHs as [Hseg Hsegs].
      split; [|exact IHt]. constructor; [|exact Hsegs].
      intros [H|H]; [congruence|exact (Hseg H)].
Qed.

Lemma drain_lines_spec fuel : forall lineBuffer received,
  (length lineBuffer <= fuel)%nat ->
  drain_lines fuel lineBuffer received
  = Ok (snd (split_lf lineBuffer),
        received ++ List.filter js_truthy (fst (split_lf lineBuffer))).
Proof.
  induction fuel as [|fuel IH]; intros buf received Hfuel.
  - destruct buf; [|cbn in Hfuel; lia]. cbn. rewrite app_nil_r. reflexivity.
  - cbn [drain_lines].
    destruct (Z.eqb_spec (js_indexOf 0x0A buf) (-1)) as [E|E]; cbn [negb].
    + apply js_indexOf_absent in E. rewrite split_lf_no_lf by exact E.
      cbn. rewrite app_nil_r. reflexivity.
    + destruct (js_indexOf_found _ _ E) as (pre & post & -> & Hpre & Hidx).
      rewrite Hidx, Nat2Z.id.
      unfold js_substring, js_substring_from.
      rewrite Nat.sub_0_r, drop_0.
      rewrite take_app_length.
      replace (length pre + 1)%nat with (length (pre ++ [0x0A])) 
        by (rewrite length_app; reflexivity).
      rewrite (cons_middle 0x0A pre post), app_assoc, drop_app_length.
      rewrite IH by (rewrite !length_app in Hfuel; cbn [length] in Hfuel; lia).
      rewrite <- app_assoc. cbn [app].
      rewrite split_lf_cut by exact Hpre. cbn [fst snd List.filter].
      destruct (js_truthy pre); [rewrite <- app_assoc|]; reflexivity.
Qed.

Lemma startReading_chunk_spec lineBuffer value :
  startReading_chunk true lineBuffer value
  = if js_truthy value
    then Ok (snd (split_lf (lineBuffer ++ value)),
             List.filter js_truthy (fst (split_lf (lineBuffer ++ value))))
    else Ok (lineBuffer, []).
Proof.
  unfold startReading_chunk. rewrite andb_true_r.
  destruct (js_truthy value); [|reflexivity].
  cbv zeta. rewrite drain_lines_spec by lia. reflexivity.
Qed.

Lemma filter_truthy_nonempty segs :
  Forall (fun seg => ~ In 0x0A seg) segs ->
  Forall (fun line => line <> [] /\ ~ In 0x0A line) (List.filter js_truthy segs).
Proof.
  induction 1 as [|seg segs Hseg _ IH]; cbn [List.filter]; [constructor|].
  destruct seg as [|u seg]; cbn [js_truthy]; [exact IH|].
  constructor; [split; [discriminate|exact Hseg]|exact IH].
Qed.

(** Processing one chunk of serial input never fails; every line handed
    to [onDataReceived] is non-empty and free of line feeds; and when the
    chunk is taken up, buffer plus chunk is the sequence of line-feed
    terminated segments whose non-empty members were handed over, followed
    by the new buffer, which holds no line feed. *)
Theorem startReading_chunk_lines (hasHandler : bool) (lineBuffer value : jsstring) :
  exists (lineBuffer' : jsstring) (received : list jsstring),
    startReading_chunk hasHandler lineBuffer value = Ok (lineBuffer', received)
    /\ Forall (fun line => line <> [] /\ ~ In 0x0A line) received
    /\ (~ In 0x0A lineBuffer -> ~ In 0x0A lineBuffer')
    /\ (value <> [] -> hasHandler = true ->
        ~ In 0x0A lineBuffer'
        /\ exists segs : list jsstring,
             lineBuffer ++ value
             = flat_map (fun seg => seg ++ [0x0A]) segs ++ lineBuffer'
             /\ Forall (fun seg => ~ In 0x0A seg) segs
             /\ received = List.filter js_truthy segs).
Proof.
  destruct hasHandler.
  2:{ exists lineBuffer, []. unfold startReading_chunk. rewrite andb_false_r.
      split; [reflexivity|]. split; [constructor|]. split; [tauto|].
      intros _ [=]. }
  rewrite startReading_chunk_spec.
  destruct value as [|u value]; cbn [js_truthy].
  - exists lineBuffer, []. split; [reflexivity|]. split; [constructor|].
    split; [tauto|]. intros H. contradiction.
  - set (s := lineBuffer ++ u :: value).
    destruct (split_lf_clean s) as [Hsegs Htail].
    exists (snd (split_lf s)), (List.filter js_truthy (fst (split_lf s))).
    split; [reflexivity|].
    split; [apply filter_truthy_nonempty; exact Hsegs|].
    split; [intros _; exact Htail|].
    intros _ _. split; [exact Htail|].
    exists (fst (split_lf s)).
    split; [apply split_lf_join|]. split; [exact Hsegs|reflexivity].
Qed.

(** How the input is cut into chunks does not matter: feeding two chunks
    one after the other hands over the same lines, and leaves the same
    buffer, as feeding their concatenation at once. *)
Theorem startReading_chunk_app (lineBuffer value1 value2 : jsstring) :
  exists (buffer1 buffer2 : jsstring) (received1 received2 : list jsstring),
    startReading_chunk true lineBuffer value1 = Ok (buffer1, received1)
    /\ startReading_chunk true buffer1 value2 = Ok (buffer2, received2)
    /\ startReading_chunk true lineBuffer (value1 ++ value2)
       = Ok (buffer2, received1 ++ received2).
Proof.
  rewrite !startReading_chunk_spec.
  destruct value1 as [|u1 value1]; cbn [js_truthy app].
  - exists lineBuffer. rewrite startReading_chunk_spec.
    destruct (js_truthy value2); do 3 eexists; repeat split; reflexivity.
  - set (s1 := lineBuffer ++ u1 :: value1).
    exists (snd (split_lf s1)). rewrite startReading_chunk_spec.
    destruct value2 as [|u2 value2]; cbn [js_truthy].
    + do 3 eexists. split; [reflexivity|]. split; [reflexivity|].
      rewrite !app_nil_r. reflexivity.
    + do 3 eexists. split; [reflexivity|]. split; [reflexivity|].
      replace (lineBuffer ++ u1 :: value1 ++ u2 :: value2)
        with (s1 ++ u2 :: value2)
        by (unfold s1; rewrite <- app_assoc; reflexivity).
      rewrite split_lf_app. cbn [fst snd].
      rewrite List.filter_app. reflexivity.
Qed.

(** ** Preparing code for the device *)

Lemma trim_start_id s :
  (forall u, head s = Some u -> is_js_space u = false) -> trim_start s = s.
Proof.
  destruct s as [|u s]; [reflexivity|].
  intros H. cbn [trim_start]. rewrite (H u eq_refl). reflexivity.
Qed.

Lemma drop_leading_lf_spec s :
  exists k : nat, s = replicate k 0x0A ++ drop_leading_lf s
                  /\ head (drop_leading_lf s) <> Some 0x0A.
Proof.
  induction s as [|u rest (k & Hk & Hh)]; cbn [drop_leading_lf].
  - exists 0%nat. split; [reflexivity|discriminate].
  - destruct (Z.eqb_spec u 0x0A) as [->|Hu].
    + exists (S k). split; [cbn [replicate app]; f_equal; exact Hk|exact Hh].
    + exists 0%nat. split; [reflexivity|]. cbn [head]. congruence.
Qed.

Lemma rev_replicate {A : Type} (k : nat) (x : A) : rev (replicate k x) = replicate k x.
Proof.
  induction k as [|k IH]; [reflexivity|].
  cbn [replicate rev]. rewrite IH.
  clear IH. induction k as [|k IH]; [reflexivity|].
  cbn [replicate app]. f_equal. exact IH.
Qed.

Lemma strip_trailing_lf_spec s :
  exists k : nat, s = strip_trailing_lf s ++ replicate k 0x0A
                  /\ last (strip_trailing_lf s) <> Some 0x0A.
Proof.
  unfold strip_trailing_lf.
  destruct (drop_leading_lf_spec (rev s)) as (k & Hk & Hh).
  exists k. split.
  - rewrite <- (rev_involutive s) at 1. rewrite Hk at 1.
    rewrite rev_app_distr, rev_replicate. reflexivity.
  - destruct (drop_leading_lf (rev s)) as [|u t]; [discriminate|].
    cbn [rev]. rewrite last_snoc. exact Hh.
Qed.

Lemma fenced_is_fenced w :
  let p := FENCE ++ [0x0A] ++ w ++ [0x0A] ++ FENCE in
  js_trim p = p /\ js_startsWith p FENCE = true /\ js_endsWith p FENCE = true.
Proof.
  intros p.
  assert (Hrev : rev p = FENCE ++ [0x0A] ++ rev w ++ [0x0A] ++ FENCE).
  { unfold p. rewrite !rev_app_distr, <- !app_assoc. reflexivity. }
  split; [|split].
  - unfold js_trim.
    assert (Hp : trim_start p = p) by reflexivity.
    rewrite Hp, Hrev.
    assert (Hr : trim_start (FENCE ++ [0x0A] ++ rev w ++ [0x0A] ++ FENCE)
                 = FENCE ++ [0x0A] ++ rev w ++ [0x0A] ++ FENCE) by reflexivity.
    rewrite Hr, <- Hrev. apply rev_involutive.
  - reflexivity.
  - unfold js_endsWith. rewrite Hrev. reflexivity.
Qed.

Lemma prepareCodeForCrow_cases code :
  prepareCodeForCrow code = code
  \/ exists (body : jsstring) (k : nat),
       code = body ++ replicate k 0x0A
       /\ last body <> Some 0x0A
       /\ prepareCodeForCrow code
          = FENCE ++ [0x0A] ++ body ++ [0x0A] ++ FENCE.
Proof.
  unfold prepareCodeForCrow. cbv zeta.
  destruct (_ && _); [left; reflexivity|].
  destruct (js_includes_char 0x0A code); cbn [negb]; [|left; reflexivity].
  right. destruct (strip_trailing_lf_spec code) as (k & Hk & Hl).
  exists (strip_trailing_lf code), k.
  split; [exact Hk|]. split; [exact Hl|reflexivity].
Qed.

(** [prepareCodeForCrow] is idempotent: code it has prepared is returned
    unchanged when prepared again, so a snippet is never fenced twice. *)
Theorem prepareCodeForCrow_idempotent (code : jsstring) :
  prepareCodeForCrow (prepareCodeForCrow code) = prepareCodeForCrow code.
Proof.
  destruct (prepareCodeForCrow_cases code) as [H|(body & k & _ & _ & ->)];
    [rewrite !H; reflexivity|].
  destruct (fenced_is_fenced body) as (Ht & Hs & He).
  unfold prepareCodeForCrow. cbv zeta.
  rewrite Ht, Hs, He. reflexivity.
Qed.

(** What [prepareCodeForCrow] returns: code without a line feed, and code
    that (trimmed) already starts and ends with a fence, come back as they
    are; any other code comes back between two fence lines, with its
    trailing line feeds, and only those, removed. *)
Theorem prepareCodeForCrow_shape (code : jsstring) :
  (~ In 0x0A code -> prepareCodeForCrow code = code)
  /\ (js_startsWith (js_trim code) FENCE = true ->
      js_endsWith (js_trim code) FENCE = true ->
      prepareCodeForCrow code = code)
  /\ (prepareCodeForCrow code = code
      \/ exists (body : jsstring) (k : nat),
           code = body ++ replicate k 0x0A
           /\ last body <> Some 0x0A
           /\ prepareCodeForCrow code
              = FENCE ++ [0x0A] ++ body ++ [0x0A] ++ FENCE).
Proof.
  split; [|split; [|apply prepareCodeForCrow_cases]].
  - unfold prepareCodeForCrow. cbv zeta.
    intros Hno. apply js_indexOf_absent in Hno.
    unfold js_includes_char. rewrite Hno. cbn [Z.eqb negb].
    destruct (_ && _); reflexivity.
  - unfold prepareCodeForCrow. cbv zeta. intros -> ->. reflexivity.
Qed.

Lemma split_lf_In s seg x :
  In seg (js_split_lf s) -> In x seg -> In x s.
Proof.
  unfold js_split_lf. intros Hseg Hx.
  rewrite (split_lf_join s). apply in_app_or in Hseg as [Hseg|[<-|[]]].
  - apply in_or_app. left. apply in_flat_map. exists seg.
    split; [exact Hseg|]. apply in_or_app. left. exact Hx.
  - apply in_or_app. right. exact Hx.
Qed.

Lemma replace_cr_no_cr s : ~ In 0x0D (replace_cr s).
Proof.
  unfold replace_cr. intros H. apply in_map_iff in H as (u & Hu & _).
  destruct (Z.eqb_spec u 0x0D); congruence.
Qed.

Lemma prepareCodeForCrow_no_cr code :
  ~ In 0x0D code -> ~ In 0x0D (prepareCodeForCrow code).
Proof.
  intros Hno. destruct (prepareCodeForCrow_cases code) as [->|H];
    [exact Hno|].
  destruct H as (body & k & Hcode & _ & ->).
  intros Hin. apply Hno. rewrite Hcode.
  cbn [FENCE app In] in Hin.
  destruct Hin as [H|[H|[H|[H|Hin]]]]; try discriminate.
  apply in_app_or in Hin as [Hin|Hin]; [apply in_or_app; left; exact Hin|].
  cbn [In] in Hin. destruct Hin as [H|[H|[H|[H|[]]]]]; discriminate.
Qed.

(** Every write [sendToCrow] makes carries exactly one line: text with no
    carriage return and no line feed in it, followed by carriage return
    and line feed; and there is at least one write. *)
Theorem sendToCrow_writes_framed (code : jsstring) :
  sendToCrow_writes code <> []
  /\ Forall (fun data =>
       exists line : jsstring,
         data = line ++ [0x0D; 0x0A]
         /\ ~ In 0x0D line /\ ~ In 0x0A line)
      (sendToCrow_writes code).
Proof.
  unfold sendToCrow_writes. cbv zeta.
  set (prepared := prepareCodeForCrow (replace_cr (replace_crlf code))).
  assert (Hcr : ~ In 0x0D prepared)
    by (apply prepareCodeForCrow_no_cr, replace_cr_no_cr).
  split.
  - unfold js_split_lf. destruct (fst (split_lf prepared)); discriminate.
  - apply List.Forall_forall. intros data Hdata.
    apply in_map_iff in Hdata as (line & <- & Hline).
    exists line. split; [reflexivity|]. split.
    + intros Hin. apply Hcr. eapply split_lf_In; eassumption.
    + destruct (split_lf_clean prepared) as [Hsegs Htail].
      unfold js_split_lf in Hline.
      apply in_app_or in Hline as [Hline|[<-|[]]]; [|exact Htail].
      rewrite List.Forall_forall in Hsegs. apply Hsegs. exact Hline.
Qed.

(** ** Signature help *)

Lemma js_lastIndexOf_absent c s : ~ In c s -> js_lastIndexOf c s = -1.
Proof.
  intros H. unfold js_lastIndexOf. cbv zeta.
  rewrite (proj2 (js_indexOf_absent c (rev s)))
    by (intros Hi; apply H, in_rev; exact Hi).
  reflexivity.
Qed.

Lemma js_lastIndexOf_last c t u :
  ~ In c u -> js_lastIndexOf c (t ++ c :: u) = Z.of_nat (length t).
Proof.
  intros H. unfold js_lastIndexOf. cbv zeta.
  rewrite rev_app_distr. cbn [rev]. rewrite <- app_assoc. cbn [app].
  rewrite js_indexOf_first by (intros Hi; apply H, in_rev; exact Hi).
  rewrite length_rev, length_app. cbn [length].
  destruct (Z.eqb_spec (Z.of_nat (length u)) (-1)); lia.
Qed.

Lemma last_occurrence (c : Z) s :
  In c s -> exists t u, s = t ++ c :: u /\ ~ In c u.
Proof.
  induction s as [|v s IH]; intros Hin; [destruct Hin|].
  destruct (in_dec Z.eq_dec c s) as [Hs|Hs].
  - destruct (IH Hs) as (t & u & -> & Hu). exists (v :: t), u.
    split; [reflexivity|exact Hu].
  - destruct Hin as [->|Hin]; [|contradiction].
    exists [], s. split; [reflexivity|exact Hs].
Qed.

Lemma getActiveParameter_split t u :
  ~ In 0x28 u -> getActiveParameter (t ++ 0x28 :: u) = count_commas u.
Proof.
  intros H. unfold getActiveParameter. cbv zeta.
  rewrite js_lastIndexOf_last by exact H.
  destruct (Z.eqb_spec (Z.of_nat (length t)) (-1)); [lia|].
  unfold js_substring_from.
  replace (Z.to_nat (Z.of_nat (length t) + 1)) with (length (t ++ [0x28]))
    by (rewrite length_app; cbn [length]; lia).
  rewrite (cons_middle 0x28 t u), app_assoc, drop_app_length. reflexivity.
Qed.

Lemma count_commas_snoc u c :
  count_commas (u ++ [c]) = count_commas u + (if c =? 0x2C then 1 else 0).
Proof.
  unfold count_commas. rewrite List.filter_app, length_app.
  cbn [List.filter]. destruct (c =? 0x2C); cbn [length]; lia.
Qed.

(** [getActiveParameter] counts the commas after the last opening
    parenthesis, and so follows the typing: it is 0 for text without a
    parenthesis and right after one is typed, goes up by one with each
    comma typed after a parenthesis, and is unchanged by any other
    character. *)
Theorem getActiveParameter_typing (text : jsstring) (c : Z) :
  (~ In 0x28 text -> getActiveParameter text = 0)
  /\ (forall t u, text = t ++ 0x28 :: u -> ~ In 0x28 u ->
        getActiveParameter text = count_commas u)
  /\ getActiveParameter (text ++ [0x28]) = 0
  /\ (In 0x28 text ->
      getActiveParameter (text ++ [0x2C]) = getActiveParameter text + 1)
  /\ (c <> 0x28 -> c <> 0x2C ->
      getActiveParameter (text ++ [c]) = getActiveParameter text).
Proof.
  assert (Hnone : forall s, ~ In 0x28 s -> getActiveParameter s = 0).
  { intros s H. unfold getActiveParameter. cbv zeta.
    rewrite js_lastIndexOf_absent by exact H. reflexivity. }
  split; [apply Hnone|]. split; [|split; [|split]].
  - intros t u -> Hu. apply getActiveParameter_split. exact Hu.
  - rewrite (getActiveParameter_split text []) by (intros []). reflexivity.
  - intros Hin. destruct (last_occurrence _ _ Hin) as (t & u & -> & Hu).
    rewrite <- app_assoc. cbn [app].
    rewrite !getActiveParameter_split;
      [apply count_commas_snoc|exact Hu|].
    intros H. apply in_app_or in H as [H|[H|[]]]; [exact (Hu H)|discriminate].
  - intros Hp Hc.
    destruct (in_dec Z.eq_dec 0x28 text) as [Hin|Hno].
    + destruct (last_occurrence _ _ Hin) as (t & u & -> & Hu).
      rewrite <- app_assoc. cbn [app].
      rewrite !getActiveParameter_split.
      * rewrite count_commas_snoc.
        destruct (Z.eqb_spec c 0x2C); [contradiction|lia].
      * exact Hu.
      * intros H. apply in_app_or in H as [H|[H|[]]]; [exact (Hu H)|congruence].
    + rewrite !Hnone; [reflexivity|exact Hno|].
      intros H. apply in_app_or in H as [H|[H|[]]]; [exact (Hno H)|congruence].
Qed.

(** ** Positions in Lua source *)

(** On two position objects [compareLuaPositions] is the lexicographic
    comparison of (line, column), a missing field counting as 0: its sign
    tells which position comes first, swapping the arguments negates it,
    and "comes before" is transitive.  With a null argument it returns 0. *)
Theorem compareLuaPositions_lexicographic (a b c : LuaPos) :
  (compareLuaPositions (Some a) (Some b) < 0
   <-> or_zero (pos_line a) < or_zero (pos_line b)
       \/ (or_zero (pos_line a) = or_zero (pos_line b)
           /\ or_zero (pos_column a) < or_zero (pos_column b)))
  /\ (compareLuaPositions (Some a) (Some b) = 0
      <-> or_zero (pos_line a) = or_zero (pos_line b)
          /\ or_zero (pos_column a) = or_zero (pos_column b))
  /\ compareLuaPositions (Some b) (Some a) = - compareLuaPositions (Some a) (Some b)
  /\ (compareLuaPositions (Some a) (Some b) < 0 ->
      compareLuaPositions (Some b) (Some c) < 0 ->
      compareLuaPositions (Some a) (Some c) < 0)
  /\ compareLuaPositions None (Some a) = 0
  /\ compareLuaPositions (Some a) None = 0.
Proof.
  unfold compareLuaPositions. cbv zeta.
  destruct (Z.eqb_spec (or_zero (pos_line a)) (or_zero (pos_line b)));
  destruct (Z.eqb_spec (or_zero (pos_line b)) (or_zero (pos_line a)));
  destruct (Z.eqb_spec (or_zero (pos_line b)) (or_zero (pos_line c)));
  destruct (Z.eqb_spec (or_zero (pos_line a)) (or_zero (pos_line c)));
  cbn [negb]; repeat split; intros; try lia.
Qed.

(** ** Command history of the REPL input *)

Lemma jsstring_eqb_spec a : forall b, jsstring_eqb a b = true <-> a = b.
Proof.
  induction a as [|x a IH]; intros [|y b]; cbn [jsstring_eqb];
    try (split; [discriminate|discriminate]); [tauto|].
  rewrite andb_true_iff, Z.eqb_eq, IH. split.
  - intros [-> ->]. reflexivity.
  - intros [= -> ->]. split; reflexivity.
Qed.

Lemma history_at_in_range h i :
  0 <= i < Z.of_nat (length h) -> history_at h i = nth (Z.to_nat i) h [].
Proof.
  intros Hi. unfold history_at.
  destruct (Z.leb_spec 0 i); [|lia].
  destruct (Z.ltb_spec i (Z.of_nat (length h))); [|lia]. reflexivity.
Qed.

Lemma history_at_In h i :
  0 <= i < Z.of_nat (length h) -> In (history_at h i) h.
Proof.
  intros Hi. rewrite history_at_in_range by exact Hi. apply nth_In. lia.
Qed.

Lemma history_at_last h :
  h <> [] -> last h = Some (history_at h (Z.of_nat (length h) - 1)).
Proof.
  intros Hne. destruct (exists_last Hne) as (h' & c & ->).
  rewrite last_snoc, history_at_in_range
    by (rewrite length_app; cbn [length]; lia).
  rewrite length_app. cbn [length].
  replace (Z.to_nat (Z.of_nat (length h' + 1) - 1)) with (length h' + 0)%nat by lia.
  rewrite app_nth2_plus. reflexivity.
Qed.

Lemma adjacent_distinct_snoc h c :
  adjacent_distinct h -> last h <> Some c -> adjacent_distinct (h ++ [c]).
Proof.
  induction h as [|a h IH]; intros Hd Hl; [exact I|].
  destruct h as [|b h].
  - cbn. split; [|exact I]. cbn in Hl. congruence.
  - destruct Hd as [Hab Hd]. cbn [app adjacent_distinct].
    split; [exact Hab|]. apply IH; [exact Hd|exact Hl].
Qed.

(** Every step of the handler keeps the history state sound:
    [historyIndex] stays between -1 and the last index of the history, the
    history holds no empty command and no command twice in a row; and an
    arrow key only ever shows the text that was there, the saved input or
    a command of the history. *)
Theorem handleReplInput_invariant
    (focused isConnected writesSucceeded : bool) (key : ReplKey) (st : ReplState) :
  repl_invariant st ->
  repl_invariant (handleReplInput focused isConnected key st)
  /\ repl_invariant (handleReplInput_sent writesSucceeded st)
  /\ ((key = ArrowUp \/ key = ArrowDown) ->
      let st' := handleReplInput focused isConnected key st in
      commandHistory st' = commandHistory st
      /\ (replInputValue st' = replInputValue st
          \/ replInputValue st' = currentInput st
          \/ In (replInputValue st') (commandHistory st))).
Proof.
  destruct st as [h idx ci v]. unfold repl_invariant.
  cbn [commandHistory historyIndex currentInput replInputValue].
  intros (Hidx & Hne & Hd).
  split; [|split].
  - unfold handleReplInput.
    destruct focused; cbn [negb]; [|cbn; tauto].
    cbn [commandHistory historyIndex currentInput replInputValue].
    destruct key as [| |[|]|].
    + destruct (Z.eqb_spec (Z.of_nat (length h)) 0); [cbn; tauto|].
      destruct (Z.eqb_spec idx (-1));
        cbn [commandHistory historyIndex currentInput replInputValue];
        destruct (Z.ltb_spec idx (Z.of_nat (length h) - 1));
        cbn [commandHistory historyIndex currentInput replInputValue];
        (split; [lia|tauto]).
    + destruct (Z.eqb_spec idx (-1)); [cbn; tauto|].
      destruct (Z.eqb_spec (idx - 1) (-1));
        cbn [commandHistory historyIndex currentInput replInputValue];
        (split; [lia|tauto]).
    + destruct (Z.eqb_spec idx (-1)); cbn [negb];
        cbn [commandHistory historyIndex currentInput replInputValue];
        (split; [lia|tauto]).
    + destruct (js_truthy (js_trim v)) eqn:Ht; [|cbn; tauto].
      assert (Hcode : js_trim v <> []) by (destruct (js_trim v); discriminate).
      destruct (Z.eqb_spec (Z.of_nat (length h)) 0) as [E0|E0]; cbn [orb].
      * destruct h; [|cbn in E0; lia].
        destruct isConnected; cbn [negb commandHistory historyIndex app length];
          (split; [lia|]); (split; [repeat constructor; exact Hcode|exact I]).
      * destruct (jsstring_eqb (history_at h (Z.of_nat (length h) - 1)) (js_trim v))
          eqn:Eq; cbn [negb].
        -- destruct isConnected; cbn [negb commandHistory historyIndex];
             (split; [lia|tauto]).
        -- assert (Hlast : last h <> Some (js_trim v)).
           { rewrite history_at_last by (intros ->; cbn in E0; lia).
             intros [= H]. apply jsstring_eqb_spec in H. congruence. }
           destruct isConnected; cbn [negb commandHistory historyIndex];
             rewrite length_app; cbn [length];
             (split; [lia|]);
             (split; [apply Forall_app; split; [exact Hne|repeat constructor; exact Hcode]
                     |apply adjacent_distinct_snoc; assumption]).
    + destruct (Z.eqb_spec idx (-1)); cbn [negb];
        cbn [commandHistory historyIndex currentInput replInputValue];
        (split; [lia|tauto]).
  - unfold handleReplInput_sent. destruct writesSucceeded;
      cbn [commandHistory historyIndex]; (split; [lia|tauto]).
  - intros Hkey. unfold handleReplInput.
    destruct focused; cbn [negb]; [|cbn; tauto].
    cbn [commandHistory historyIndex currentInput replInputValue].
    destruct Hkey as [-> | ->].
    + destruct (Z.eqb_spec (Z.of_nat (length h)) 0); [cbn; tauto|].
      destruct (Z.eqb_spec idx (-1));
        cbn [commandHistory historyIndex currentInput replInputValue];
        destruct (Z.ltb_spec idx (Z.of_nat (length h) - 1));
        cbn [commandHistory historyIndex currentInput replInputValue];
        (split; [reflexivity|]); try tauto;
        right; right; apply history_at_In; lia.
    + destruct (Z.eqb_spec idx (-1)); [cbn; tauto|].
      destruct (Z.eqb_spec (idx - 1) (-1));
        cbn [commandHistory historyIndex currentInput replInputValue];
        (split; [reflexivity|]); try tauto.
      right; right; apply history_at_In; lia.
Qed.

Lemma handleReplInput_invariant_witness :
  let st := mkReplState [js "a"; js "b"] 0 (js "x") (js "b") in
  repl_invariant (handleReplInput true true ArrowUp st)
  /\ repl_invariant (handleReplInput_sent true st)
  /\ ((ArrowUp = ArrowUp \/ ArrowUp = ArrowDown) ->
      let st' := handleReplInput true true ArrowUp st in
      commandHistory st' = commandHistory st
      /\ (replInputValue st' = replInputValue st
          \/ replInputValue st' = currentInput st
          \/ In (replInputValue st') (commandHistory st))).
Proof.
  intros st.
  apply (handleReplInput_invariant true true true ArrowUp st).
  split; [cbn; lia|].
  split; [repeat constructor; discriminate|].
  cbn. split; [discriminate|exact I].
Defined.

Lemma press_zero key st : press 0 key st = st.
Proof. reflexivity. Qed.

Lemma press_succ n key st :
  press (S n) key st = handleReplInput true true key (press n key st).
Proof. reflexivity. Qed.

Lemma press_succ_r n key st :
  press (S n) key st = press n key (handleReplInput true true key st).
Proof. unfold press. apply Nat.iter_succ_r. Qed.

Lemma press_up h ci v (k : nat) :
  (1 <= k <= length h)%nat ->
  press k ArrowUp (mkReplState h (-1) ci v)
  = mkReplState h (Z.of_nat k - 1) v (nth (length h - k) h []).
Proof.
  induction k as [|k IH]; intros Hk; [lia|].
  destruct (Nat.eq_dec k 0%nat) as [->|Hk0].
  - rewrite press_succ, press_zero. unfold handleReplInput.
    cbn [negb commandHistory historyIndex currentInput replInputValue].
    destruct (Z.eqb_spec (Z.of_nat (length h)) 0); [lia|].
    change (-1 =? -1) with true.
    cbn [commandHistory historyIndex currentInput replInputValue].
    destruct (Z.ltb_spec (-1) (Z.of_nat (length h) - 1)); [|lia].
    rewrite history_at_in_range by lia.
    f_equal. f_equal. lia.
  - rewrite press_succ, IH by lia. unfold handleReplInput.
    cbn [negb commandHistory historyIndex currentInput replInputValue].
    destruct (Z.eqb_spec (Z.of_nat (length h)) 0); [lia|].
    destruct (Z.eqb_spec (Z.of_nat k - 1) (-1)); [lia|].
    cbn [commandHistory historyIndex currentInput replInputValue].
    destruct (Z.ltb_spec (Z.of_nat k - 1) (Z.of_nat (length h) - 1)); [|lia].
    rewrite history_at_in_range by lia.
    f_equal; [lia|]. f_equal. lia.
Qed.

Lemma press_down h ci (k : nat) : forall x,
  (1 <= k <= length h)%nat ->
  press k ArrowDown (mkReplState h (Z.of_nat k - 1) ci x)
  = mkReplState h (-1) ci ci.
Proof.
  induction k as [|k IH]; intros x Hk; [lia|].
  rewrite press_succ_r. unfold handleReplInput at 1.
  cbn [negb commandHistory historyIndex currentInput replInputValue].
  destruct (Z.eqb_spec (Z.of_nat (S k) - 1) (-1)); [lia|].
  destruct (Z.eqb_spec (Z.of_nat (S k) - 1 - 1) (-1)) as [E|E].
  - assert (k = 0%nat) as -> by lia. rewrite E. reflexivity.
  - replace (Z.of_nat (S k) - 1 - 1) with (Z.of_nat k - 1) by lia.
    apply IH. lia.
Qed.

(** Browsing the history and coming back: from a state that is not
    browsing, [k] presses of ArrowUp show the [k]-th most recent command,
    and [k] presses of ArrowDown after them restore the text that was being
    typed and end the browsing, leaving the history as it was. *)
Theorem handleReplInput_up_down (st : ReplState) (k : nat) :
  historyIndex st = -1 ->
  (1 <= k <= length (commandHistory st))%nat ->
  historyIndex (press k ArrowUp st) = Z.of_nat k - 1
  /\ replInputValue (press k ArrowUp st)
     = nth (length (commandHistory st) - k) (commandHistory st) []
  /\ press k ArrowDown (press k ArrowUp st)
     = mkReplState (commandHistory st) (-1) (replInputValue st) (replInputValue st).
Proof.
  destruct st as [h idx ci v].
  cbn [commandHistory historyIndex currentInput replInputValue].
  intros -> Hk. rewrite press_up by exact Hk.
  cbn [commandHistory historyIndex currentInput replInputValue].
  split; [reflexivity|]. split; [reflexivity|].
  apply press_down. exact Hk.
Qed.

Lemma handleReplInput_up_down_witness :
  let st := mkReplState [js "x = 1"; js "print(x)"; js "x = 2"] (-1) [] (js "pri") in
  historyIndex (press 2 ArrowUp st) = Z.of_nat 2 - 1
  /\ replInputValue (press 2 ArrowUp st)
     = nth (length (commandHistory st) - 2) (commandHistory st) []
  /\ press 2 ArrowDown (press 2 ArrowUp st)
     = mkReplState (commandHistory st) (-1) (replInputValue st) (replInputValue st).
Proof.
  intros st. apply (handleReplInput_up_down st 2); [reflexivity|cbn; lia].
Defined.

(** ** The further models on concrete inputs *)

Example startReading_chunk_example :
  startReading_chunk true (js "ab")
    (js "c" ++ [0x0A; 0x0A] ++ js "de" ++ [0x0A] ++ js "f")
  = Ok (js "f", [js "abc"; js "de"]).
Proof. reflexivity. Qed.

Example js_split_lf_empty : js_split_lf [] = [[]].
Proof. reflexivity. Qed.

Example prepareCodeForCrow_single_line :
  prepareCodeForCrow (js "x = 1") = js "x = 1".
Proof. reflexivity. Qed.

Example prepareCodeForCrow_multi_line :
  prepareCodeForCrow (js "a" ++ [0x0A] ++ js "b" ++ [0x0A; 0x0A])
  = FENCE ++ [0x0A] ++ js "a" ++ [0x0A] ++ js "b" ++ [0x0A] ++ FENCE.
Proof. reflexivity. Qed.

Example sendToCrow_writes_example :
  sendToCrow_writes (js "a" ++ [0x0D; 0x0A] ++ js "b")
  = [FENCE ++ [0x0D; 0x0A]; js "a" ++ [0x0D; 0x0A];
     js "b" ++ [0x0D; 0x0A]; FENCE ++ [0x0D; 0x0A]].
Proof. reflexivity. Qed.

Example getActiveParameter_nested :
  getActiveParameter (js "foo(1, bar(2), ") = 1
  /\ getActiveParameter (js "foo(1, 2, ") = 2
  /\ getActiveParameter (js "foo") = 0.
Proof. repeat split; reflexivity. Qed.

Example compareLuaPositions_example :
  compareLuaPositions (Some (mkLuaPos (Some 3) (Some 7)))
                      (Some (mkLuaPos (Some 3) None)) = 7
  /\ compareLuaPositions None (Some (mkLuaPos (Some 3) (Some 7))) = 0.
Proof. split; reflexivity. Qed.

Example handleReplInput_enter_offline :
  handleReplInput true false (Enter false)
    (mkReplState [js "a"] 0 (js "typed") (js "  b  "))
  = mkReplState [js "a"; js "b"] (-1) [] [].
Proof. reflexivity. Qed.

Example handleReplInput_enter_repeat :
  commandHistory
    (handleReplInput true true (Enter false)
       (mkReplState [js "a"] (-1) [] (js "a")))
  = [js "a"].
Proof. reflexivity. Qed.

(** ** Output of the device *)

Lemma js_startsWith_spec s : forall p,
  js_startsWith s p = true <-> exists t, s = p ++ t.
Proof.
  induction s as [|u s IH]; intros [|c p]; cbn [js_startsWith].
  - split; [exists []; reflexivity|reflexivity].
  - split; [discriminate|]. intros [t Ht]. discriminate Ht.
  - split; [exists (u :: s); reflexivity|reflexivity].
  - rewrite andb_true_iff, Z.eqb_eq, IH. split.
    + intros [-> [t ->]]. exists t. reflexivity.
    + intros [t Ht]. injection Ht as -> ->. split; [reflexivity|exists t; reflexivity].
Qed.

Lemma js_startsWith_app p t : js_startsWith (p ++ t) p = true.
Proof. apply js_startsWith_spec. exists t. reflexivity. Qed.

Lemma js_indexOf_str_range p s : -1 <= js_indexOf_str p s.
Proof.
  induction s as [|u s IH]; cbn [js_indexOf_str].
  - destruct (js_startsWith [] p); lia.
  - destruct (js_startsWith (u :: s) p); [lia|].
    destruct (js_indexOf_str p s =? -1); lia.
Qed.

Lemma js_indexOf_str_absent p s :
  js_indexOf_str p s = -1 <-> ~ occurs_in p s.
Proof.
  induction s as [|u s IH]; cbn [js_indexOf_str].
  - destruct (js_startsWith [] p) eqn:E.
    + split; [discriminate|]. intros H. exfalso. apply H.
      apply js_startsWith_spec in E as [t Ht]. exists [], t. exact Ht.
    + split; [|reflexivity]. intros _ (a & b & H).
      symmetry in H. apply app_eq_nil in H as [-> H].
      apply app_eq_nil in H as [-> _].
      discriminate E.
  - destruct (js_startsWith (u :: s) p) eqn:E.
    + split; [discriminate|]. intros H. exfalso. apply H.
      apply js_startsWith_spec in E as [t Ht]. exists [], t. exact Ht.
    + pose proof (js_indexOf_str_range p s) as Hr.
      destruct (Z.eqb_spec (js_indexOf_str p s) (-1)) as [Hs|Hs].
      * split; [|reflexivity]. intros _ (a & b & H).
        destruct a as [|x a].
        -- cbn [app] in H.
           assert (js_startsWith (u :: s) p = true) as E'
             by (apply js_startsWith_spec; exists b; exact H).
           congruence.
        -- cbn [app] in H. injection H as _ H.
           apply (proj1 IH Hs). exists a, b. exact H.
      * split; [lia|]. intros H. exfalso. apply Hs, IH.
        intros (a & b & Hab). apply H. exists (u :: a), b.
        cbn [app]. f_equal. exact Hab.
Qed.

Lemma js_indexOf_str_found p s :
  js_indexOf_str p s <> -1 -> occurs_in p s.
Proof.
  induction s as [|u s IH]; cbn [js_indexOf_str].
  - destruct (js_startsWith [] p) eqn:E; [|congruence].
    intros _. apply js_startsWith_spec in E as [t Ht]. exists [], t. exact Ht.
  - destruct (js_startsWith (u :: s) p) eqn:E.
    + intros _. apply js_startsWith_spec in E as [t Ht]. exists [], t. exact Ht.
    + destruct (Z.eqb_spec (js_indexOf_str p s) (-1)) as [e|e]; [congruence|].
      intros _. destruct (IH e) as (a & b & Hab).
      exists (u :: a), b. cbn [app]. f_equal. exact Hab.
Qed.

Lemma js_includes_true p s : js_includes p s = true <-> occurs_in p s.
Proof.
  unfold js_includes.
  destruct (Z.eqb_spec (js_indexOf_str p s) (-1)) as [H|H]; cbn [negb].
  - split; [discriminate|]. intros Ho. exfalso.
    exact (proj1 (js_indexOf_str_absent p s) H Ho).
  - split; [|reflexivity]. intros _. apply js_indexOf_str_found. exact H.
Qed.

Lemma js_includes_false p s : js_includes p s = false <-> ~ occurs_in p s.
Proof.
  rewrite <- js_includes_true. destruct (js_includes p s); split; congruence.
Qed.

Lemma occurs_in_refl p : occurs_in p p.
Proof. exists [], []. rewrite app_nil_r. reflexivity. Qed.

Lemma occurs_in_trans p s t : occurs_in p s -> occurs_in s t -> occurs_in p t.
Proof.
  intros (a & b & ->) (c & d & ->). exists (c ++ a), (b ++ d).
  rewrite <- !app_assoc. reflexivity.
Qed.

Lemma occurs_in_In p s x : occurs_in p s -> In x p -> In x s.
Proof.
  intros (a & b & ->) H. apply in_or_app. right. apply in_or_app. left. exact H.
Qed.

Lemma occurs_in_app_l p x y : occurs_in p x -> occurs_in p (x ++ y).
Proof.
  intros (a & b & ->). exists a, (b ++ y). rewrite <- !app_assoc. reflexivity.
Qed.

Lemma occurs_in_app_r p x y : occurs_in p y -> occurs_in p (x ++ y).
Proof.
  intros (a & b & ->). exists (x ++ a), b. rewrite <- !app_assoc. reflexivity.
Qed.

(** An occurrence of [p] in [x ++ c :: y] lies in [x], lies in [y], or
    covers the [c] in the middle. *)
Lemma occurs_in_app_cases p x c y :
  occurs_in p (x ++ c :: y) ->
  occurs_in p x \/ occurs_in p y
  \/ exists l m, p = l ++ c :: m /\ (exists a, x = a ++ l) /\ (exists b, y = m ++ b).
Proof.
  intros (a & b & H). symmetry in H.
  apply app_eq_app in H as [l [[Ha Hy]|[Hx Hp]]].
  - destruct l as [|c' l].
    + cbn [app] in Hy. rewrite app_nil_r in Ha. subst a.
      destruct p as [|c' p].
      * left. exists x, []. rewrite app_nil_r. reflexivity.
      * cbn [app] in Hy. injection Hy as <- Hy.
        right. right. exists [], p. split; [reflexivity|]. split.
        -- exists x. rewrite app_nil_r. reflexivity.
        -- exists b. exact Hy.
    + cbn [app] in Hy. injection Hy as <- Hy.
      right. left. exists l, b. exact Hy.
  - apply app_eq_app in Hp as [m [[Hp Hy]|[Hl Hb]]].
    + destruct m as [|c' m].
      * rewrite app_nil_r in Hp. subst l. left. exists a, []. 
        rewrite app_nil_r. exact Hx.
      * cbn [app] in Hy. injection Hy as <- Hy.
        right. right. exists l, m. split; [exact Hp|]. split.
        -- exists a. exact Hx.
        -- exists b. exact Hy.
    + left. exists a, m. rewrite Hx, Hl. reflexivity.
Qed.

Lemma occurs_in_app_sep p x c y :
  ~ In c p -> p <> [] ->
  occurs_in p (x ++ c :: y) -> occurs_in p x \/ occurs_in p y.
Proof.
  intros Hc Hp H.
  apply occurs_in_app_cases in H as [H|[H|(l & m & -> & _)]]; [tauto|tauto|].
  exfalso. apply Hc. apply in_or_app. right. left. reflexivity.
Qed.

Lemma occurs_in_app_last q x c y :
  ~ In c q ->
  occurs_in (q ++ [c]) (x ++ c :: y) ->
  occurs_in (q ++ [c]) (x ++ [c]) \/ occurs_in (q ++ [c]) y.
Proof.
  intros Hc H.
  apply occurs_in_app_cases in H as [H|[H|(l & m & Hp & [a Hx] & _)]].
  - left. apply occurs_in_app_l. exact H.
  - right. exact H.
  - left. destruct m as [|c' m].
    + apply app_inj_tail in Hp as [-> _].
      exists a, []. rewrite app_nil_r, Hx, <- app_assoc. reflexivity.
    + exfalso. apply Hc.
      destruct (@exists_last _ (c' :: m)) as (m0 & z & Hm); [discriminate|].
      rewrite Hm in Hp.
      assert (Hq : q = l ++ c :: m0).
      { change (l ++ c :: m0 ++ [z]) with (l ++ (c :: m0) ++ [z]) in Hp.
        rewrite app_assoc in Hp. apply app_inj_tail in Hp as [Hq _]. exact Hq. }
      rewrite Hq. apply in_or_app. right. left. reflexivity.
Qed.

Lemma js_join_cons sep a l :
  l <> [] -> js_join sep (a :: l) = a ++ sep ++ js_join sep l.
Proof. destruct l; [congruence|reflexivity]. Qed.

Lemma js_join_cons_to_head sep u l :
  l <> [] -> js_join sep (cons_to_head u l) = u :: js_join sep l.
Proof.
  destruct l as [|a [|b l]]; [congruence|reflexivity|reflexivity].
Qed.

Lemma cons_to_head_not_nil u l : cons_to_head u l <> [].
Proof. destruct l; discriminate. Qed.

Lemma js_split_char_not_nil c s : js_split_char c s <> [].
Proof.
  destruct s as [|u s]; cbn [js_split_char]; [discriminate|].
  destruct (u =? c); [discriminate|apply cons_to_head_not_nil].
Qed.

(** Splitting at a character and joining with it gives the string back. *)
Lemma js_split_char_join c s : js_join [c] (js_split_char c s) = s.
Proof.
  induction s as [|u s IH]; [reflexivity|].
  cbn [js_split_char]. destruct (Z.eqb_spec u c) as [->|Hu].
  - rewrite js_join_cons by apply js_split_char_not_nil.
    rewrite IH. reflexivity.
  - rewrite js_join_cons_to_head by apply js_split_char_not_nil.
    rewrite IH. reflexivity.
Qed.

Lemma split_carets_not_nil s : split_carets s <> [].
Proof.
  destruct s as [|u [|v s]]; cbn [split_carets]; [discriminate|discriminate|].
  destruct ((u =? 0x5E) && (v =? 0x5E)); [discriminate|apply cons_to_head_not_nil].
Qed.

Lemma split_carets_cons2 u v s :
  split_carets (u :: v :: s)
  = if (u =? 0x5E) && (v =? 0x5E) then [] :: split_carets s
    else cons_to_head u (split_carets (v :: s)).
Proof. reflexivity. Qed.

Lemma split_carets_join s : js_join [0x5E; 0x5E] (split_carets s) = s.
Proof.
  enough (H : js_join [0x5E; 0x5E] (split_carets s) = s
              /\ forall u, js_join [0x5E; 0x5E] (split_carets (u :: s)) = u :: s)
    by exact (proj1 H).
  induction s as [|v s [IH1 IH2]]; [split; reflexivity|].
  split; [apply IH2|]. intros u.
  rewrite split_carets_cons2.
  destruct (Z.eqb_spec u 0x5E) as [->|Hu]; cbn [andb].
  - destruct (Z.eqb_spec v 0x5E) as [->|Hv].
    + rewrite js_join_cons by apply split_carets_not_nil.
      rewrite IH1. reflexivity.
    + rewrite js_join_cons_to_head by apply split_carets_not_nil.
      rewrite IH2. reflexivity.
  - rewrite js_join_cons_to_head by apply split_carets_not_nil.
    rewrite IH2. reflexivity.
Qed.

Lemma In_js_join_occurs sep a l : In a l -> occurs_in a (js_join sep l).
Proof.
  induction l as [|b l IH]; intros H; [destruct H|].
  destruct l as [|b' l].
  - destruct H as [->|[]]. apply occurs_in_refl.
  - rewrite js_join_cons by discriminate.
    destruct H as [->|H].
    + apply occurs_in_app_l, occurs_in_refl.
    + apply occurs_in_app_r, occurs_in_app_r, IH. exact H.
Qed.

Lemma In_js_join sep l x :
  In x (js_join sep l) -> In x sep \/ exists a, In a l /\ In x a.
Proof.
  induction l as [|b l IH]; intros H; [destruct H|].
  destruct l as [|b' l].
  - right. exists b. split; [left; reflexivity|exact H].
  - rewrite js_join_cons in H by discriminate.
    apply in_app_or in H as [H|H].
    + right. exists b. split; [left; reflexivity|exact H].
    + apply in_app_or in H as [H|H]; [left; exact H|].
      destruct (IH H) as [H'|(a & Ha & Hx)]; [left; exact H'|].
      right. exists a. split; [right; exact Ha|exact Hx].
Qed.

Lemma js_trim_occurs a : occurs_in (js_trim a) a.
Proof.
  destruct (trim_start_suffix a) as [p Hp].
  destruct (js_trim_prefix a) as [q Hq].
  exists p, q. rewrite <- Hq. exact Hp.
Qed.

Lemma span_spec p s :
  s = fst (span p s) ++ snd (span p s)
  /\ Forall (fun u => p u = true) (fst (span p s))
  /\ (forall u, head (snd (span p s)) = Some u -> p u = false).
Proof.
  induction s as [|u s (IH1 & IH2 & IH3)]; cbn [span].
  - repeat split; [constructor|discriminate].
  - destruct (p u) eqn:E.
    + destruct (span p s) as [a b]. cbn [fst snd] in *.
      repeat split;
        [cbn [app]; f_equal; exact IH1|constructor; assumption|exact IH3].
    + cbn [fst snd]. repeat split; [constructor|].
      intros v Hv. cbn [head] in Hv. congruence.
Qed.

Lemma span_app p a u b :
  Forall (fun v => p v = true) a -> p u = false ->
  span p (a ++ u :: b) = (a, u :: b).
Proof.
  intros Ha Hu. induction Ha as [|v a Hv _ IH]; cbn [app span].
  - rewrite Hu. reflexivity.
  - rewrite Hv, IH. reflexivity.
Qed.

Lemma match_event_Some part event argsStr :
  match_event part = Some (event, argsStr) ->
  event <> []
  /\ exists tail, part = event ++ 0x28 :: argsStr ++ 0x29 :: tail.
Proof.
  unfold match_event. intros H.
  destruct (span_spec is_word_char part) as (H1 & _ & _).
  destruct (span is_word_char part) as [ev rest]. cbn [fst snd] in H1.
  destruct ev as [|e ev]; [discriminate|].
  destruct rest as [|u rest]; [discriminate|].
  destruct (Z.eqb_spec u 0x28) as [->|]; [|discriminate].
  destruct (span_spec (fun v => negb (v =? 0x29)) rest) as (H2 & _ & _).
  destruct (span (fun v => negb (v =? 0x29)) rest) as [ar rest'].
  cbn [fst snd] in H2.
  destruct rest' as [|v rest']; [discriminate|].
  destruct (Z.eqb_spec v 0x29) as [->|]; [|discriminate].
  injection H as <- <-. split; [discriminate|].
  exists rest'. rewrite H1 at 1. rewrite H2 at 1. reflexivity.
Qed.

Lemma match_event_line event argsStr tail :
  event <> [] -> forallb is_word_char event = true -> ~ In 0x29 argsStr ->
  match_event (event ++ 0x28 :: argsStr ++ 0x29 :: tail) = Some (event, argsStr).
Proof.
  intros He Hw Ha. unfold match_event.
  rewrite span_app.
  - destruct event as [|e ev]; [congruence|].
    rewrite Z.eqb_refl. rewrite span_app.
    + rewrite Z.eqb_refl. reflexivity.
    + apply List.Forall_forall. intros v Hv.
      destruct (Z.eqb_spec v 0x29) as [->|]; [contradiction|reflexivity].
    + reflexivity.
  - apply List.Forall_forall. intros v Hv.
    rewrite forallb_forall in Hw. apply Hw. exact Hv.
  - reflexivity.
Qed.

Lemma occurs_in_nil p : occurs_in p [] -> p = [].
Proof.
  intros (a & b & H). symmetry in H.
  apply app_eq_nil in H as [_ H]. apply app_eq_nil in H as [H _]. exact H.
Qed.

Lemma remove_cr_In s x : In x (remove_cr s) -> In x s /\ x <> 0x0D.
Proof.
  unfold remove_cr. rewrite List.filter_In. intros [H1 H2]. split; [exact H1|].
  intros ->. discriminate H2.
Qed.

Lemma remove_cr_id s : ~ In 0x0D s -> remove_cr s = s.
Proof.
  induction s as [|u s IH]; intros H; [reflexivity|].
  unfold remove_cr. cbn [List.filter].
  destruct (Z.eqb_spec u 0x0D) as [->|Hu]; cbn [negb].
  - exfalso. apply H. left. reflexivity.
  - f_equal. apply IH. intros Hs. apply H. right. exact Hs.
Qed.

Lemma is_word_char_codes u :
  is_word_char u = true ->
  u <> 0x0D /\ u <> 0x20 /\ u <> 0x28 /\ u <> 0x29 /\ u <> 0x2C /\ u <> 0x5E
  /\ is_js_space u = false.
Proof.
  unfold is_word_char, is_js_space. intros H.
  repeat (apply orb_true_iff in H as [H|H]);
    repeat (apply andb_true_iff in H as [? H]);
    repeat match goal with
           | H : (_ <=? _) = true |- _ => apply Z.leb_le in H
           | H : (_ =? _) = true |- _ => apply Z.eqb_eq in H
           end;
    (repeat split; [lia..|]);
    repeat (apply orb_false_iff; split);
    try (apply Z.eqb_neq; lia);
    apply andb_false_iff; left; apply Z.leb_gt; lia.
Qed.

(** The text [pubview(] does not arise by joining strings that are free
    of it with a comma and a space. *)
Lemma pubview_free_join l :
  Forall (fun a => ~ occurs_in (js "pubview(") a) l ->
  ~ occurs_in (js "pubview(") (js_join (js ", ") l).
Proof.
  induction l as [|a l IH]; intros Hl.
  - intros H. apply occurs_in_nil in H. discriminate H.
  - apply Forall_cons in Hl as [Ha Hl]. destruct l as [|b l]; [exact Ha|].
    rewrite js_join_cons by discriminate.
    change (js ", " ++ ?x) with (0x2C :: ([] ++ 0x20 :: x)).
    intros H.
    apply occurs_in_app_sep in H as [H|H];
      [exact (Ha H)| |vm_compute; intuition discriminate|discriminate].
    apply occurs_in_app_sep in H as [H|H];
      [|exact (IH Hl H)|vm_compute; intuition discriminate|discriminate].
    apply occurs_in_nil in H. discriminate H.
Qed.

Lemma pubview_free_echo sep_join event :
  ~ occurs_in (js "pubview(") (event ++ [0x28]) ->
  ~ occurs_in (js "pubview(") sep_join ->
  ~ occurs_in (js "pubview(") (js "^^" ++ event ++ js "(" ++ sep_join ++ js ")").
Proof.
  intros He Hj H.
  change (js "^^" ++ ?x) with ([] ++ 0x5E :: ([] ++ 0x5E :: x)) in H.
  apply occurs_in_app_sep in H as [H|H];
    [apply occurs_in_nil in H; discriminate H| 
    |vm_compute; intuition discriminate|discriminate].
  apply occurs_in_app_sep in H as [H|H];
    [apply occurs_in_nil in H; discriminate H| 
    |vm_compute; intuition discriminate|discriminate].
  change (js "(" ++ ?x) with (0x28 :: x) in H.
  change (js "pubview(") with (js "pubview" ++ [0x28]) in H.
  apply occurs_in_app_last in H as [H|H];
    [exact (He H)| |vm_compute; intuition discriminate].
  change (js ")") with [0x29] in H.
  change (js "pubview" ++ [0x28]) with (js "pubview(") in H.
  apply occurs_in_app_sep in H as [H|H];
    [exact (Hj H)| |vm_compute; intuition discriminate|discriminate].
  apply occurs_in_nil in H. discriminate H.
Qed.

Lemma In_event_args argsStr a :
  In a (event_args argsStr) -> occurs_in a argsStr.
Proof.
  unfold event_args. destruct (js_truthy argsStr); [|intros []].
  rewrite in_map_iff. intros (a' & <- & Ha').
  eapply occurs_in_trans; [apply js_trim_occurs|].
  rewrite <- (js_split_char_join 0x2C argsStr).
  apply In_js_join_occurs. exact Ha'.
Qed.

Lemma handleCrowEvent_effects event args :
  Forall (fun e =>
            match e with
            | OutputLine text =>
                text = js "^^" ++ event ++ js "(" ++ js_join (js ", ") args
                       ++ js ")"
            | UpdateStreamMonitor channel _ => channel = 1 \/ channel = 2
            end) (handleCrowEvent event args).
Proof.
  unfold handleCrowEvent.
  destruct (jsstring_eqb event (js "pubview")); [constructor|].
  destruct (jsstring_eqb event (js "stream") || jsstring_eqb event (js "change")).
  - destruct (2 <=? Z.of_nat (length args)); [|constructor].
    destruct (parseInt (nth 0 args [])) as [channel|]; [|constructor].
    destruct (Z.eqb_spec channel 1) as [->|H1]; cbn [orb].
    + constructor; [left; reflexivity|constructor].
    + destruct (Z.eqb_spec channel 2) as [->|H2]; [|constructor].
      constructor; [right; reflexivity|constructor].
  - destruct (jsstring_eqb event (js "pupdate")); [constructor|].
    constructor; [reflexivity|constructor].
Qed.

Lemma handleCrowOutput_part_effects cleaned part :
  ~ In 0x0D cleaned ->
  ~ occurs_in (js "pubview(") cleaned ->
  occurs_in part cleaned ->
  Forall (fun e =>
            match e with
            | OutputLine text =>
                text <> [] /\ ~ In 0x0D text
                /\ ~ occurs_in (js "pubview(") text
            | UpdateStreamMonitor channel _ => channel = 1 \/ channel = 2
            end) (handleCrowOutput_part part).
Proof.
  intros Hcr Hfree Hpart. unfold handleCrowOutput_part.
  destruct (js_truthy (js_trim part)) eqn:Et; cbn [negb]; [|constructor].
  destruct (match_event part) as [[event argsStr]|] eqn:Em.
  - apply match_event_Some in Em as (Hev & tail & Hp).
    assert (Hevent : occurs_in (event ++ [0x28]) cleaned).
    { eapply occurs_in_trans; [|exact Hpart].
      exists [], (argsStr ++ 0x29 :: tail). rewrite Hp, <- app_assoc. reflexivity. }
    assert (Hargs : occurs_in argsStr cleaned).
    { eapply occurs_in_trans; [|exact Hpart].
      exists (event ++ [0x28]), (0x29 :: tail).
      rewrite Hp, <- app_assoc. reflexivity. }
    eapply Forall_impl; [apply handleCrowEvent_effects|].
    intros [text|channel valueText]; [|tauto].
    cbn beta iota. intros ->. split; [discriminate|]. split.
    + intros H.
      change (js "^^" ++ ?x) with (0x5E :: 0x5E :: x) in H.
      destruct H as [H|[H|H]]; [discriminate H|discriminate H|].
      apply in_app_or in H as [H|H].
      { apply Hcr. eapply occurs_in_In; [exact Hevent|].
        apply in_or_app. left. exact H. }
      apply in_app_or in H as [H|H]; [destruct H as [H|[]]; discriminate H|].
      apply in_app_or in H as [H|H]; [|destruct H as [H|[]]; discriminate H].
      apply In_js_join in H as [H|(a & Ha & Hx)].
      { destruct H as [H|[H|[]]]; discriminate H. }
      apply Hcr. eapply occurs_in_In; [exact Hargs|].
      eapply occurs_in_In; [apply In_event_args; exact Ha|exact Hx].
    + apply pubview_free_echo.
      * intros H. apply Hfree. eapply occurs_in_trans; [exact H|exact Hevent].
      * apply pubview_free_join. apply List.Forall_forall. intros a Ha H.
        apply Hfree. eapply occurs_in_trans; [exact H|].
        eapply occurs_in_trans; [apply In_event_args; exact Ha|exact Hargs].
  - constructor; [|constructor]. split; [|split].
    + intros ->. discriminate Et.
    + intros H. apply Hcr. eapply occurs_in_In; [exact Hpart|exact H].
    + intros H. apply Hfree. eapply occurs_in_trans; [exact H|exact Hpart].
Qed.

(** Whatever the device sends, the page is never shown an empty line, a
    carriage return or the text [pubview(], and a stream sample only ever
    goes to monitor 1 or monitor 2. *)
Theorem handleCrowOutput_effects_clean (data : jsstring) :
  Forall (fun e =>
            match e with
            | OutputLine text =>
                text <> [] /\ ~ In 0x0D text
                /\ js_includes (js "pubview(") text = false
            | UpdateStreamMonitor channel _ => channel = 1 \/ channel = 2
            end) (handleCrowOutput data).
Proof.
  unfold handleCrowOutput. cbv zeta.
  assert (Hcr : ~ In 0x0D (remove_cr data)).
  { intros H. apply remove_cr_In in H as [_ H]. congruence. }
  destruct (js_truthy (remove_cr data)) eqn:Et; cbn [negb]; [|constructor].
  destruct (js_includes (js "pubview(") (remove_cr data)) eqn:Ep; [constructor|].
  assert (Hfree := proj1 (js_includes_false _ _) Ep).
  destruct (js_includes (js "^^") (remove_cr data)).
  - apply List.Forall_forall. intros e He.
    apply in_flat_map in He as (part & Hpart & He).
    assert (Hocc : occurs_in part (remove_cr data)).
    { rewrite <- (split_carets_join (remove_cr data)).
      apply In_js_join_occurs. exact Hpart. }
    pose proof (handleCrowOutput_part_effects _ _ Hcr Hfree Hocc) as Hall.
    rewrite List.Forall_forall in Hall. specialize (Hall e He).
    destruct e as [text|channel valueText]; [|exact Hall].
    destruct Hall as (H1 & H2 & H3).
    repeat split; [exact H1|exact H2|apply js_includes_false; exact H3].
  - constructor; [|constructor]. repeat split; [|exact Hcr|exact Ep].
    intros E. rewrite E in Et. discriminate Et.
Qed.

Lemma js_split_char_cut c a rest :
  ~ In c a -> js_split_char c (a ++ c :: rest) = a :: js_split_char c rest.
Proof.
  induction a as [|u a IH]; intros H; cbn [app js_split_char].
  - rewrite Z.eqb_refl. reflexivity.
  - destruct (Z.eqb_spec u c) as [->|Hu]; [exfalso; apply H; left; reflexivity|].
    rewrite IH by (intros Ha; apply H; right; exact Ha). reflexivity.
Qed.

Lemma js_split_char_none c a : ~ In c a -> js_split_char c a = [a].
Proof.
  induction a as [|u a IH]; intros H; cbn [js_split_char]; [reflexivity|].
  destruct (Z.eqb_spec u c) as [->|Hu]; [exfalso; apply H; left; reflexivity|].
  rewrite IH by (intros Ha; apply H; right; exact Ha). reflexivity.
Qed.

(** Joining with a character that the strings do not hold, and splitting
    at it, gives the strings back. *)
Lemma js_split_char_of_join c l :
  l <> [] -> Forall (fun a => ~ In c a) l ->
  js_split_char c (js_join [c] l) = l.
Proof.
  induction l as [|a l IH]; intros Hne Hl; [congruence|].
  apply Forall_cons in Hl as [Ha Hl]. destruct l as [|b l].
  - apply js_split_char_none. exact Ha.
  - rewrite js_join_cons by discriminate. cbn [app].
    rewrite js_split_char_cut by exact Ha.
    rewrite IH by (discriminate || exact Hl). reflexivity.
Qed.

Lemma split_carets_none s : ~ In 0x5E s -> split_carets s = [s].
Proof.
  induction s as [|u s IH]; intros H; [reflexivity|].
  destruct s as [|v s]; [reflexivity|].
  rewrite split_carets_cons2.
  destruct (Z.eqb_spec u 0x5E) as [->|Hu]; [exfalso; apply H; left; reflexivity|].
  cbn [andb]. rewrite IH by (intros Ha; apply H; right; exact Ha). reflexivity.
Qed.

Lemma js_trim_id s :
  (forall u, head s = Some u -> is_js_space u = false) ->
  (forall u, last s = Some u -> is_js_space u = false) ->
  js_trim s = s.
Proof.
  intros Hh Hl. unfold js_trim.
  rewrite (trim_start_id s) by exact Hh.
  rewrite trim_start_id; [apply rev_involutive|].
  intros u Hu. apply Hl. rewrite <- Hu.
  rewrite <- (rev_involutive s) at 1.
  destruct (rev s) as [|v t]; [reflexivity|].
  cbn [rev head]. apply last_snoc.
Qed.

Lemma js_trim_idem s : js_trim (js_trim s) = js_trim s.
Proof. apply js_trim_id; [apply js_trim_head|apply js_trim_last]. Qed.

Lemma js_trim_space s : js_trim (0x20 :: s) = js_trim s.
Proof. reflexivity. Qed.

Lemma js_join_nil_inv sep l :
  sep <> [] -> js_join sep l = [] -> l = [] \/ l = [[]].
Proof.
  intros Hsep H. destruct l as [|a [|b l]]; [left; reflexivity| |].
  - right. cbn [js_join] in H. rewrite H. reflexivity.
  - rewrite js_join_cons in H by discriminate.
    apply app_eq_nil in H as [_ H]. apply app_eq_nil in H as [H _].
    congruence.
Qed.

Lemma jsstring_eqb_false a b : a <> b -> jsstring_eqb a b = false.
Proof.
  intros H. destruct (jsstring_eqb a b) eqn:E; [|reflexivity].
  apply jsstring_eqb_spec in E. contradiction.
Qed.

Lemma handleCrowEvent_other event args :
  ~ In event known_events ->
  handleCrowEvent event args
  = [OutputLine (event_line (js ", ") event args)].
Proof.
  intros H. unfold handleCrowEvent, known_events in *. cbn [In] in H.
  rewrite !jsstring_eqb_false by (intros E; apply H; rewrite E; tauto).
  reflexivity.
Qed.

(** How a line that carries one event is handled. *)
Lemma handleCrowOutput_event_line event raw :
  event <> [] ->
  forallb is_word_char event = true ->
  ~ In event known_events ->
  Forall event_arg_ok raw ->
  js_includes (js "pubview(") (event_line (js ",") event raw) = false ->
  handleCrowOutput (event_line (js ",") event raw)
  = [OutputLine (event_line (js ", ") event (map js_trim raw))].
Proof.
  intros Hne Hw Hknown Hraw Hfree.
  assert (Hword : forall u, In u event -> is_word_char u = true).
  { intros u Hu. rewrite forallb_forall in Hw. apply Hw. exact Hu. }
  assert (Hj : forall c, (forall a, In a raw -> ~ In c a) -> c <> 0x2C ->
                         ~ In c (js_join (js ",") raw)).
  { intros c Hc Hcomma H. apply In_js_join in H as [H|(a & Ha & Hx)].
    - change (js ",") with [0x2C] in H. destruct H as [H|[]]. congruence.
    - exact (Hc a Ha Hx). }
  rewrite List.Forall_forall in Hraw.
  assert (Hrest : forall c, (forall a, In a raw -> ~ In c a) ->
                    c <> 0x2C -> c <> 0x28 -> c <> 0x29 ->
                    (forall u, is_word_char u = true -> u <> c) ->
                    ~ In c (event ++ js "(" ++ js_join (js ",") raw ++ js ")")).
  { intros c Hc H1 H2 H3 H4 H.
    change (js "(") with [0x28] in H. change (js ")") with [0x29] in H.
    apply in_app_or in H as [H|H]; [exact (H4 c (Hword c H) eq_refl)|].
    apply in_app_or in H as [H|H]; [destruct H as [H|[]]; congruence|].
    apply in_app_or in H as [H|H]; [exact (Hj c Hc H1 H)|].
    destruct H as [H|[]]. congruence. }
  unfold handleCrowOutput. cbv zeta.
  rewrite remove_cr_id.
  2:{ unfold event_line. intros H.
      change (js "^^" ++ ?x) with (0x5E :: 0x5E :: x) in H.
      destruct H as [H|[H|H]]; [discriminate H|discriminate H|].
      revert H. apply Hrest; try discriminate.
      - intros a Ha. apply (Hraw a Ha).
      - intros u Hu. apply is_word_char_codes in Hu. tauto. }
  rewrite Hfree.
  assert (Hc : js_includes (js "^^") (event_line (js ",") event raw) = true).
  { apply js_includes_true. exists [], (event ++ js "(" ++ js_join (js ",") raw ++ js ")").
    reflexivity. }
  rewrite Hc. clear Hc.
  change (js_truthy (event_line (js ",") event raw)) with true. cbn [negb].
  unfold event_line at 1.
  change (js "^^" ++ ?x) with (0x5E :: 0x5E :: x).
  destruct event as [|e event]; [congruence|].
  change ((e :: event) ++ ?x) with (e :: (event ++ x)).
  set (rest := e :: event ++ js "(" ++ js_join (js ",") raw ++ js ")").
  assert (Hsplit : split_carets (0x5E :: 0x5E :: rest) = [[]; rest]).
  { rewrite split_carets_cons2. cbn [Z.eqb andb Pos.eqb].
    f_equal. apply split_carets_none.
    change rest with ((e :: event) ++ js "(" ++ js_join (js ",") raw ++ js ")").
    apply Hrest; try discriminate.
    - intros a Ha. apply (Hraw a Ha).
    - intros u Hu. apply is_word_char_codes in Hu. tauto. }
  rewrite Hsplit. cbn [flat_map]. rewrite app_nil_r.
  change (handleCrowOutput_part []) with (@nil CrowEffect). cbn [app].
  unfold handleCrowOutput_part.
  assert (Htrim : js_trim rest = rest).
  { apply js_trim_id.
    - intros u Hu. cbn [head] in Hu. apply (inj Some) in Hu. subst u.
      apply is_word_char_codes. apply Hword. left. reflexivity.
    - intros u Hu.
      assert (Hr : rest = (e :: event ++ js "(" ++ js_join (js ",") raw) ++ [0x29]).
      { subst rest. rewrite <- app_comm_cons. f_equal.
        rewrite <- !app_assoc. reflexivity. }
      rewrite Hr, last_snoc in Hu. apply (inj Some) in Hu. subst u. reflexivity. }
  rewrite Htrim. change (js_truthy rest) with true. cbn [negb].
  assert (Hm : match_event rest = Some (e :: event, js_join (js ",") raw)).
  { subst rest.
    change (e :: event ++ js "(" ++ js_join (js ",") raw ++ js ")")
      with ((e :: event) ++ 0x28 :: js_join (js ",") raw ++ 0x29 :: []).
    apply match_event_line; [discriminate|exact Hw|].
    apply Hj; [|discriminate]. intros a Ha. apply (Hraw a Ha). }
  rewrite Hm. rewrite handleCrowEvent_other by exact Hknown.
  f_equal. f_equal. unfold event_line. f_equal. f_equal. f_equal. f_equal.
  unfold event_args.
  destruct (js_join (js ",") raw) as [|x J] eqn:EJ; cbn [js_truthy].
  - destruct (js_join_nil_inv (js ",") raw ltac:(discriminate) EJ) as [->| ->];
      reflexivity.
  - rewrite <- EJ. change (js ",") with [0x2C].
    rewrite js_split_char_of_join; [reflexivity| |].
    + intros ->. discriminate EJ.
    + apply List.Forall_forall. intros a Ha. apply (Hraw a Ha).
Qed.

Lemma js_join_map_space b r :
  js_join (js ",") ((0x20 :: b) :: map (cons 0x20) r)
  = 0x20 :: js_join (js ", ") (b :: r).
Proof.
  revert b. induction r as [|c r IH]; intros b; [reflexivity|].
  cbn [map]. rewrite !js_join_cons by discriminate.
  rewrite IH. reflexivity.
Qed.

Lemma js_join_spaced t : js_join (js ",") (spaced t) = js_join (js ", ") t.
Proof.
  destruct t as [|a [|b r]]; [reflexivity|reflexivity|].
  unfold spaced. cbn [map]. rewrite !js_join_cons by discriminate.
  rewrite js_join_map_space. reflexivity.
Qed.

Lemma map_js_trim_spaced raw :
  map js_trim (spaced (map js_trim raw)) = map js_trim raw.
Proof.
  destruct raw as [|a raw]; [reflexivity|].
  unfold spaced. cbn [map]. rewrite js_trim_idem. f_equal.
  rewrite !map_map. apply map_ext. intros b.
  rewrite js_trim_space. apply js_trim_idem.
Qed.

Lemma Forall_event_arg_ok_spaced raw :
  Forall event_arg_ok raw -> Forall event_arg_ok (spaced (map js_trim raw)).
Proof.
  intros H.
  assert (Ht : forall a, event_arg_ok a -> event_arg_ok (js_trim a)).
  { intros a (H1 & H2 & H3 & H4).
    repeat split; intros Hx; apply js_trim_In in Hx; contradiction. }
  assert (Hs : forall a, event_arg_ok a -> event_arg_ok (0x20 :: a)).
  { intros a (H1 & H2 & H3 & H4).
    repeat split; intros [Hx|Hx]; try discriminate Hx; contradiction. }
  destruct H as [|a raw Ha Hraw]; [constructor|].
  unfold spaced. cbn [map]. constructor; [apply Ht; exact Ha|].
  rewrite map_map. apply Forall_map.
  eapply Forall_impl; [exact Hraw|].
  intros b Hb. apply Hs, Ht. exact Hb.
Qed.

(** A line that carries one event the application has no case for is
    echoed in a normal form, the arguments trimmed and separated by a
    comma and a space; and the echo is a fixed point: sent as a line, it
    is echoed unchanged. *)
Theorem handleCrowOutput_event_echo (event : jsstring) (raw : list jsstring) :
  event <> [] ->
  forallb is_word_char event = true ->
  ~ In event known_events ->
  Forall event_arg_ok raw ->
  js_includes (js "pubview(") (event_line (js ",") event raw) = false ->
  let echo := event_line (js ", ") event (map js_trim raw) in
  handleCrowOutput (event_line (js ",") event raw) = [OutputLine echo]
  /\ handleCrowOutput echo = [OutputLine echo].
Proof.
  intros Hne Hw Hknown Hraw Hfree echo. split.
  - apply handleCrowOutput_event_line; assumption.
  - assert (Hecho : echo = event_line (js ",") event (spaced (map js_trim raw))).
    { unfold echo, event_line. rewrite js_join_spaced. reflexivity. }
    assert (Hecho' : echo = event_line (js ", ") event
                              (map js_trim (spaced (map js_trim raw)))).
    { rewrite map_js_trim_spaced. reflexivity. }
    rewrite Hecho' at 2. rewrite Hecho.
    apply handleCrowOutput_event_line; try assumption.
    + apply Forall_event_arg_ok_spaced. exact Hraw.
    + rewrite <- Hecho. apply js_includes_false.
      apply js_includes_false in Hfree.
      unfold echo, event_line. apply pubview_free_echo.
      * intros H. apply Hfree. eapply occurs_in_trans; [exact H|].
        exists (js "^^"), (js_join (js ",") raw ++ js ")").
        unfold event_line. rewrite <- !app_assoc. reflexivity.
      * apply pubview_free_join. apply List.Forall_forall.
        intros t Ht. apply in_map_iff in Ht as (a & <- & Ha). intros H.
        apply Hfree. eapply occurs_in_trans; [exact H|].
        eapply occurs_in_trans; [apply js_trim_occurs|].
        eapply occurs_in_trans; [apply (In_js_join_occurs (js ",")); exact Ha|].
        exists (js "^^" ++ event ++ js "("), (js ")").
        unfold event_line. rewrite <- !app_assoc. reflexivity.
Qed.

Lemma handleCrowOutput_event_echo_witness :
  handleCrowOutput (js "^^ready(1 ,two,  3)")
  = [OutputLine (js "^^ready(1, two, 3)")]
  /\ handleCrowOutput (js "^^ready(1, two, 3)")
     = [OutputLine (js "^^ready(1, two, 3)")].
Proof.
  apply (handleCrowOutput_event_echo (js "ready") [js "1 "; js "two"; js "  3"]).
  - discriminate.
  - reflexivity.
  - vm_compute. intuition discriminate.
  - repeat constructor; vm_compute; intuition discriminate.
  - reflexivity.
Defined.

Example handleCrowOutput_examples :
  handleCrowOutput (js "hello" ++ [0x0D]) = [OutputLine (js "hello")]
  /\ handleCrowOutput (js "^^stream(1,0.5)") = [UpdateStreamMonitor 1 (js "0.5")]
  /\ handleCrowOutput (js "^^change(2, 1)") = [UpdateStreamMonitor 2 (js "1")]
  /\ handleCrowOutput (js "^^stream(3,0.5)") = []
  /\ handleCrowOutput (js "^^pupdate(a,b)") = []
  /\ handleCrowOutput (js "^^pubview(1)") = []
  /\ handleCrowOutput (js "a^^b") = [OutputLine (js "a"); OutputLine (js "b")]
  /\ handleCrowOutput (js "^^version('4.0.1')")
     = [OutputLine (js "^^version('4.0.1')")].
Proof. repeat split; reflexivity. Qed.

Example parseInt_examples :
  parseInt (js " 12abc") = Some 12
  /\ parseInt (js "-5") = Some (-5)
  /\ parseInt (js "0x1f") = Some 31
  /\ parseInt (js "1.5") = Some 1
  /\ parseInt (js "abc") = None
  /\ parseInt [] = None.
Proof. repeat split; reflexivity. Qed.

(** ** The window of stream samples *)

Lemma shift_older_spec {V : Type} (cutoff : Z) (data : list (Z * V)) :
  exists old,
    data = old ++ shift_older cutoff data
    /\ Forall (fun sample => fst sample < cutoff) old
    /\ (forall sample, head (shift_older cutoff data) = Some sample ->
          cutoff <= fst sample).
Proof.
  induction data as [|sample rest (old & H1 & H2 & H3)]; cbn [shift_older].
  - exists []. repeat split; [constructor|discriminate].
  - destruct (Z.ltb_spec (fst sample) cutoff) as [Hlt|Hge].
    + exists (sample :: old). repeat split.
      * cbn [app]. f_equal. exact H1.
      * constructor; assumption.
      * exact H3.
    + exists []. repeat split; [constructor|].
      intros s Hs. cbn [head] in Hs. apply (inj Some) in Hs. subst s. exact Hge.
Qed.

Lemma shift_older_snoc {V : Type} (cutoff : Z) (data : list (Z * V)) sample :
  cutoff <= fst sample ->
  shift_older cutoff (data ++ [sample]) = shift_older cutoff data ++ [sample].
Proof.
  intros H. induction data as [|s rest IH]; cbn [app shift_older].
  - destruct (Z.ltb_spec (fst sample) cutoff); [lia|reflexivity].
  - destruct (fst s <? cutoff); [exact IH|reflexivity].
Qed.

(** Whatever the stored samples and the clock are, the new sample is
    kept, as the last one; what is dropped is a front part of the list,
    all of it older than five seconds; and the first sample kept is not
    older than five seconds. *)
Theorem updateStreamMonitor_keeps_newest
    {V : Type} (now : Z) (value : V) (data : list (Z * V)) :
  exists old kept,
    data = old ++ kept
    /\ updateStreamMonitor now value data = kept ++ [(now, value)]
    /\ Forall (fun sample => fst sample < now - 5000) old
    /\ (forall sample, head (updateStreamMonitor now value data) = Some sample ->
          now - 5000 <= fst sample).
Proof.
  unfold updateStreamMonitor. cbv zeta.
  rewrite shift_older_snoc by (cbn [fst]; lia).
  destruct (shift_older_spec (now - 5000) data) as (old & H1 & H2 & H3).
  exists old, (shift_older (now - 5000) data).
  repeat split; [exact H1|exact H2|].
  intros sample Hs.
  destruct (shift_older (now - 5000) data) as [|s kept] eqn:E.
  - cbn [app head] in Hs. apply (inj Some) in Hs. subst sample. cbn [fst]. lia.
  - apply H3. exact Hs.
Qed.

Lemma times_ascending_app_r {V : Type} (a b : list (Z * V)) :
  times_ascending (a ++ b) -> times_ascending b.
Proof.
  intros H i j x y Hij Hx Hy.
  apply (H (length a + i)%nat (length a + j)%nat); [lia| |].
  - rewrite lookup_app_r by lia. replace (length a + i - length a)%nat with i by lia.
    exact Hx.
  - rewrite lookup_app_r by lia. replace (length a + j - length a)%nat with j by lia.
    exact Hy.
Qed.

Lemma times_ascending_snoc {V : Type} (data : list (Z * V)) sample :
  times_ascending data ->
  Forall (fun s => fst s <= fst sample) data ->
  times_ascending (data ++ [sample]).
Proof.
  intros Hd Hle i j x y Hij Hx Hy.
  destruct (Nat.lt_ge_cases j (length data)) as [Hj|Hj].
  - rewrite lookup_app_l in Hx by lia. rewrite lookup_app_l in Hy by lia.
    exact (Hd i j x y Hij Hx Hy).
  - rewrite lookup_app_r in Hy by lia.
    destruct (j - length data)%nat as [|k] eqn:Ek; [|destruct k; discriminate Hy].
    cbn in Hy. apply (inj Some) in Hy. subst y.
    destruct (Nat.lt_ge_cases i (length data)) as [Hi|Hi].
    + rewrite lookup_app_l in Hx by lia.
      rewrite Forall_lookup in Hle. exact (Hle i x Hx).
    + rewrite lookup_app_r in Hx by lia.
      destruct (i - length data)%nat as [|k] eqn:Ei; [|destruct k; discriminate Hx].
      cbn in Hx. apply (inj Some) in Hx. subst x. lia.
Qed.

(** With a clock that does not run backwards, the stored samples are
    exactly a window of five seconds: when the samples are in the order
    of their times and none is newer than [now], every sample kept has
    its time between [now - 5000] and [now], and the samples are still in
    the order of their times and none is newer than [now]. *)
Theorem updateStreamMonitor_window
    {V : Type} (now : Z) (value : V) (data : list (Z * V)) :
  times_ascending data ->
  Forall (fun sample => fst sample <= now) data ->
  Forall (fun sample => now - 5000 <= fst sample <= now)
         (updateStreamMonitor now value data)
  /\ times_ascending (updateStreamMonitor now value data).
Proof.
  intros Hasc Hle.
  assert (Hall : times_ascending (data ++ [(now, value)])).
  { apply times_ascending_snoc; [exact Hasc|exact Hle]. }
  destruct (shift_older_spec (now - 5000) (data ++ [(now, value)]))
    as (old & Hsuffix & _ & Hhead).
  change (shift_older (now - 5000) (data ++ [(now, value)]))
    with (updateStreamMonitor now value data) in Hsuffix, Hhead.
  assert (Hkept : times_ascending (updateStreamMonitor now value data)).
  { apply (times_ascending_app_r old). rewrite <- Hsuffix. exact Hall. }
  split; [|exact Hkept].
  apply Forall_lookup. intros i sample Hi. split.
  - destruct (updateStreamMonitor now value data) as [|first rest] eqn:E;
      [discriminate Hi|].
    specialize (Hhead first eq_refl).
    pose proof (Hkept 0%nat i first sample ltac:(lia) eq_refl Hi). lia.
  - assert (Hin : In sample (data ++ [(now, value)])).
    { rewrite Hsuffix. apply in_or_app. right.
      apply list_elem_of_In. eapply list_elem_of_lookup_2. exact Hi. }
    apply in_app_or in Hin as [Hin|[<-|[]]]; [|cbn [fst]; lia].
    rewrite List.Forall_forall in Hle. exact (Hle sample Hin).
Qed.

Lemma updateStreamMonitor_window_witness :
  Forall (fun sample => 10000 - 5000 <= fst sample <= 10000)
         (updateStreamMonitor 10000 true [(1000, false); (4999, true); (5000, false)])
  /\ times_ascending
       (updateStreamMonitor 10000 true [(1000, false); (4999, true); (5000, false)]).
Proof.
  apply (updateStreamMonitor_window 10000 true
           [(1000, false); (4999, true); (5000, false)]).
  - intros i j a b Hij Ha Hb.
    destruct i as [|[|[|i]]]; destruct j as [|[|[|j]]];
      cbn in Ha, Hb; try discriminate; try lia;
      apply (inj Some) in Ha; apply (inj Some) in Hb; subst a b; cbn [fst]; lia.
  - repeat constructor; cbn [fst]; lia.
Defined.

Example updateStreamMonitor_example :
  updateStreamMonitor 10000 true [(1000, false); (4999, true); (5000, false)]
  = [(5000, false); (10000, true)].
Proof. reflexivity. Qed.

(** ** Renaming the script *)

Lemma js_endsWith_app a p : js_endsWith (a ++ p) p = true.
Proof. unfold js_endsWith. rewrite rev_app_distr. apply js_startsWith_app. Qed.

Lemma renameScript_cases promptResult scriptName :
  renameScript promptResult scriptName = scriptName
  \/ exists newName,
       promptResult = Some newName
       /\ js_trim newName <> []
       /\ ((js_endsWith (js_trim newName) LUA_EXTENSION = true
            /\ renameScript promptResult scriptName = js_trim newName)
           \/ (js_endsWith (js_trim newName) LUA_EXTENSION = false
               /\ renameScript promptResult scriptName
                  = js_trim newName ++ LUA_EXTENSION)).
Proof.
  unfold renameScript. cbv zeta.
  destruct promptResult as [newName|]; [|left; reflexivity].
  destruct (js_truthy newName && js_truthy (js_trim newName)
            && negb (jsstring_eqb newName (remove_first MODIFIED_MARK scriptName)))
    eqn:E; [|left; reflexivity].
  right. exists newName. split; [reflexivity|].
  apply andb_true_iff in E as [E _]. apply andb_true_iff in E as [_ E].
  split; [intros H; rewrite H in E; discriminate E|].
  destruct (js_endsWith (js_trim newName) LUA_EXTENSION); cbn [negb];
    [left|right]; split; reflexivity.
Qed.

Lemma js_endsWith_spec s p :
  js_endsWith s p = true <-> exists stem, s = stem ++ p.
Proof.
  unfold js_endsWith. rewrite js_startsWith_spec. split.
  - intros [t Ht]. exists (rev t).
    rewrite <- (rev_involutive s), Ht, rev_app_distr, rev_involutive.
    reflexivity.
  - intros [stem ->]. exists (rev stem). apply rev_app_distr.
Qed.

Lemma renameScript_unchanged promptResult scriptName :
  promptResult = None
  \/ (exists newName,
        promptResult = Some newName
        /\ (js_trim newName = []
            \/ newName = remove_first MODIFIED_MARK scriptName)) ->
  renameScript promptResult scriptName = scriptName.
Proof.
  unfold renameScript. cbv zeta.
  intros [->|(newName & -> & [Hblank| ->])]; [reflexivity| |].
  - rewrite Hblank. cbn [js_truthy]. rewrite andb_false_r. reflexivity.
  - rewrite (proj2 (jsstring_eqb_spec _ _) eq_refl). cbn [negb].
    rewrite andb_false_r. reflexivity.
Qed.

Lemma renameScript_changed newName scriptName :
  js_trim newName <> [] ->
  newName <> remove_first MODIFIED_MARK scriptName ->
  (ends_in_lua (js_trim newName) ->
   renameScript (Some newName) scriptName = js_trim newName)
  /\ (~ ends_in_lua (js_trim newName) ->
      renameScript (Some newName) scriptName
      = js_trim newName ++ LUA_EXTENSION).
Proof.
  intros Hne Hnew. unfold renameScript. cbv zeta.
  assert (H1 : js_truthy newName = true).
  { destruct newName; [exfalso; apply Hne; reflexivity|reflexivity]. }
  assert (H2 : js_truthy (js_trim newName) = true).
  { destruct (js_trim newName); [congruence|reflexivity]. }
  rewrite H1, H2, (jsstring_eqb_false _ _ Hnew). cbn [andb negb].
  destruct (js_endsWith (js_trim newName) LUA_EXTENSION) eqn:E; cbn [negb].
  - split; [reflexivity|].
    intros Hno. exfalso. apply Hno. apply js_endsWith_spec. exact E.
  - split; [|reflexivity].
    intros Hyes. apply js_endsWith_spec in Hyes. congruence.
Qed.

(** What a rename does, case by case.  The name stays as it is when the
    dialog is cancelled, when the answer is blank, and when the answer is
    the name as shown (without the mark of unsaved changes).  In every
    other case the name becomes the trimmed answer if that ends in
    [.lua], and the trimmed answer followed by [.lua] if it does not.  So
    a changed name ends in [.lua] and does not start with white space; a
    name that ends in [.lua] keeps doing so, whatever the answer is; and
    giving the same answer again changes nothing more. *)
Theorem renameScript_extension
    (promptResult : option jsstring) (scriptName : jsstring) :
  (promptResult = None
   \/ (exists newName,
         promptResult = Some newName
         /\ (js_trim newName = []
             \/ newName = remove_first MODIFIED_MARK scriptName)) ->
   renameScript promptResult scriptName = scriptName)
  /\ (forall newName,
        promptResult = Some newName ->
        js_trim newName <> [] ->
        newName <> remove_first MODIFIED_MARK scriptName ->
        (ends_in_lua (js_trim newName) ->
         renameScript promptResult scriptName = js_trim newName)
        /\ (~ ends_in_lua (js_trim newName) ->
            renameScript promptResult scriptName
            = js_trim newName ++ LUA_EXTENSION))
  /\ (renameScript promptResult scriptName = scriptName
      \/ (js_endsWith (renameScript promptResult scriptName) LUA_EXTENSION = true
          /\ (forall u, head (renameScript promptResult scriptName) = Some u ->
                is_js_space u = false)
          /\ exists newName,
               promptResult = Some newName
               /\ (renameScript promptResult scriptName = js_trim newName
                   \/ renameScript promptResult scriptName
                      = js_trim newName ++ LUA_EXTENSION)))
  /\ (js_endsWith scriptName LUA_EXTENSION = true ->
      js_endsWith (renameScript promptResult scriptName) LUA_EXTENSION = true)
  /\ renameScript promptResult (renameScript promptResult scriptName)
     = renameScript promptResult scriptName.
Proof.
  assert (Hchanged : forall n newName,
            promptResult = Some newName -> js_trim newName <> [] ->
            (js_endsWith (js_trim newName) LUA_EXTENSION = true
             /\ renameScript promptResult n = js_trim newName)
            \/ (js_endsWith (js_trim newName) LUA_EXTENSION = false
                /\ renameScript promptResult n = js_trim newName ++ LUA_EXTENSION) ->
            js_endsWith (renameScript promptResult n) LUA_EXTENSION = true
            /\ (forall u, head (renameScript promptResult n) = Some u ->
                  is_js_space u = false)).
  { intros n newName _ Hne [[He ->]|[_ ->]].
    - split; [exact He|apply js_trim_head].
    - split; [apply js_endsWith_app|].
      intros u Hu. apply (js_trim_head newName).
      destruct (js_trim newName); [congruence|exact Hu]. }
  split; [apply renameScript_unchanged|].
  split.
  { intros newName -> Hne Hnew. apply renameScript_changed; assumption. }
  split; [|split].
  - destruct (renameScript_cases promptResult scriptName)
      as [H|(newName & Hp & Hne & Hcases)]; [left; exact H|right].
    destruct (Hchanged scriptName newName Hp Hne Hcases) as [H1 H2].
    split; [exact H1|]. split; [exact H2|].
    exists newName. split; [exact Hp|].
    destruct Hcases as [[_ H]|[_ H]]; [left|right]; exact H.
  - intros Hext.
    destruct (renameScript_cases promptResult scriptName)
      as [H|(newName & Hp & Hne & Hcases)]; [rewrite H; exact Hext|].
    apply (Hchanged scriptName newName Hp Hne Hcases).
  - destruct (renameScript_cases promptResult scriptName)
      as [H|(newName & Hp & Hne & Hcases)]; [rewrite !H; reflexivity|].
    destruct (renameScript_cases promptResult (renameScript promptResult scriptName))
      as [H'|(newName' & Hp' & Hne' & Hcases')]; [exact H'|].
    assert (newName' = newName) as -> by congruence.
    destruct Hcases as [[He H]|[He H]], Hcases' as [[He' H']|[He' H']];
      congruence.
Qed.

Example renameScript_examples :
  renameScript (Some (js " melody ")) (js "untitled.lua") = js "melody.lua"
  /\ renameScript (Some (js "melody.lua")) (js "untitled.lua") = js "melody.lua"
  /\ renameScript (Some (js "  ")) (js "untitled.lua") = js "untitled.lua"
  /\ renameScript None (js "untitled.lua") = js "untitled.lua"
  /\ renameScript (Some (js "notes")) (js "notes") = js "notes".
Proof. repeat split; reflexivity. Qed.

(** ** The history in the REPL editor *)

(** The editor of the REPL and the textarea keep the history alike: on a
    sound state, in which every command the handlers look up is in the
    history, [navigateReplHistory] does what the arrow keys do in the
    textarea, and [sendReplCommand] on the trimmed text what Enter does
    there, whether or not the editor notifies its listener and whether or
    not autocompletion is on. *)
Theorem navigateReplHistory_as_textarea
    (notifies replAutocompleteEnabled isConnected writesSucceeded : bool)
    (st : ReplState) :
  repl_invariant st ->
  navigateReplHistory notifies replAutocompleteEnabled (js "up") st
  = handleReplInput true isConnected ArrowUp st
  /\ navigateReplHistory notifies replAutocompleteEnabled (js "down") st
     = handleReplInput true isConnected ArrowDown st
  /\ (js_trim (replInputValue st) <> [] ->
      sendReplCommand notifies replAutocompleteEnabled isConnected
        (js_trim (replInputValue st)) st
      = handleReplInput true isConnected (Enter false) st)
  /\ sendReplCommand_sent notifies replAutocompleteEnabled writesSucceeded st
     = handleReplInput_sent writesSucceeded st.
Proof.
  intros _. destruct st as [h i c v].
  unfold navigateReplHistory, sendReplCommand, sendReplCommand_sent,
    handleReplInput, handleReplInput_sent, replEditor_setValue,
    replEditor_contentChanged.
  change (jsstring_eqb (js "up") (js "up")) with true.
  change (jsstring_eqb (js "down") (js "up")) with false.
  change (jsstring_eqb (js "down") (js "down")) with true.
  cbn [negb commandHistory historyIndex currentInput replInputValue].
  repeat split.
  - destruct (Z.of_nat (length h) =? 0); [reflexivity|].
    destruct (i =? -1);
      cbn [commandHistory historyIndex currentInput replInputValue];
      destruct (_ <? _); try reflexivity;
      cbn [commandHistory historyIndex currentInput replInputValue];
      rewrite andb_false_r;
      destruct notifies, replAutocompleteEnabled; reflexivity.
  - destruct (i =? -1); [reflexivity|].
    rewrite andb_false_r.
    destruct (i - 1 =? -1), notifies, replAutocompleteEnabled; reflexivity.
  - intros Hcode.
    destruct (js_trim v) as [|x t] eqn:E; [congruence|]. cbn [js_truthy].
    destruct ((Z.of_nat (length h) =? 0) || _);
      cbn [commandHistory historyIndex currentInput replInputValue];
      (destruct isConnected; cbn [negb]; [reflexivity|]);
      rewrite andb_true_r;
      destruct notifies, replAutocompleteEnabled, (i =? -1); reflexivity.
  - destruct writesSucceeded; [|reflexivity].
    change (-1 =? -1) with true. cbn [negb andb].
    destruct notifies, replAutocompleteEnabled; reflexivity.
Qed.

Lemma navigateReplHistory_as_textarea_witness :
  let st := mkReplState [js "a"; js "b"] 0 (js "typed") (js " b ") in
  navigateReplHistory true true (js "up") st
  = handleReplInput true false ArrowUp st
  /\ navigateReplHistory true true (js "down") st
     = handleReplInput true false ArrowDown st
  /\ (js_trim (replInputValue st) <> [] ->
      sendReplCommand true true false (js_trim (replInputValue st)) st
      = handleReplInput true false (Enter false) st)
  /\ sendReplCommand_sent true true true st = handleReplInput_sent true st.
Proof.
  apply (navigateReplHistory_as_textarea true true false true
           (mkReplState [js "a"; js "b"] 0 (js "typed") (js " b "))).
  unfold repl_invariant. cbn [historyIndex commandHistory length].
  split; [lia|]. split.
  - repeat constructor; discriminate.
  - cbn. split; [discriminate|exact I].
Defined.

Example navigateReplHistory_example :
  navigateReplHistory true true (js "up")
    (mkReplState [js "a"; js "b"] (-1) [] (js "typed"))
  = mkReplState [js "a"; js "b"] 0 (js "typed") (js "b")
  /\ navigateReplHistory true true (js "sideways")
       (mkReplState [js "a"; js "b"] 0 (js "typed") (js "b"))
     = mkReplState [js "a"; js "b"] 0 (js "typed") (js "b").
Proof. split; reflexivity. Qed.

(** ** The symbol index of a Lua chunk *)

Lemma jsstring_eqb_refl a : jsstring_eqb a a = true.
Proof. apply jsstring_eqb_spec. reflexivity. Qed.

Lemma jsstring_eq_dec (a b : jsstring) : {a = b} + {a <> b}.
Proof.
  destruct (jsstring_eqb a b) eqn:E.
  - left. apply jsstring_eqb_spec. exact E.
  - right. intros H. apply jsstring_eqb_spec in H. congruence.
Qed.

Lemma jsmap_get_set_same {V : Type} key (value : V) m :
  jsmap_get key (jsmap_set key value m) = Some value.
Proof.
  induction m as [|[k v] m IH]; cbn [jsmap_set jsmap_get].
  - rewrite jsstring_eqb_refl. reflexivity.
  - destruct (jsstring_eqb k key) eqn:E; cbn [jsmap_get].
    + rewrite jsstring_eqb_refl. reflexivity.
    + rewrite E. exact IH.
Qed.

Lemma jsmap_get_set_other {V : Type} key key' (value : V) m :
  key' <> key -> jsmap_get key' (jsmap_set key value m) = jsmap_get key' m.
Proof.
  intros Hne. induction m as [|[k v] m IH]; cbn [jsmap_set jsmap_get].
  - rewrite jsstring_eqb_false by congruence. reflexivity.
  - destruct (jsstring_eqb k key) eqn:E; cbn [jsmap_get].
    + apply jsstring_eqb_spec in E. subst k.
      rewrite !jsstring_eqb_false by congruence. reflexivity.
    + destruct (jsstring_eqb k key'); [reflexivity|exact IH].
Qed.

Lemma jsmap_get_keys {V : Type} key (m : jsmap V) :
  In key (jsmap_keys m) <-> jsmap_get key m <> None.
Proof.
  induction m as [|[k v] m IH]; cbn [jsmap_keys map In jsmap_get fst].
  - split; [intros []|congruence].
  - destruct (jsstring_eqb k key) eqn:E.
    + apply jsstring_eqb_spec in E. split; [discriminate|left; exact E].
    + split.
      * intros [H|H]; [|apply IH; exact H].
        apply jsstring_eqb_spec in H. congruence.
      * intros H. right. apply IH. exact H.
Qed.

Lemma jsmap_keys_set {V : Type} key (value : V) m key' :
  In key' (jsmap_keys (jsmap_set key value m)) <-> key' = key \/ In key' (jsmap_keys m).
Proof.
  rewrite !jsmap_get_keys.
  destruct (jsstring_eq_dec key' key) as [->|Hne].
  - rewrite jsmap_get_set_same. split; [left; reflexivity|discriminate].
  - rewrite jsmap_get_set_other by exact Hne. tauto.
Qed.

Lemma jsmap_keys_set_NoDup {V : Type} key (value : V) m :
  List.NoDup (jsmap_keys m) -> List.NoDup (jsmap_keys (jsmap_set key value m)).
Proof.
  induction m as [|[k v] m IH]; intros H; cbn [jsmap_set].
  - constructor; [intros []|constructor].
  - cbn [jsmap_keys map fst] in H. apply List.NoDup_cons_iff in H as [H1 H2].
    destruct (jsstring_eqb k key) eqn:E.
    + apply jsstring_eqb_spec in E. subst k.
      cbn [jsmap_keys map fst]. constructor; assumption.
    + cbn [jsmap_keys map fst]. constructor; [|apply IH; exact H2].
      intros Hin. apply (jsmap_keys_set key value m k) in Hin as [Hin|Hin].
      * subst k. rewrite jsstring_eqb_refl in E. discriminate E.
      * exact (H1 Hin).
Qed.

Lemma jsmap_get_In {V : Type} key (m : jsmap V) value :
  jsmap_get key m = Some value -> In (key, value) m.
Proof.
  induction m as [|[k v] m IH]; cbn [jsmap_get]; [discriminate|].
  destruct (jsstring_eqb k key) eqn:E.
  - apply jsstring_eqb_spec in E. intros H. left. congruence.
  - intros H. right. apply IH. exact H.
Qed.

Lemma jsmap_In_get {V : Type} key (m : jsmap V) value :
  List.NoDup (jsmap_keys m) -> In (key, value) m -> jsmap_get key m = Some value.
Proof.
  induction m as [|[k v] m IH]; intros Hnd Hin; [destruct Hin|].
  cbn [jsmap_keys map fst] in Hnd. apply List.NoDup_cons_iff in Hnd as [H1 H2].
  cbn [jsmap_get]. destruct Hin as [Hin|Hin].
  - injection Hin as -> ->. rewrite jsstring_eqb_refl. reflexivity.
  - destruct (jsstring_eqb k key) eqn:E; [|apply IH; assumption].
    apply jsstring_eqb_spec in E. subst k. exfalso. apply H1.
    apply in_map_iff. exists (key, value). split; [reflexivity|exact Hin].
Qed.

Lemma jsmap_get_filter {V : Type} (keep : V -> bool) key (m : jsmap V) :
  List.NoDup (jsmap_keys m) ->
  jsmap_get key (List.filter (fun entry => keep (snd entry)) m)
  = match jsmap_get key m with
    | Some value => if keep value then Some value else None
    | None => None
    end.
Proof.
  induction m as [|[k v] m IH]; intros Hnd; [reflexivity|].
  cbn [jsmap_keys map fst] in Hnd. apply List.NoDup_cons_iff in Hnd as [H1 H2].
  cbn [List.filter snd jsmap_get].
  destruct (jsstring_eqb k key) eqn:E.
  - apply jsstring_eqb_spec in E. subst k.
    destruct (keep v); cbn [jsmap_get].
    + rewrite jsstring_eqb_refl. reflexivity.
    + rewrite IH by exact H2.
      destruct (jsmap_get key m) as [value|] eqn:G; [|reflexivity].
      exfalso. apply H1. apply jsmap_get_keys. congruence.
  - destruct (keep v); cbn [jsmap_get]; [rewrite E|]; apply IH; exact H2.
Qed.

Ltac solve_compare :=
  unfold compareLuaPositions; cbv zeta;
  repeat match goal with
         | |- context [?a =? ?b] => destruct (Z.eqb_spec a b)
         end;
  cbn [negb]; intros; lia.

Lemma compareLuaPositions_refl p : compareLuaPositions (Some p) (Some p) <= 0.
Proof. solve_compare. Qed.

Lemma compareLuaPositions_lt_le p q r :
  compareLuaPositions (Some q) (Some p) < 0 ->
  compareLuaPositions (Some p) (Some r) <= 0 ->
  compareLuaPositions (Some q) (Some r) <= 0.
Proof.
  unfold compareLuaPositions; cbv zeta.
  destruct (Z.eqb_spec (or_zero (pos_line q)) (or_zero (pos_line p)));
  destruct (Z.eqb_spec (or_zero (pos_line p)) (or_zero (pos_line r)));
  destruct (Z.eqb_spec (or_zero (pos_line q)) (or_zero (pos_line r)));
  cbn [negb]; intros; lia.
Qed.

Lemma compareLuaPositions_not_lt p q :
  ~ compareLuaPositions (Some q) (Some p) < 0 ->
  compareLuaPositions (Some p) (Some q) <= 0.
Proof.
  unfold compareLuaPositions; cbv zeta.
  destruct (Z.eqb_spec (or_zero (pos_line q)) (or_zero (pos_line p)));
  destruct (Z.eqb_spec (or_zero (pos_line p)) (or_zero (pos_line q)));
  cbn [negb]; intros; lia.
Qed.

Lemma strictly_before_true pos existingPos :
  strictly_before pos existingPos = true <->
  exists q p, pos = Some q /\ existingPos = Some p
              /\ compareLuaPositions (Some q) (Some p) < 0.
Proof.
  unfold strictly_before. destruct pos as [q|], existingPos as [p|].
  - rewrite Z.ltb_lt. split.
    + intros H. exists q, p. repeat split. exact H.
    + intros (q' & p' & Hq & Hp & H). congruence.
  - split; [discriminate|]. intros (q' & p' & _ & Hp & _). discriminate Hp.
  - split; [discriminate|]. intros (q' & p' & Hq & _ & _). discriminate Hq.
  - split; [discriminate|]. intros (q' & p' & Hq & _ & _). discriminate Hq.
Qed.

Lemma getDeclarationInfo_name node parent parentKey pos def :
  getDeclarationInfo node parent parentKey pos = Some def ->
  def_name def = node_name node /\ def_pos def = pos
  /\ isIdentifier node = true.
Proof.
  unfold getDeclarationInfo.
  destruct (isIdentifier node); cbn [negb orb]; [|discriminate].
  destruct (no_owner parent); [discriminate|].
  repeat match goal with
         | |- context [if ?c then _ else _] => destruct c
         end;
    intros H; try discriminate H; injection H as <-; repeat split.
Qed.

Lemma omap_snoc {A B : Type} (f : A -> option B) l x :
  omap f (l ++ [x]) = omap f l ++ match f x with Some y => [y] | None => [] end.
Proof.
  rewrite omap_app. reflexivity.
Qed.

Lemma visitor_defs st v :
  fst (visitor st v)
  = match visit_declaration v with
    | Some def => add_def def (fst st)
    | None => fst st
    end.
Proof.
  destruct st as [defs rs]. unfold visitor, visit_declaration, add_def.
  cbv zeta. cbn [fst].
  destruct (isIdentifier (visit_node v)) eqn:Ei; cbn [negb].
  - destruct (getDeclarationInfo _ _ _ _) as [def|].
    + destruct (jsmap_get (def_name def) defs) as [existing|]; [|reflexivity].
      destruct (strictly_before _ _); reflexivity.
    + destruct (isPropertyIdentifier _ _ _); [reflexivity|].
      destruct (owner_is_label _); reflexivity.
  - unfold getDeclarationInfo. rewrite Ei. reflexivity.
Qed.

Lemma index_sound_keep decls defs d :
  index_sound decls defs ->
  jsmap_get (def_name d) defs <> None ->
  (forall e p q, jsmap_get (def_name d) defs = Some e ->
                 def_pos e = Some p -> def_pos d = Some q ->
                 compareLuaPositions (Some p) (Some q) <= 0) ->
  index_sound (decls ++ [d]) defs.
Proof.
  intros (I1 & I2 & I3 & I4) Hsome Hle.
  refine (conj _ (conj _ (conj _ I4))).
  - intros name def H. destruct (I1 name def H) as [H1 H2].
    split; [exact H1|]. apply in_or_app. left. exact H2.
  - intros name def p other q Hget Hp Hother Hname Hq.
    apply in_app_or in Hother as [Hother|[<-|[]]].
    + exact (I2 name def p other q Hget Hp Hother Hname Hq).
    + subst name. exact (Hle def p q Hget Hp Hq).
  - intros x Hx. apply in_app_or in Hx as [Hx|[<-|[]]]; [exact (I3 x Hx)|].
    exact Hsome.
Qed.

Lemma index_sound_set decls defs d :
  index_sound decls defs ->
  (forall other p q, In other decls -> def_name other = def_name d ->
                     def_pos d = Some p -> def_pos other = Some q ->
                     compareLuaPositions (Some p) (Some q) <= 0) ->
  index_sound (decls ++ [d]) (jsmap_set (def_name d) d defs).
Proof.
  intros (I1 & I2 & I3 & I4) Hle.
  refine (conj _ (conj _ (conj _ _))).
  - intros name def H.
    destruct (jsstring_eq_dec name (def_name d)) as [->|Hne].
    + rewrite jsmap_get_set_same in H. apply (inj Some) in H. subst def.
      split; [reflexivity|]. apply in_or_app. right. left. reflexivity.
    + rewrite jsmap_get_set_other in H by exact Hne.
      destruct (I1 name def H) as [H1 H2].
      split; [exact H1|]. apply in_or_app. left. exact H2.
  - intros name def p other q Hget Hp Hother Hname Hq.
    destruct (jsstring_eq_dec name (def_name d)) as [->|Hne].
    + rewrite jsmap_get_set_same in Hget. apply (inj Some) in Hget. subst def.
      apply in_app_or in Hother as [Hother|[<-|[]]].
      * exact (Hle other p q Hother Hname Hp Hq).
      * assert (q = p) as -> by congruence. apply compareLuaPositions_refl.
    + rewrite jsmap_get_set_other in Hget by exact Hne.
      apply in_app_or in Hother as [Hother|[<-|[]]].
      * exact (I2 name def p other q Hget Hp Hother Hname Hq).
      * congruence.
  - intros x Hx.
    destruct (jsstring_eq_dec (def_name x) (def_name d)) as [E|Hne].
    + rewrite E, jsmap_get_set_same. discriminate.
    + rewrite jsmap_get_set_other by exact Hne.
      apply in_app_or in Hx as [Hx|[<-|[]]]; [exact (I3 x Hx)|congruence].
  - apply jsmap_keys_set_NoDup. exact I4.
Qed.

Lemma index_sound_add decls defs d :
  index_sound decls defs -> index_sound (decls ++ [d]) (add_def d defs).
Proof.
  intros Hs. pose proof Hs as (I1 & I2 & I3 & I4). unfold add_def.
  destruct (jsmap_get (def_name d) defs) as [e|] eqn:Ee.
  - destruct (strictly_before (def_pos d) (def_pos e)) eqn:Eb.
    + apply strictly_before_true in Eb as (q0 & p0 & Hq0 & Hp0 & Hlt).
      apply index_sound_set; [exact Hs|].
      intros other p q Hother Hname Hp Hq.
      assert (p = q0) as -> by congruence.
      eapply compareLuaPositions_lt_le; [exact Hlt|].
      exact (I2 _ e p0 other q Ee Hp0 Hother Hname Hq).
    + apply index_sound_keep; [exact Hs|congruence|].
      intros e' p q He' Hp Hq. assert (e' = e) as -> by congruence.
      apply compareLuaPositions_not_lt. intros Hlt.
      assert (strictly_before (def_pos d) (def_pos e) = true) as Hb.
      { apply strictly_before_true. exists q, p. repeat split; assumption. }
      congruence.
  - apply index_sound_set; [exact Hs|].
    intros other p q Hother Hname _ _. exfalso.
    apply (I3 other Hother). rewrite Hname. exact Ee.
Qed.

Lemma index_sound_fold visits : forall seen st,
  index_sound (omap visit_declaration seen) (fst st) ->
  index_sound (omap visit_declaration (seen ++ visits))
              (fst (fold_left visitor visits st)).
Proof.
  induction visits as [|v visits IH]; intros seen st H.
  - rewrite app_nil_r. exact H.
  - cbn [fold_left].
    replace (seen ++ v :: visits) with ((seen ++ [v]) ++ visits)
      by (rewrite <- app_assoc; reflexivity).
    apply IH. rewrite omap_snoc, visitor_defs.
    destruct (visit_declaration v) as [d|].
    + apply index_sound_add. exact H.
    + rewrite app_nil_r. exact H.
Qed.

Lemma index_sound_nil : index_sound [] [].
Proof.
  refine (conj _ (conj _ (conj _ _))).
  - intros name def H. discriminate H.
  - intros name def p other q H. discriminate H.
  - intros d [].
  - constructor.
Qed.

Lemma extractLuaSymbolIndex_Some ast index :
  extractLuaSymbolIndex (Some ast) = Some index ->
  defsByName index = fst (fold_left visitor (walk None None ast) ([], []))
  /\ refs index = snd (fold_left visitor (walk None None ast) ([], []))
  /\ locals index
     = List.filter (fun entry => is_local (snd entry)) (defsByName index)
  /\ globals index
     = List.filter (fun entry => negb (is_local (snd entry))) (defsByName index).
Proof.
  unfold extractLuaSymbolIndex.
  destruct (fold_left visitor (walk None None ast) ([], [])) as [defs rs].
  intros H. apply (inj Some) in H. subst index. repeat split.
Qed.

Lemma extractLuaSymbolIndex_sound ast index :
  extractLuaSymbolIndex (Some ast) = Some index ->
  index_sound (chunk_declarations ast) (defsByName index).
Proof.
  intros H. apply extractLuaSymbolIndex_Some in H as (-> & _).
  apply (index_sound_fold (walk None None ast) [] ([], [])).
  exact index_sound_nil.
Qed.

(** [defsByName] files every declared name of the chunk under its
    earliest declaration: the entry of a name is one of its declarations
    in the chunk, and when it has a position no declaration of the name
    stands before it; every declared name has an entry; and [locals] and
    [globals] split the entries by their scope. *)
Theorem extractLuaSymbolIndex_earliest
    (ast : JsVal) (index : SymbolIndex) (name : jsstring) :
  extractLuaSymbolIndex (Some ast) = Some index ->
  match jsmap_get name (defsByName index) with
  | Some def =>
      def_name def = name
      /\ In def (chunk_declarations ast)
      /\ (forall p other q,
            def_pos def = Some p ->
            In other (chunk_declarations ast) ->
            def_name other = name -> def_pos other = Some q ->
            compareLuaPositions (Some p) (Some q) <= 0)
      /\ jsmap_get name (locals index)
         = (if is_local def then Some def else None)
      /\ jsmap_get name (globals index)
         = (if is_local def then None else Some def)
  | None =>
      (forall d, In d (chunk_declarations ast) -> def_name d <> name)
      /\ jsmap_get name (locals index) = None
      /\ jsmap_get name (globals index) = None
  end.
Proof.
  intros H.
  pose proof (extractLuaSymbolIndex_sound ast index H) as (I1 & I2 & I3 & I4).
  apply extractLuaSymbolIndex_Some in H as (_ & _ & Hl & Hg).
  rewrite Hl, Hg.
  rewrite (jsmap_get_filter is_local) by exact I4.
  rewrite (jsmap_get_filter (fun def => negb (is_local def))) by exact I4.
  destruct (jsmap_get name (defsByName index)) as [def|] eqn:E.
  - destruct (I1 name def E) as [H1 H2].
    split; [exact H1|]. split; [exact H2|]. split.
    + intros p other q Hp Hother Hname Hq.
      exact (I2 name def p other q E Hp Hother Hname Hq).
    + destruct (is_local def); split; reflexivity.
  - split; [|split; reflexivity].
    intros d Hd Hname. apply (I3 d Hd). rewrite Hname. exact E.
Qed.

Example extractLuaSymbolIndex_sample :
  extractLuaSymbolIndex (Some sample_chunk) = Some sample_index.
Proof. vm_compute. reflexivity. Qed.

Example validateLuaSyntax_sample :
  snd (validateLuaSyntax (Some sample_chunk) [])
  = [mkMarker 4 12 4 13 (js "w")].
Proof. reflexivity. Qed.

Example validateReplSyntax_sample :
  validateReplSyntax (Some sample_chunk) []
  = [mkMarker 1 7 1 8 (js "x"); mkMarker 4 12 4 13 (js "w")].
Proof. reflexivity. Qed.

Lemma extractLuaSymbolIndex_earliest_witness :
  extractLuaSymbolIndex (Some sample_chunk) = Some sample_index
  /\ match jsmap_get (js "x") (defsByName sample_index) with
     | Some def =>
         def_name def = js "x"
         /\ In def (chunk_declarations sample_chunk)
         /\ (forall p other q,
               def_pos def = Some p ->
               In other (chunk_declarations sample_chunk) ->
               def_name other = js "x" -> def_pos other = Some q ->
               compareLuaPositions (Some p) (Some q) <= 0)
         /\ jsmap_get (js "x") (locals sample_index)
            = (if is_local def then Some def else None)
         /\ jsmap_get (js "x") (globals sample_index)
            = (if is_local def then None else Some def)
     | None =>
         (forall d, In d (chunk_declarations sample_chunk) ->
                    def_name d <> js "x")
         /\ jsmap_get (js "x") (locals sample_index) = None
         /\ jsmap_get (js "x") (globals sample_index) = None
     end.
Proof.
  split; [vm_compute; reflexivity|].
  apply (extractLuaSymbolIndex_earliest sample_chunk sample_index (js "x")).
  vm_compute. reflexivity.
Defined.

(** ** Warnings for undefined names *)

Lemma set_has_true names name : set_has names name = true <-> In name names.
Proof.
  unfold set_has. rewrite existsb_exists. split.
  - intros (k & Hk & E). apply jsstring_eqb_spec in E. congruence.
  - intros H. exists name. split; [exact H|apply jsstring_eqb_refl].
Qed.

Lemma emitted_has_true emitted key :
  emitted_has emitted key = true <-> In key emitted.
Proof.
  unfold emitted_has. rewrite existsb_exists. split.
  - intros (k & Hk & E).
    apply andb_true_iff in E as [E E3]. apply andb_true_iff in E as [E1 E2].
    apply jsstring_eqb_spec in E1. apply Z.eqb_eq in E2, E3.
    destruct k as [[a b] c], key as [[a' b'] c']. cbn [fst snd] in *.
    congruence.
  - intros H. exists key. split; [exact H|].
    rewrite jsstring_eqb_refl, !Z.eqb_refl. reflexivity.
Qed.

Lemma ListNoDup_snoc {A : Type} (l : list A) x :
  List.NoDup l -> ~ In x l -> List.NoDup (l ++ [x]).
Proof.
  induction l as [|a l IH]; intros Hnd Hx; cbn [app].
  - constructor; [intros []|constructor].
  - apply List.NoDup_cons_iff in Hnd as [H1 H2]. constructor.
    + intros H. apply in_app_or in H as [H|[H|[]]]; [exact (H1 H)|].
      apply Hx. left. symmetry. exact H.
    + apply IH; [exact H2|]. intros H. apply Hx. right. exact H.
Qed.

Lemma marker_loop_spec max skip refs : forall emitted markers,
  (forall m, In m markers -> In (marker_key m) emitted) ->
  List.NoDup markers ->
  (length markers <= max)%nat ->
  (length (marker_loop max skip refs emitted markers) <= max)%nat
  /\ List.NoDup (marker_loop max skip refs emitted markers)
  /\ exists added,
       marker_loop max skip refs emitted markers = markers ++ added
       /\ Forall (fun m =>
                    exists ref, In ref refs /\ skip ref = false
                                /\ m = marker_of ref
                                /\ startLineNumber m <> 0
                                /\ startColumn m <> 0) added.
Proof.
  induction refs as [|ref rest IH]; intros emitted markers Hem Hnd Hlen;
    cbn [marker_loop].
  - split; [exact Hlen|]. split; [exact Hnd|].
    exists []. rewrite app_nil_r. split; [reflexivity|constructor].
  - assert (Hweaken : forall em ms,
              (length (marker_loop max skip rest em ms) <= max)%nat
              /\ List.NoDup (marker_loop max skip rest em ms)
              /\ (exists added,
                    marker_loop max skip rest em ms = ms ++ added
                    /\ Forall (fun m =>
                                 exists r, In r rest /\ skip r = false
                                           /\ m = marker_of r
                                           /\ startLineNumber m <> 0
                                           /\ startColumn m <> 0) added) ->
              (length (marker_loop max skip rest em ms) <= max)%nat
              /\ List.NoDup (marker_loop max skip rest em ms)
              /\ (exists added,
                    marker_loop max skip rest em ms = ms ++ added
                    /\ Forall (fun m =>
                                 exists r, In r (ref :: rest) /\ skip r = false
                                           /\ m = marker_of r
                                           /\ startLineNumber m <> 0
                                           /\ startColumn m <> 0) added)).
    { intros em ms (H1 & H2 & added & H3 & H4).
      split; [exact H1|]. split; [exact H2|]. exists added. split; [exact H3|].
      eapply Forall_impl; [exact H4|].
      intros m (r & Hr & Hrest). exists r. split; [right; exact Hr|exact Hrest]. }
    destruct (Nat.leb_spec max (length markers)) as [Hfull|Hroom].
    { split; [exact Hlen|]. split; [exact Hnd|].
      exists []. rewrite app_nil_r. split; [reflexivity|constructor]. }
    destruct (skip ref) eqn:Eskip.
    { apply Hweaken, IH; assumption. }
    cbv zeta.
    destruct (emitted_has emitted (emitted_key ref)) eqn:Ehas.
    { apply Hweaken, IH; assumption. }
    assert (Hem' : forall m, In m markers ->
                             In (marker_key m) (emitted_key ref :: emitted)).
    { intros m Hm. right. apply Hem. exact Hm. }
    destruct (Z.eqb_spec (line_or_zero (ref_pos ref)) 0) as [Hl|Hl]; cbn [orb].
    { apply Hweaken, IH; assumption. }
    destruct (Z.eqb_spec (column_or_zero (ref_pos ref)) 0) as [Hc|Hc].
    { apply Hweaken, IH; assumption. }
    change (mkMarker _ _ _ _ _) with (marker_of ref).
    destruct (IH (emitted_key ref :: emitted) (markers ++ [marker_of ref]))
      as (H1 & H2 & added & H3 & H4).
    + intros m Hm. apply in_app_or in Hm as [Hm|[<-|[]]].
      * apply Hem'. exact Hm.
      * left. reflexivity.
    + apply ListNoDup_snoc; [exact Hnd|].
      intros Hm. apply Hem in Hm. apply emitted_has_true in Hm.
      change (marker_key (marker_of ref)) with (emitted_key ref) in Hm.
      congruence.
    + rewrite length_app. cbn [length]. lia.
    + split; [exact H1|]. split; [exact H2|].
      exists (marker_of ref :: added). split.
      * rewrite H3, <- app_assoc. reflexivity.
      * constructor.
        -- exists ref. split; [left; reflexivity|].
           split; [exact Eskip|]. split; [reflexivity|]. split; assumption.
        -- eapply Forall_impl; [exact H4|].
           intros m (r & Hr & Hrest). exists r.
           split; [right; exact Hr|exact Hrest].
Qed.

Lemma refresh_global_get source session name def :
  jsmap_get name (refresh_global source session (name, def))
  = Some (refreshed source (jsmap_get name session) def).
Proof.
  unfold refresh_global, refreshed.
  destruct (jsmap_get name session) as [existing|] eqn:E.
  - destruct (strictly_before _ _); [apply jsmap_get_set_same|exact E].
  - apply jsmap_get_set_same.
Qed.

Lemma refresh_global_get_other source session name name' def :
  name' <> name ->
  jsmap_get name' (refresh_global source session (name, def))
  = jsmap_get name' session.
Proof.
  intros Hne. unfold refresh_global.
  destruct (jsmap_get name session) as [existing|].
  - destruct (strictly_before _ _); [|reflexivity].
    apply jsmap_get_set_other. exact Hne.
  - apply jsmap_get_set_other. exact Hne.
Qed.

(** What a refreshing loop makes of the entry of one name: the entries of
    the index that the loop takes up ([take]) have different names, so at
    most one of them touches it. *)
Lemma refresh_fold_get (take : jsstring -> bool) source name entries :
  forall session,
  List.NoDup (jsmap_keys entries) ->
  jsmap_get name
    (fold_left (fun session entry =>
                  if negb (take (fst entry)) then session
                  else refresh_global source session entry) entries session)
  = match jsmap_get name entries with
    | Some def =>
        if take name
        then Some (refreshed source (jsmap_get name session) def)
        else jsmap_get name session
    | None => jsmap_get name session
    end.
Proof.
  induction entries as [|[k d] entries IH]; intros session Hnd; [reflexivity|].
  cbn [jsmap_keys map fst] in Hnd. apply List.NoDup_cons_iff in Hnd as [H1 H2].
  cbn [fold_left fst jsmap_get]. rewrite IH by exact H2.
  destruct (jsstring_eqb k name) eqn:E.
  - apply jsstring_eqb_spec in E. subst k.
    destruct (jsmap_get name entries) as [d'|] eqn:G.
    { exfalso. apply H1. apply jsmap_get_keys. congruence. }
    destruct (take name); cbn [negb]; [|reflexivity].
    apply refresh_global_get.
  - assert (Hne : name <> k).
    { intros ->. rewrite jsstring_eqb_refl in E. discriminate E. }
    assert (Hsame : jsmap_get name
                      (if negb (take k) then session
                       else refresh_global source session (k, d))
                    = jsmap_get name session).
    { destruct (take k); cbn [negb]; [|reflexivity].
      apply refresh_global_get_other. exact Hne. }
    rewrite Hsame. reflexivity.
Qed.

Lemma filter_keys_NoDup {V : Type} (keep : jsstring * V -> bool) (m : jsmap V) :
  List.NoDup (jsmap_keys m) -> List.NoDup (jsmap_keys (List.filter keep m)).
Proof.
  induction m as [|[k v] m IH]; intros Hnd; [constructor|].
  cbn [jsmap_keys map fst] in Hnd. apply List.NoDup_cons_iff in Hnd as [H1 H2].
  cbn [List.filter]. destruct (keep (k, v)); [|apply IH; exact H2].
  cbn [jsmap_keys map fst]. constructor; [|apply IH; exact H2].
  intros H. apply H1. unfold jsmap_keys in *.
  apply in_map_iff in H as (x & Hx & Hin). apply List.filter_In in Hin as [Hin _].
  apply in_map_iff. exists x. split; assumption.
Qed.

Lemma globals_NoDup ast index :
  extractLuaSymbolIndex ast = Some index ->
  List.NoDup (jsmap_keys (globals index)).
Proof.
  destruct ast as [ast|]; [|discriminate]. intros H.
  pose proof (extractLuaSymbolIndex_sound ast index H) as (_ & _ & _ & I4).
  apply extractLuaSymbolIndex_Some in H as (_ & _ & _ & ->).
  apply filter_keys_NoDup. exact I4.
Qed.

(** The session never forgets a global and only ever moves one to an
    earlier position: an entry that is there before the update is there
    after it, either unchanged or replaced by the global of that name in
    the index, which then stands strictly before the old one; and an entry
    that is new is the global of that name in the index, whose name is
    not empty.  A replaced or new entry carries the source. *)
Theorem updateSessionLuaGlobalsFromCode_monotone
    (ast : option JsVal) (source : jsstring) (session : jsmap SessionDef)
    (name : jsstring) :
  match jsmap_get name session,
        jsmap_get name (updateSessionLuaGlobalsFromCode ast source session) with
  | Some existing, Some next =>
      next = existing
      \/ (exists index,
            extractLuaSymbolIndex ast = Some index
            /\ jsmap_get name (globals index) = Some (session_def next)
            /\ session_source next = source_or_session source
            /\ strictly_before (def_pos (session_def next))
                               (def_pos (session_def existing)) = true)
  | Some _, None => False
  | None, Some next =>
      name <> []
      /\ exists index,
           extractLuaSymbolIndex ast = Some index
           /\ jsmap_get name (globals index) = Some (session_def next)
           /\ session_source next = source_or_session source
  | None, None => True
  end.
Proof.
  unfold updateSessionLuaGlobalsFromCode.
  destruct (extractLuaSymbolIndex ast) as [index|] eqn:Ei.
  2:{ destruct (jsmap_get name session); [left; reflexivity|exact I]. }
  rewrite (refresh_fold_get js_truthy) by (eapply globals_NoDup; exact Ei).
  destruct (jsmap_get name (globals index)) as [def|] eqn:Eg.
  2:{ destruct (jsmap_get name session); [left; reflexivity|exact I]. }
  destruct (js_truthy name) eqn:Et.
  2:{ destruct (jsmap_get name session); [left; reflexivity|exact I]. }
  unfold refreshed.
  destruct (jsmap_get name session) as [existing|].
  - destruct (strictly_before _ _) eqn:Eb; [|left; reflexivity].
    right. exists index. cbn [session_def session_source].
    repeat split; [exact Eg|exact Eb].
  - split; [intros ->; discriminate Et|].
    exists index. cbn [session_def session_source]. repeat split. exact Eg.
Qed.

Lemma refresh_global_keys source session entry key :
  In key (jsmap_keys (refresh_global source session entry))
  <-> key = fst entry \/ In key (jsmap_keys session).
Proof.
  destruct entry as [name def]. cbn [fst]. rewrite !jsmap_get_keys.
  destruct (jsstring_eq_dec key name) as [->|Hne].
  - rewrite refresh_global_get. split; [left; reflexivity|discriminate].
  - rewrite refresh_global_get_other by exact Hne. tauto.
Qed.

Lemma refresh_fold_keys source entries : forall session key,
  In key (jsmap_keys (fold_left (refresh_global source) entries session))
  <-> In key (jsmap_keys entries) \/ In key (jsmap_keys session).
Proof.
  induction entries as [|entry entries IH]; intros session key.
  - cbn [fold_left jsmap_keys map In]. tauto.
  - cbn [fold_left]. rewrite IH, refresh_global_keys.
    cbn [jsmap_keys map In]. split; [intros [H|[H|H]]|intros [[H|H]|H]]; auto.
Qed.

Lemma marker_of_line ref :
  startLineNumber (marker_of ref) <> 0 -> exists r, ref_pos ref = Some r.
Proof.
  unfold marker_of, line_or_zero. cbn [startLineNumber].
  destruct (ref_pos ref) as [r|]; [intros _; exists r; reflexivity|congruence].
Qed.

(** The markers [validateLuaSyntax] sets on a buffer that parses: at
    most 100, no two alike, each for a reference of the buffer with a line
    and a column, whose name is no known global and no global of the
    session as refreshed from the buffer.  So a name is never marked when
    the buffer files it as a global, wherever the reference stands; a name
    the buffer files as a local is marked only where the reference stands
    strictly before the definition. *)
Theorem validateLuaSyntax_markers
    (ast : option JsVal) (session : jsmap SessionDef) :
  match extractLuaSymbolIndex ast with
  | None => validateLuaSyntax ast session = (session, [])
  | Some index =>
      (length (snd (validateLuaSyntax ast session)) <= 100)%nat
      /\ List.NoDup (snd (validateLuaSyntax ast session))
      /\ Forall (fun m =>
           exists ref,
             In ref (refs index) /\ m = marker_of ref
             /\ startLineNumber m <> 0 /\ startColumn m <> 0
             /\ ~ In (ref_name ref) KNOWN_GLOBALS
             /\ jsmap_get (ref_name ref) (fst (validateLuaSyntax ast session))
                = None
             /\ jsmap_get (ref_name ref) (globals index) = None
             /\ match jsmap_get (ref_name ref) (defsByName index) with
                | Some def =>
                    def_scope def = ScopeLocal
                    /\ exists p r,
                         def_pos def = Some p /\ ref_pos ref = Some r
                         /\ 0 < compareLuaPositions (Some p) (Some r)
                | None => True
                end) (snd (validateLuaSyntax ast session))
  end.
Proof.
  unfold validateLuaSyntax.
  destruct (extractLuaSymbolIndex ast) as [index|] eqn:Ei; [|reflexivity].
  cbv zeta. cbn [fst snd].
  set (session' := fold_left (refresh_global (js "editor")) (globals index) session).
  destruct (marker_loop_spec 100
              (editor_skip (KNOWN_GLOBALS ++ jsmap_keys session') index session')
              (refs index) [] [])
    as (Hlen & Hnd & added & Hout & Hall);
    [intros m []|constructor|cbn [length]; lia|].
  split; [exact Hlen|]. split; [exact Hnd|].
  rewrite Hout. cbn [app].
  eapply Forall_impl; [exact Hall|].
  intros m (ref & Hin & Hskip & Hm & Hl & Hc).
  exists ref. split; [exact Hin|]. split; [exact Hm|].
  split; [exact Hl|]. split; [exact Hc|].
  unfold editor_skip in Hskip.
  destruct (set_has _ (ref_name ref)) eqn:Eknown; [discriminate Hskip|].
  assert (Hunknown : ~ In (ref_name ref) (KNOWN_GLOBALS ++ jsmap_keys session')).
  { intros H. apply set_has_true in H. congruence. }
  assert (Hsession : jsmap_get (ref_name ref) session' = None).
  { destruct (jsmap_get (ref_name ref) session') eqn:E; [|reflexivity].
    exfalso. apply Hunknown. apply in_or_app. right.
    apply jsmap_get_keys. congruence. }
  assert (Hglobal : jsmap_get (ref_name ref) (globals index) = None).
  { destruct (jsmap_get (ref_name ref) (globals index)) eqn:E; [|reflexivity].
    exfalso. apply Hunknown. apply in_or_app. right.
    apply refresh_fold_keys. left. apply jsmap_get_keys. congruence. }
  split; [intros H; apply Hunknown; apply in_or_app; left; exact H|].
  split; [exact Hsession|]. split; [exact Hglobal|].
  unfold lookup_def in Hskip.
  destruct (jsmap_get (ref_name ref) (defsByName index)) as [def|] eqn:Ed;
    [|exact I].
  split.
  - destruct ast as [ast|]; [|discriminate Ei].
    pose proof (extractLuaSymbolIndex_sound ast index Ei) as (_ & _ & _ & I4).
    apply extractLuaSymbolIndex_Some in Ei as (_ & _ & _ & Hg).
    rewrite Hg in Hglobal.
    rewrite (jsmap_get_filter (fun def => negb (is_local def))) in Hglobal
      by exact I4.
    rewrite Ed in Hglobal. unfold is_local in Hglobal.
    destruct (def_scope def); [reflexivity|discriminate Hglobal].
  - destruct (def_pos def) as [p|]; [|discriminate Hskip].
    destruct (ref_pos ref) as [r|]; [|discriminate Hskip].
    exists p, r. split; [reflexivity|]. split; [reflexivity|].
    apply Z.leb_gt in Hskip. exact Hskip.
Qed.

(** The markers [validateReplSyntax] sets on a text that parses: at most
    50, no two alike, each for a reference of the text with a line and a
    column, whose name is no known global and no global of the session,
    and which stands strictly before the definition the text files for
    the name, if that has a position. *)
Theorem validateReplSyntax_markers
    (ast : option JsVal) (session : jsmap SessionDef) :
  match extractLuaSymbolIndex ast with
  | None => validateReplSyntax ast session = []
  | Some index =>
      (length (validateReplSyntax ast session) <= 50)%nat
      /\ List.NoDup (validateReplSyntax ast session)
      /\ Forall (fun m =>
           exists ref r,
             In ref (refs index) /\ m = marker_of ref
             /\ ref_pos ref = Some r
             /\ startLineNumber m <> 0 /\ startColumn m <> 0
             /\ ~ In (ref_name ref) KNOWN_GLOBALS
             /\ jsmap_get (ref_name ref) session = None
             /\ forall def p,
                  jsmap_get (ref_name ref) (defsByName index) = Some def ->
                  def_pos def = Some p ->
                  0 < compareLuaPositions (Some p) (Some r))
           (validateReplSyntax ast session)
  end.
Proof.
  unfold validateReplSyntax. cbv zeta.
  destruct (extractLuaSymbolIndex ast) as [index|] eqn:Ei; [|reflexivity].
  destruct (marker_loop_spec 50
              (repl_skip (KNOWN_GLOBALS ++ jsmap_keys session) index session)
              (refs index) [] [])
    as (Hlen & Hnd & added & Hout & Hall);
    [intros m []|constructor|cbn [length]; lia|].
  split; [exact Hlen|]. split; [exact Hnd|].
  rewrite Hout. cbn [app].
  eapply Forall_impl; [exact Hall|].
  intros m (ref & Hin & Hskip & Hm & Hl & Hc).
  assert (Hr : exists r, ref_pos ref = Some r).
  { apply marker_of_line. rewrite <- Hm. exact Hl. }
  destruct Hr as [r Hr].
  exists ref, r. split; [exact Hin|]. split; [exact Hm|]. split; [exact Hr|].
  split; [exact Hl|]. split; [exact Hc|].
  unfold repl_skip in Hskip.
  destruct (set_has _ (ref_name ref)) eqn:Eknown; [discriminate Hskip|].
  assert (Hunknown : ~ In (ref_name ref) (KNOWN_GLOBALS ++ jsmap_keys session)).
  { intros H. apply set_has_true in H. congruence. }
  split; [intros H; apply Hunknown; apply in_or_app; left; exact H|].
  split.
  - destruct (jsmap_get (ref_name ref) session) eqn:E; [|reflexivity].
    exfalso. apply Hunknown. apply in_or_app. right.
    apply jsmap_get_keys. congruence.
  - intros def p Hd Hp. unfold lookup_def in Hskip.
    rewrite Hd, Hp, Hr in Hskip. apply Z.leb_gt in Hskip. exact Hskip.
Qed.
